(** * Role Resolution & Injection Engine (src/src/role_injector.py)

    A shallow embedding of the witness/role injector of the TMG tool suite:
    the GEDCOM scan that classifies role usage, the synchronisation of the
    role grammar stored in T.DBF, the in-memory indexes over $.DBF, G.DBF and
    E.DBF, and the duplicate-safe injection of witness rows into E.DBF.

    Conventions of the embedding
    - a Python [str] is a Rocq [string]; a character is a code point below
      256 (the interchange file is read with a single-byte encoding);
    - a Python [int] is a [Z]; [None]-or-value is an [option];
    - a [dict] whose iteration order is observable (role_usage) is an
      association list in insertion order, the other dicts are [gmap]s and
      the sets are [gset]s;
    - a DBF table is the list of its rows in storage order, appended at the
      end;
    - an uncaught Python exception (ValueError of [int], IndexError of a
      subscript) is the [None] of an [option] result;
    - logging is not part of the model. *)

From Stdlib Require Import ZArith Lia Ascii String DecimalString DecimalPos.
From stdpp Require Import gmap strings list fin_maps.

Local Open Scope string_scope.
Local Open Scope list_scope.
Local Open Scope Z_scope.

(** ** Python string primitives *)

Module PyStr.

Definition code (c : ascii) : N := N_of_ascii c.

(** [str.isspace] on code points below 256. *)
Definition is_space (c : ascii) : bool :=
  let n := code c in
  ((9 <=? n) && (n <=? 13) || (28 <=? n) && (n <=? 32)
   || (n =? 133) || (n =? 160))%N.

(** ASCII decimal digit: the class [\d] of [re] and what [int] accepts. *)
Definition is_dec (c : ascii) : bool :=
  let n := code c in ((48 <=? n) && (n <=? 57))%N.

(** Character class of [str.isdigit]: the decimal digits and the
    superscripts 1, 2, 3. *)
Definition is_digit_char (c : ascii) : bool :=
  let n := code c in
  (is_dec c || (n =? 178) || (n =? 179) || (n =? 185))%N.

Fixpoint all_chars (p : ascii -> bool) (s : string) : bool :=
  match s with
  | EmptyString => true
  | String c s' => p c && all_chars p s'
  end.

Definition is_empty (s : string) : bool :=
  match s with EmptyString => true | _ => false end.

(** [s.isdigit()]: at least one character and all of them digits. *)
Definition isdigit (s : string) : bool :=
  negb (is_empty s) && all_chars is_digit_char s.

Fixpoint lstrip_by (p : ascii -> bool) (s : string) : string :=
  match s with
  | EmptyString => EmptyString
  | String c s' => if p c then lstrip_by p s' else s
  end.

Fixpoint rstrip_by (p : ascii -> bool) (s : string) : string :=
  match s with
  | EmptyString => EmptyString
  | String c s' =>
      let r := rstrip_by p s' in
      if is_empty r && p c then EmptyString else String c r
  end.

Definition strip_by (p : ascii -> bool) (s : string) : string :=
  rstrip_by p (lstrip_by p s).

(** [s.strip()] *)
Definition strip (s : string) : string := strip_by is_space s.

(** [s.strip('@')] *)
Definition strip_at (s : string) : string :=
  strip_by (fun c => Ascii.eqb c "@"%char) s.

Fixpoint repeat_char (c : ascii) (n : nat) : string :=
  match n with
  | O => EmptyString
  | S n' => String c (repeat_char c n')
  end.

(** [s.zfill(width)]: pads with zeros on the left, after a leading sign. *)
Definition zfill (width : nat) (s : string) : string :=
  let fill := (width - String.length s)%nat in
  match s with
  | String c s' =>
      if (Ascii.eqb c "+"%char || Ascii.eqb c "-"%char)
      then String c (repeat_char "0"%char fill +:+ s')
      else repeat_char "0"%char fill +:+ s
  | EmptyString => repeat_char "0"%char fill
  end.

(** [str(z)] for an int. *)
Definition str_of_int (z : Z) : string := NilZero.string_of_int (Z.to_int z).

(** [f"{z:05d}"]: sign-aware zero padding to width 5. *)
Definition format_05d (z : Z) : string := zfill 5 (str_of_int z).

(** [s.startswith(p)] *)
Definition startswith (p s : string) : bool := String.prefix p s.

(** [sub in s] *)
Fixpoint contains (sub s : string) : bool :=
  String.prefix sub s ||
  match s with
  | EmptyString => false
  | String _ s' => contains sub s'
  end.

Fixpoint drop (n : nat) (s : string) : string :=
  match n, s with
  | O, _ => s
  | S n', String _ s' => drop n' s'
  | S _, EmptyString => EmptyString
  end.

(** [s[:n]] for [0 <= n]. *)
Fixpoint take (n : Z) (s : string) : string :=
  match s with
  | EmptyString => EmptyString
  | String c s' => if n <=? 0 then EmptyString else String c (take (n - 1) s')
  end.


Definition cons_nonempty (t : string) (ts : list string) : list string :=
  if is_empty t then ts else t :: ts.

(** The token that starts at the head of [s] (empty when [s] starts with a
    space) and the tokens after it. *)
Fixpoint tokens (s : string) : string * list string :=
  match s with
  | EmptyString => (EmptyString, [])
  | String c s' =>
      let '(t, ts) := tokens s' in
      if is_space c then (EmptyString, cons_nonempty t ts) else (String c t, ts)
  end.

(** [s.split()]: the maximal runs of non-space characters. *)
Definition split_ws (s : string) : list string :=
  let '(t, ts) := tokens s in cons_nonempty t ts.

(** First field and remaining fields of [s.split(sep, n)] for a
    one-character separator. *)
Fixpoint split_char_aux (n : nat) (sep : ascii) (s : string) : string * list string :=
  match s with
  | EmptyString => (EmptyString, [])
  | String c s' =>
      match n with
      | S n' =>
          if Ascii.eqb c sep
          then (EmptyString, let '(t, ts) := split_char_aux n' sep s' in t :: ts)
          else let '(t, ts) := split_char_aux n sep s' in (String c t, ts)
      | O => let '(t, ts) := split_char_aux n sep s' in (String c t, ts)
      end
  end.

(** [s.split(sep, n)] *)
Definition split_char_max (n : nat) (sep : ascii) (s : string) : list string :=
  let '(t, ts) := split_char_aux n sep s in t :: ts.

(** [s.split(sep)] for a one-character separator. *)
Definition split_char (sep : ascii) (s : string) : list string :=
  split_char_max (String.length s) sep s.

(** First field and remaining fields of [s.split(sep)] for a separator of
    one character or more; [skip] counts the characters of a separator
    still to be passed over. *)
Fixpoint split_on_aux (sep : string) (skip : nat) (s : string) : string * list string :=
  match s with
  | EmptyString => (EmptyString, [])
  | String c s' =>
      match skip with
      | S k => split_on_aux sep k s'
      | O =>
          if String.prefix sep s
          then (EmptyString,
                let '(t, ts) := split_on_aux sep (String.length sep - 1) s' in t :: ts)
          else let '(t, ts) := split_on_aux sep 0 s' in (String c t, ts)
      end
  end.

(** [s.split(sep)] *)
Definition split_on (sep s : string) : list string :=
  let '(t, ts) := split_on_aux sep 0 s in t :: ts.

Definition digit_val (c : ascii) : Z := Z.of_N (code c) - 48.

(** Value of a run of decimal digits, most significant first. *)
Fixpoint digits_val (acc : Z) (s : string) : Z :=
  match s with
  | EmptyString => acc
  | String c s' => digits_val (acc * 10 + digit_val c) s'
  end.

(** The digit groups that [int] accepts: digits, single underscores between
    them. *)
Fixpoint int_digits (acc : Z) (after_digit : bool) (s : string) : option Z :=
  match s with
  | EmptyString => if after_digit then Some acc else None
  | String c s' =>
      if is_dec c then int_digits (acc * 10 + digit_val c) true s'
      else if Ascii.eqb c "_"%char && after_digit then int_digits acc false s'
      else None
  end.

(** [int(s)]; [None] stands for ValueError. *)
Definition py_int (s : string) : option Z :=
  match strip s with
  | String "-" r => Z.opp <$> int_digits 0 false r
  | String "+" r => int_digits 0 false r
  | r => int_digits 0 false r
  end.

Definition is_ascii_lower (n : N) : bool := ((97 <=? n) && (n <=? 122))%N.
Definition is_ascii_upper (n : N) : bool := ((65 <=? n) && (n <=? 90))%N.
Definition is_latin_lower (n : N) : bool :=
  ((224 <=? n) && (n <=? 254) && negb (n =? 247))%N.
Definition is_latin_upper (n : N) : bool :=
  ((192 <=? n) && (n <=? 222) && negb (n =? 215))%N.

(** Upper case of one character. The sharp s becomes two letters; the micro
    sign and the y with diaeresis, whose capitals lie above code point 255,
    are left as they are. *)
Definition upper_char (c : ascii) : string :=
  let n := code c in
  if is_ascii_lower n || is_latin_lower n then String (ascii_of_N (n - 32)) EmptyString
  else if (n =? 223)%N then "SS"
  else String c EmptyString.

Definition lower_char (c : ascii) : string :=
  let n := code c in
  if is_ascii_upper n || is_latin_upper n then String (ascii_of_N (n + 32)) EmptyString
  else String c EmptyString.

Definition title_char (c : ascii) : string :=
  if (code c =? 223)%N then "Ss" else upper_char c.

Definition is_cased (c : ascii) : bool :=
  let n := code c in
  (is_ascii_lower n || is_ascii_upper n || is_latin_lower n || is_latin_upper n
   || (n =? 223) || (n =? 255) || (n =? 170) || (n =? 181) || (n =? 186))%N.

(** [s.upper()] *)
Fixpoint upper (s : string) : string :=
  match s with
  | EmptyString => EmptyString
  | String c s' => upper_char c +:+ upper s'
  end.

Fixpoint title_from (prev_cased : bool) (s : string) : string :=
  match s with
  | EmptyString => EmptyString
  | String c s' =>
      (if prev_cased then lower_char c else title_char c)
        +:+ title_from (is_cased c) s'
  end.

(** [s.title()] *)
Definition title (s : string) : string := title_from false s.

(** The first four characters of [s] when they are four decimal digits. *)
Definition four_digits_at (s : string) : option string :=
  match s with
  | String a (String b (String c (String d _))) =>
      if is_dec a && is_dec b && is_dec c && is_dec d
      then Some (String a (String b (String c (String d EmptyString))))
      else None
  | _ => None
  end.

(** [re.search(r'\d{4}', s)]: the leftmost run of four decimal digits. *)
Fixpoint search_four_digits (s : string) : option string :=
  match four_digits_at s with
  | Some y => Some y
  | None =>
      match s with
      | EmptyString => None
      | String _ s' => search_four_digits s'
      end
  end.

(** [s[1:5]] *)
Definition slice_1_5 (s : string) : string := take 4 (drop 1 s).

End PyStr.

(** ** Values read from a DBF field of unknown Python type *)

Inductive pyval : Type :=
| PyInt (z : Z)
| PyStr (s : string)
| PyNone.

(** [str(val)] *)
Definition py_str (v : pyval) : string :=
  match v with
  | PyInt z => PyStr.str_of_int z
  | PyStr s => s
  | PyNone => "None"
  end.

(** [normalize_role_id]: the role id as a string of at least five digits.
    The [except] branch of the source is dead for these three types. *)
Definition normalize_role_id (val : pyval) : string :=
  match val with
  | PyInt z => PyStr.format_05d z
  | _ =>
      let s := PyStr.strip (py_str val) in
      if PyStr.isdigit s then PyStr.zfill 5 s else s
  end.



(** ** Module-level state of the script *)

(** One entry of ROLES_DB. *)
Record role_info := { ri_eng : string; ri_fra : string }.

(** The globals the functions read: the transliteration function of the
    [unidecode] package, which is not part of the repository, the two tables
    that [load_mapping] builds from mapping.json, and the DRY_RUN flag. *)
Record globals := {
  unidecode : string -> string;
  EVENT_MAPPING : gmap string string;
  ROLES_DB : gmap string role_info;
  DRY_RUN : bool
}.

Definition is_nil {A : Type} (l : list A) : bool :=
  match l with [] => true | _ => false end.

(** Truth value of a Python object that is [None] or a [str]. *)
Definition truthy (o : option string) : bool :=
  match o with
  | Some s => negb (PyStr.is_empty s)
  | None => false
  end.

Section Engine.

Variable g : globals.

(** [normalize]: upper case without accents. *)
Definition normalize (txt : string) : string :=
  if PyStr.is_empty txt then ""
  else PyStr.strip (PyStr.upper (unidecode g txt)).

(** [extract_year_tmg]: the year of a TMG date, [1YYYYMMDD] or [0(...)]. *)
Definition extract_year_tmg (edate_str : string) : option string :=
  if PyStr.is_empty edate_str then None
  else if PyStr.startswith "1" edate_str && (5 <=? String.length edate_str)%nat
  then Some (PyStr.slice_1_5 edate_str)
  else if PyStr.startswith "0" edate_str
  then PyStr.search_four_digits edate_str
  else None.

(** *** Lines of the interchange file *)

Inductive parsed_line : Type :=
| Blank                                  (* fewer than two fields: skipped *)
| Malformed                              (* [int] raises on the level *)
| Parsed (level : Z) (tag val : string).

(** [line.strip().split(' ', 2)], then [int(parts[0])], [parts[1]] and
    [parts[2]] when present. *)
Definition parse_line (line : string) : parsed_line :=
  match PyStr.split_char_max 2 " " (PyStr.strip line) with
  | p0 :: p1 :: rest =>
      match PyStr.py_int p0 with
      | Some level => Parsed level p1 (match rest with p2 :: _ => p2 | [] => "" end)
      | None => Malformed
      end
  | _ => Blank
  end.

(** *** Pass 1: role usage *)

Record shar := { shar_id : string; shar_role : string }.

(** A value of the role_usage dict. *)
Record role_data := {
  normal : bool;
  principal : bool;
  eng : string;
  fra : string;
  events : gset string
}.

(** The role_usage dict is the list of its items, in insertion order:
    a [list (string * role_data)]. *)

Fixpoint ru_lookup (k : string) (ru : list (string * role_data)) : option role_data :=
  match ru with
  | [] => None
  | (k', d) :: ru' => if String.eqb k k' then Some d else ru_lookup k ru'
  end.

(** In-place update of the value stored under [k]. *)
Fixpoint ru_alter (f : role_data -> role_data) (k : string) (ru : list (string * role_data))
  : list (string * role_data) :=
  match ru with
  | [] => []
  | (k', d) :: ru' =>
      if String.eqb k k' then (k', f d) :: ru' else (k', d) :: ru_alter f k ru'
  end.

Definition role_info_of (role_norm role_raw : string) : role_info :=
  default {| ri_eng := PyStr.title role_raw; ri_fra := PyStr.title role_raw |}
          (ROLES_DB g !! role_norm).

(** Body of the loop of [_analyze_role_usage] for one _SHAR. *)
Definition analyze_shar (owner_id event_name_norm : string)
           (ru : list (string * role_data)) (sh : shar) : list (string * role_data) :=
  let role_raw := shar_role sh in
  let role_norm := normalize role_raw in
  let ru1 :=
    match ru_lookup role_norm ru with
    | Some _ => ru
    | None =>
        let role_info := role_info_of role_norm role_raw in
        ru ++ [(role_norm,
                {| normal := false; principal := false;
                   eng := ri_eng role_info; fra := ri_fra role_info;
                   events := ∅ |})]
    end in
  let ru2 :=
    ru_alter (fun d => {| normal := normal d; principal := principal d;
                          eng := eng d; fra := fra d;
                          events := events d ∪ {[ event_name_norm ]} |})
             role_norm ru1 in
  if String.eqb (shar_id sh) owner_id
  then ru_alter (fun d => {| normal := normal d; principal := true;
                             eng := eng d; fra := fra d; events := events d |})
                role_norm ru2
  else ru_alter (fun d => {| normal := true; principal := principal d;
                             eng := eng d; fra := fra d; events := events d |})
                role_norm ru2.

(** [_analyze_role_usage] *)
Definition _analyze_role_usage (owner_id event_name_norm : string)
           (shars : list shar) (ru : list (string * role_data)) : list (string * role_data) :=
  foldl (analyze_shar owner_id event_name_norm) ru shars.

Record scan_state := {
  current_indi_id : option string;
  current_event_tag : option string;
  current_event_type : option string;
  current_event_name_norm : option string;
  current_shars : list shar;
  role_usage : list (string * role_data)
}.

Definition scan_init : scan_state :=
  {| current_indi_id := None; current_event_tag := None;
     current_event_type := None; current_event_name_norm := None;
     current_shars := []; role_usage := [] |}.

Definition EVENT_TAGS : list string :=
  ["BIRT"; "DEAT"; "MARR"; "EVEN"; "FACT"; "OCCU"; "BAPM"; "BURI"; "CHR";
   "CENS"; "GRAD"; "RESI"].

Definition TYPED_TAGS : list string := ["EVEN"; "FACT"; "OCCU"].

Definition mem (x : string) (l : list string) : bool := bool_decide (x ∈ l).

(** [current_shars[-1]['role'] = val] *)
Fixpoint set_last_role (val : string) (shars : list shar) : list shar :=
  match shars with
  | [] => []
  | [sh] => [{| shar_id := shar_id sh; shar_role := val |}]
  | sh :: rest => sh :: set_last_role val rest
  end.

(** The analysis of the event in progress, under the guard
    [current_indi_id and current_shars and current_event_name_norm]; at the
    level-1 call the source leaves the first conjunct to the enclosing
    [elif], which has tested it. *)
Definition analyze_pending (st : scan_state) : list (string * role_data) :=
  match current_indi_id st, current_event_name_norm st with
  | Some indi, Some name =>
      if negb (PyStr.is_empty indi) && negb (is_nil (current_shars st))
         && negb (PyStr.is_empty name)
      then _analyze_role_usage indi name (current_shars st) (role_usage st)
      else role_usage st
  | _, _ => role_usage st
  end.

(** One iteration of the loop of [scan_role_usage] over a parsed line. *)
Definition scan_line (st : scan_state) (level : Z) (tag val : string) : scan_state :=
  if (level =? 0) && PyStr.startswith "@I" tag then
    {| current_indi_id := Some (PyStr.strip_at tag);
       current_event_tag := None; current_event_type := None;
       current_event_name_norm := None; current_shars := [];
       role_usage := analyze_pending st |}
  else if (level =? 1) && truthy (current_indi_id st) then
    let ru := analyze_pending st in
    if mem tag EVENT_TAGS then
      let ty := if mem tag TYPED_TAGS then Some val else None in
      let name :=
        if truthy ty
        then normalize (default val (EVENT_MAPPING g !! normalize val))
        else normalize (default tag (EVENT_MAPPING g !! normalize tag)) in
      {| current_indi_id := current_indi_id st;
         current_event_tag := Some tag; current_event_type := ty;
         current_event_name_norm := Some name; current_shars := [];
         role_usage := ru |}
    else
      {| current_indi_id := current_indi_id st;
         current_event_tag := None;
         current_event_type := current_event_type st;
         current_event_name_norm := None; current_shars := [];
         role_usage := ru |}
  else if (level =? 2) && String.eqb tag "TYPE" && truthy (current_event_tag st) then
    {| current_indi_id := current_indi_id st;
       current_event_tag := current_event_tag st;
       current_event_type := Some val;
       current_event_name_norm :=
         Some (normalize (default val (EVENT_MAPPING g !! normalize val)));
       current_shars := current_shars st;
       role_usage := role_usage st |}
  else if (level =? 2) && String.eqb tag "_SHAR" && truthy (current_event_tag st) then
    {| current_indi_id := current_indi_id st;
       current_event_tag := current_event_tag st;
       current_event_type := current_event_type st;
       current_event_name_norm := current_event_name_norm st;
       current_shars :=
         current_shars st ++ [{| shar_id := PyStr.strip_at val; shar_role := "Witness" |}];
       role_usage := role_usage st |}
  else if (level =? 3) && String.eqb tag "ROLE" && negb (is_nil (current_shars st)) then
    {| current_indi_id := current_indi_id st;
       current_event_tag := current_event_tag st;
       current_event_type := current_event_type st;
       current_event_name_norm := current_event_name_norm st;
       current_shars := set_last_role val (current_shars st);
       role_usage := role_usage st |}
  else st.

(** The loop over the lines of the file; [None] when a level is not an
    integer. *)
Fixpoint scan_lines (st : scan_state) (lines : list string) : option scan_state :=
  match lines with
  | [] => Some st
  | line :: rest =>
      match parse_line line with
      | Blank => scan_lines st rest
      | Malformed => None
      | Parsed level tag val => scan_lines (scan_line st level tag val) rest
      end
  end.

(** [scan_role_usage]: the role_usage table of the file. The final
    conversion of each event set to a sorted list keeps its members. *)
Definition scan_role_usage (lines : list string) : option (list (string * role_data)) :=
  st ← scan_lines scan_init lines;
  Some (analyze_pending st).

(** *** Pass 2: the role grammar of T.DBF *)

Definition CR : string := String "013"%char EmptyString.
Definition LF : string := String "010"%char EmptyString.

(** Longest prefix of characters satisfying [p], and the rest. *)
Fixpoint span (p : ascii -> bool) (s : string) : string * string :=
  match s with
  | EmptyString => (EmptyString, EmptyString)
  | String c s' =>
      if p c then let '(a, r) := span p s' in (String c a, r)
      else (EmptyString, s)
  end.

(** The lookahead [(?=\[RL=|\[:LABELS\]|$)]; [$] also holds before a final
    line feed. *)
Definition lookahead_full_role (s : string) : bool :=
  PyStr.startswith "[RL=" s || PyStr.startswith "[:LABELS]" s
  || PyStr.is_empty s || String.eqb s LF.

(** The lazy [(.*?)] under DOTALL: the shortest prefix after which the
    lookahead holds, and the rest. *)
Fixpoint lazy_block (s : string) : string * string :=
  if lookahead_full_role s then (EmptyString, s)
  else
    match s with
    | EmptyString => (EmptyString, EmptyString)
    | String c s' => let '(b, r) := lazy_block s' in (String c b, r)
    end.

(** A match of [regex_full_role] at the head of [s]: [int(m.group(1))],
    [m.group(2)] and the text after the match. *)
Definition match_full_role (s : string) : option (Z * string * string) :=
  if PyStr.startswith "[RL=" s then
    let '(ds, r) := span PyStr.is_dec (PyStr.drop 4 s) in
    match ds, r with
    | String _ _, String "]" r' =>
        let '(block, rest) := lazy_block r' in
        Some (PyStr.digits_val 0 ds, block, rest)
    | _, _ => None
    end
  else None.

(** [regex_full_role.finditer]: the matches from left to right, each search
    resuming where the previous match ended. *)
Fixpoint finditer_full_role_from (fuel : nat) (s : string) : list (Z * string) :=
  match fuel with
  | O => []
  | S fuel' =>
      match match_full_role s with
      | Some (rid, block, rest) => (rid, block) :: finditer_full_role_from fuel' rest
      | None =>
          match s with
          | EmptyString => []
          | String _ s' => finditer_full_role_from fuel' s'
          end
      end
  end.

Definition finditer_full_role (s : string) : list (Z * string) :=
  finditer_full_role_from (S (String.length s)) s.

Definition is_label_char (c : ascii) : bool :=
  negb (Ascii.eqb c "["%char || Ascii.eqb c "013"%char || Ascii.eqb c "010"%char).

(** The group [([^\[\r\n]+)] at the head of [s]. *)
Definition match_label_text (s : string) : option (string * string) :=
  let '(lbl, rest) := span is_label_char s in
  if PyStr.is_empty lbl then None else Some (lbl, rest).

(** A match of [regex_lbl] at the head of [s]: first with the optional
    language prefix [\[L=...\]], then without it. *)
Definition match_lbl (s : string) : option (string * string) :=
  let with_lang :=
    if PyStr.startswith "[L=" s then
      let '(lang, r) := span (fun c => negb (Ascii.eqb c "]"%char)) (PyStr.drop 3 s) in
      match lang, r with
      | String _ _, String _ r' => match_label_text r'
      | _, _ => None
      end
    else None in
  match with_lang with
  | Some m => Some m
  | None => match_label_text s
  end.

(** [regex_lbl.finditer]: the label texts [lm.group(1)]. *)
Fixpoint finditer_lbl_from (fuel : nat) (s : string) : list string :=
  match fuel with
  | O => []
  | S fuel' =>
      match match_lbl s with
      | Some (lbl, rest) => lbl :: finditer_lbl_from fuel' rest
      | None =>
          match s with
          | EmptyString => []
          | String _ s' => finditer_lbl_from fuel' s'
          end
      end
  end.

Definition finditer_lbl (s : string) : list string :=
  finditer_lbl_from (S (String.length s)) s.

(** [sent.split("[LABELS:]")[1].split("[:LABELS]")[0]] *)
Definition labels_content (sent : string) : string :=
  hd "" (PyStr.split_on "[:LABELS]" (nth 1 (PyStr.split_on "[LABELS:]" sent) "")).

(** The [(rid, block)] pairs of the label section of [sent]. *)
Definition grammar_blocks (sent : string) : list (Z * string) :=
  finditer_full_role (labels_content sent).

(** One iteration of the outer parsing loop: the maximum is raised and
    every label of the block is bound to the code. *)
Definition parse_block (acc : gmap string Z * Z) (m : Z * string) : gmap string Z * Z :=
  let '(existing_roles, max_role_id) := acc in
  let '(rid, block) := m in
  (foldl (fun ex lbl => <[normalize lbl := rid]> ex) existing_roles (finditer_lbl block),
   Z.max max_role_id rid).

(** [existing_roles] and [max_role_id] of a grammar text. *)
Definition parse_existing (sent : string) : gmap string Z * Z :=
  if PyStr.contains "[LABELS:]" sent
  then foldl parse_block (∅, 0) (grammar_blocks sent)
  else (∅, 0).

Inductive variant : Type := NORMAL | PRINCIPAL.

#[global] Instance variant_eq_dec : EqDecision variant.
Proof. solve_decision. Defined.

(** The inner dict [{'NORMAL': code, 'PRINCIPAL': code}] of role_codes. *)
Record role_pair := { pair_normal : option Z; pair_principal : option Z }.

Definition pair_empty : role_pair := {| pair_normal := None; pair_principal := None |}.

Definition pair_get (v : variant) (p : role_pair) : option Z :=
  match v with NORMAL => pair_normal p | PRINCIPAL => pair_principal p end.

Definition pair_set (v : variant) (code : Z) (p : role_pair) : role_pair :=
  match v with
  | NORMAL => {| pair_normal := Some code; pair_principal := pair_principal p |}
  | PRINCIPAL => {| pair_normal := pair_normal p; pair_principal := Some code |}
  end.

(** [role_codes[eid].setdefault(role_norm, {})[v] = code] *)
Definition set_code (eid : Z) (role_norm : string) (v : variant) (code : Z)
           (rc : gmap Z (gmap string role_pair)) : gmap Z (gmap string role_pair) :=
  let m := default ∅ (rc !! eid) in
  <[eid := <[role_norm := pair_set v code (default pair_empty (m !! role_norm))]> m]> rc.

(** A row of T.DBF. *)
Record t_rec := {
  etypename : string;
  etypenum : Z;
  tsentence : string;
  prinrole : bool;
  witrole : bool
}.

(** An entry of [roles_to_create]. *)
Record new_role := {
  nr_eng : string;
  nr_fra : string;
  nr_key : string;
  nr_type : variant
}.

Record plan := {
  plan_codes : gmap Z (gmap string role_pair);
  roles_to_create : list new_role;
  needs_prinrole : bool;
  needs_witrole : bool
}.

(** The NORMAL half of the loop body over [roles_for_this_event]. *)
Definition plan_normal (eid : Z) (existing_roles : gmap string Z)
           (role_norm : string) (data : role_data) (p : plan) : plan :=
  if normal data then
    match existing_roles !! normalize (eng data) with
    | Some code =>
        {| plan_codes := set_code eid role_norm NORMAL code (plan_codes p);
           roles_to_create := roles_to_create p;
           needs_prinrole := needs_prinrole p; needs_witrole := true |}
    | None =>
        {| plan_codes := plan_codes p;
           roles_to_create :=
             roles_to_create p ++
               [{| nr_eng := eng data; nr_fra := fra data;
                   nr_key := role_norm; nr_type := NORMAL |}];
           needs_prinrole := needs_prinrole p; needs_witrole := true |}
    end
  else p.

(** The PRINCIPAL half of the loop body. *)
Definition plan_principal (eid : Z) (existing_roles : gmap string Z)
           (role_norm : string) (data : role_data) (p : plan) : plan :=
  if principal data then
    let prin_eng := "Principal " +:+ eng data in
    let prin_fra := "Principal " +:+ fra data in
    match existing_roles !! normalize prin_eng with
    | Some code =>
        {| plan_codes := set_code eid role_norm PRINCIPAL code (plan_codes p);
           roles_to_create := roles_to_create p;
           needs_prinrole := true; needs_witrole := needs_witrole p |}
    | None =>
        {| plan_codes := plan_codes p;
           roles_to_create :=
             roles_to_create p ++
               [{| nr_eng := prin_eng; nr_fra := prin_fra;
                   nr_key := role_norm; nr_type := PRINCIPAL |}];
           needs_prinrole := true; needs_witrole := needs_witrole p |}
    end
  else p.

Definition plan_role (eid : Z) (existing_roles : gmap string Z)
           (p : plan) (r : string * role_data) : plan :=
  plan_principal eid existing_roles r.1 r.2
    (plan_normal eid existing_roles r.1 r.2 p).

(** State of the allocation loop over [roles_to_create]. *)
Record alloc := {
  insertion_str : string;
  current_id : Z;
  alloc_codes : gmap Z (gmap string role_pair)
}.

Definition alloc_role (eid : Z) (a : alloc) (new_role : new_role) : alloc :=
  let id := current_id a + 1 in
  {| insertion_str :=
       insertion_str a +:+ CR +:+ "[RL=" +:+ PyStr.format_05d id +:+ "]"
         +:+ "[L=ENGLISH]" +:+ nr_eng new_role
         +:+ "[L=FRENCH]" +:+ nr_fra new_role;
     current_id := id;
     alloc_codes := set_code eid (nr_key new_role) (nr_type new_role) id (alloc_codes a) |}.

(** The grammar text after the insertion: everything before the first
    [[:LABELS]], the new entries, the closing tag and the field after it. *)
Definition rebuild_sentence (sent insertion : string) : string :=
  if PyStr.is_empty insertion then sent
  else
    let parts := PyStr.split_on "[:LABELS]" sent in
    hd "" parts +:+ insertion +:+ CR +:+ "[:LABELS]" +:+ nth 1 parts "".

(** The text the loop works on: stripped, with an empty label section
    appended when there is none. *)
Definition working_sentence (rec : t_rec) : string :=
  let sent := PyStr.strip (tsentence rec) in
  if PyStr.contains "[LABELS:]" sent then sent
  else sent +:+ CR +:+ "[LABELS:]" +:+ CR +:+ "[:LABELS]".

Definition roles_for_this_event (ename_norm : string) (ru : list (string * role_data))
  : list (string * role_data) :=
  filter (fun r => ename_norm ∈ events r.2) ru.

(** The loop over [roles_for_this_event] of one row: the codes found in
    the grammar are stored, the missing roles are listed for creation. *)
Definition record_plan (ru : list (string * role_data))
           (role_codes : gmap Z (gmap string role_pair)) (rec : t_rec) : plan :=
  let ename_norm := normalize (PyStr.strip (etypename rec)) in
  let existing_roles := (parse_existing (working_sentence rec)).1 in
  foldl (plan_role (etypenum rec) existing_roles)
        {| plan_codes := role_codes; roles_to_create := [];
           needs_prinrole := false; needs_witrole := false |}
        (roles_for_this_event ename_norm ru).

(** The loop over [roles_to_create] of one row, which starts from
    [max_role_id]. *)
Definition record_alloc (p : plan) (rec : t_rec) : alloc :=
  foldl (alloc_role (etypenum rec))
        {| insertion_str := "";
           current_id := (parse_existing (working_sentence rec)).2;
           alloc_codes := plan_codes p |}
        (roles_to_create p).

(** Body of the loop of [update_tmg_structure] for one row: the row as it is
    left in the table, and the two result dicts. *)
Definition sync_record (ru : list (string * role_data))
           (acc : list t_rec * gmap string Z * gmap Z (gmap string role_pair))
           (rec : t_rec)
  : list t_rec * gmap string Z * gmap Z (gmap string role_pair) :=
  let '(done, event_ids, role_codes) := acc in
  let ename := PyStr.strip (etypename rec) in
  let ename_norm := normalize ename in
  let eid := etypenum rec in
  let event_ids := <[ename_norm := eid]> event_ids in
  let role_codes := <[eid := ∅]> role_codes in
  let sent := working_sentence rec in
  let roles := roles_for_this_event ename_norm ru in
  if is_nil roles then (done ++ [rec], event_ids, role_codes)
  else
    let p := record_plan ru role_codes rec in
    if negb (is_nil (roles_to_create p))
       || (needs_prinrole p && negb (prinrole rec))
       || (needs_witrole p && negb (witrole rec))
    then
      let a := record_alloc p rec in
      let new_sent := rebuild_sentence sent (insertion_str a) in
      let rec' :=
        if DRY_RUN g then rec
        else {| etypename := etypename rec; etypenum := etypenum rec;
                tsentence := new_sent;
                prinrole := needs_prinrole p || prinrole rec;
                witrole := needs_witrole p || witrole rec |} in
      (done ++ [rec'], event_ids, alloc_codes a)
    else (done ++ [rec], event_ids, plan_codes p).

(** [update_tmg_structure]: the table T.DBF after the pass, [event_ids] and
    [role_codes]. *)
Definition update_tmg_structure (ru : list (string * role_data)) (t : list t_rec)
  : list t_rec * gmap string Z * gmap Z (gmap string role_pair) :=
  foldl (sync_record ru) ([], ∅, ∅) t.

(** *** Pass 3: the in-memory indexes *)

(** A row of $.DBF (persons). *)
Record p_rec := { per_no : Z; reference : string; p_dsid : Z }.

(** A row of G.DBF (events). *)
Record g_rec := { recno : Z; etype : Z; edate : string; per1 : Z; per2 : Z }.

(** A row of E.DBF (witnesses), with the field names of [tw.append]. The
    role is kept as the Python value the table returns for it. *)
Record e_rec := {
  EPER : Z;
  GNUM : Z;
  DSID : Z;
  SEQUENCE : Z;
  PRIMARY : bool;
  ROLE : pyval;
  WITMEMO : string
}.

(** The dict stored in events_index for an event. *)
Record evt_data := { ev_recno : Z; ev_edate : string; ev_per1 : Z; ev_per2 : Z }.

(** The 4-tuple key of the anti-duplicate cache:
    (GNUM, EPER, normalized ROLE, PRIMARY). *)
Definition wit_key : Type := Z * Z * string * bool.

(** Loop over $.DBF: [refn_to_perno] and the detected [dsid]. *)
Definition load_person (acc : gmap string Z * Z) (r : p_rec) : gmap string Z * Z :=
  let '(refn_to_perno, dsid) := acc in
  let dsid := if (dsid =? 1) && (0 <? p_dsid r) then p_dsid r else dsid in
  let ref := PyStr.strip (reference r) in
  (if negb (PyStr.is_empty ref) then <[ref := per_no r]> refn_to_perno else refn_to_perno,
   dsid).

(** [events_index[key].append(evt_data)], the list being created on first
    use. *)
Definition index_add (key : Z * Z) (d : evt_data)
           (idx : gmap (Z * Z) (list evt_data)) : gmap (Z * Z) (list evt_data) :=
  <[key := default [] (idx !! key) ++ [d]]> idx.

(** Loop over G.DBF: every event is indexed under both participants. *)
Definition load_event (idx : gmap (Z * Z) (list evt_data)) (r : g_rec)
  : gmap (Z * Z) (list evt_data) :=
  let evt := {| ev_recno := recno r; ev_edate := edate r;
                ev_per1 := per1 r; ev_per2 := per2 r |} in
  let idx := if 0 <? per1 r then index_add (per1 r, etype r) evt idx else idx in
  if 0 <? per2 r then index_add (per2 r, etype r) evt idx else idx.

(** The key under which a row of E.DBF is cached. *)
Definition key_of_row (r : e_rec) : wit_key :=
  (GNUM r, EPER r, normalize_role_id (ROLE r), PRIMARY r).

(** Loop over E.DBF. *)
Definition load_witness (existing_witnesses : gset wit_key) (r : e_rec) : gset wit_key :=
  if (0 <? GNUM r) && (0 <? EPER r)
  then existing_witnesses ∪ {[ key_of_row r ]}
  else existing_witnesses.

(** Loop over the lines of the interchange file that maps the individuals
    to persons through their REFN; [None] is the IndexError of a subscript. *)
Definition map_refn_line (refn_to_perno : gmap string Z)
           (acc : option string * gmap string Z) (line : string)
  : option (option string * gmap string Z) :=
  let '(gid, ged_to_perno) := acc in
  if PyStr.startswith "0 @I" line then
    tok ← PyStr.split_ws line !! 1%nat;
    Some (Some (PyStr.strip_at tok), ged_to_perno)
  else if PyStr.startswith "1 REFN" line && truthy gid then
    tok ← PyStr.split_ws line !! 2%nat;
    let refn := PyStr.strip tok in
    Some (None,
          match refn_to_perno !! refn with
          | Some perno => <[default "" gid := perno]> ged_to_perno
          | None => ged_to_perno
          end)
  else Some acc.

Fixpoint map_refn_lines (refn_to_perno : gmap string Z)
         (acc : option string * gmap string Z) (lines : list string)
  : option (gmap string Z) :=
  match lines with
  | [] => Some acc.2
  | line :: rest =>
      acc' ← map_refn_line refn_to_perno acc line;
      map_refn_lines refn_to_perno acc' rest
  end.

Record indexes := {
  ged_to_perno : gmap string Z;
  ix_dsid : Z;
  events_index : gmap (Z * Z) (list evt_data);
  existing_witnesses : gset wit_key
}.

(** [load_persons_and_events] *)
Definition load_persons_and_events (tp : list p_rec) (tg : list g_rec)
           (te : list e_rec) (lines : list string) : option indexes :=
  let '(refn_to_perno, dsid) := foldl load_person (∅, 1) tp in
  let idx := foldl load_event ∅ tg in
  let ex := foldl load_witness ∅ te in
  m ← map_refn_lines refn_to_perno (None, ∅) lines;
  Some {| ged_to_perno := m; ix_dsid := dsid; events_index := idx;
          existing_witnesses := ex |}.

(** *** Pass 4: injection *)

(** A witness of the event in progress. *)
Record wit := { wit_ged : string; wit_role : string; wit_note : string }.

(** The four result strings of [insert_single_witness], which are also the
    keys of [stats]. *)
Inductive outcome : Type := Ok | Principal | Skip | Error.

Record stats := { n_ok : Z; n_principal : Z; n_skip : Z; n_error : Z }.

(** [stats[res] += n] *)
Definition bump (res : outcome) (n : Z) (s : stats) : stats :=
  match res with
  | Ok => {| n_ok := n_ok s + n; n_principal := n_principal s;
             n_skip := n_skip s; n_error := n_error s |}
  | Principal => {| n_ok := n_ok s; n_principal := n_principal s + n;
                    n_skip := n_skip s; n_error := n_error s |}
  | Skip => {| n_ok := n_ok s; n_principal := n_principal s;
               n_skip := n_skip s + n; n_error := n_error s |}
  | Error => {| n_ok := n_ok s; n_principal := n_principal s;
                n_skip := n_skip s; n_error := n_error s + n |}
  end.

(** Truth value of a Python object that is [None] or an [int]. *)
Definition truthy_int (o : option Z) : bool :=
  match o with
  | Some z => negb (z =? 0)
  | None => false
  end.

(** [a or b] on such objects. *)
Definition py_or (a b : option Z) : option Z := if truthy_int a then a else b.

(** The self-witness test:
    [wper == evt_per1 or (evt_per2 and wper == evt_per2)]. *)
Definition is_self_witness (wper evt_per1 evt_per2 : Z) : bool :=
  (wper =? evt_per1) || (negb (evt_per2 =? 0) && (wper =? evt_per2)).

(** The role code and the memo of a witness: the code of the role in the
    wanted variant, else the codes of WITNESS, else 2; on any fall-back the
    English label is put in front of the memo. *)
Definition select_role (role_codes : gmap Z (gmap string role_pair))
           (eid : Z) (is_self : bool) (role note : string) : Z * string :=
  let role_ged_norm := normalize role in
  let role_info := role_info_of role_ged_norm role in
  let roles_this_evt := default ∅ (role_codes !! eid) in
  let role_map := default pair_empty (roles_this_evt !! role_ged_norm) in
  let final_code :=
    if is_self then pair_get PRINCIPAL role_map else pair_get NORMAL role_map in
  if truthy_int final_code then (default 0 final_code, note)
  else
    let witness_map := default pair_empty (roles_this_evt !! "WITNESS") in
    let final_code :=
      if is_self
      then py_or (pair_get PRINCIPAL witness_map) (pair_get NORMAL witness_map)
      else py_or (pair_get NORMAL witness_map) (pair_get PRINCIPAL witness_map) in
    let final_code := if truthy_int final_code then default 0 final_code else 2 in
    (final_code, "[" +:+ ri_eng role_info +:+ "] " +:+ note).

(** The loop that computes [max_seq] over the rows of E.DBF. *)
Definition max_seq_step (gnum : Z) (max_seq : Z) (row : e_rec) : Z :=
  if (GNUM row =? gnum) && (max_seq <? SEQUENCE row) then SEQUENCE row else max_seq.

Definition next_sequence (gnum : Z) (tw : list e_rec) : Z :=
  if DRY_RUN g then 1 else foldl (max_seq_step gnum) 0 tw + 1.

(** [insert_single_witness]: the result string, the table E.DBF and the
    cache after the call. *)
Definition insert_single_witness (wit_data : wit) (eid gnum : Z)
           (role_codes : gmap Z (gmap string role_pair))
           (ged_to_perno : gmap string Z)
           (existing_witnesses : gset wit_key) (tw : list e_rec) (dsid : Z)
           (evt_per1 evt_per2 : Z)
  : outcome * list e_rec * gset wit_key :=
  let wper := ged_to_perno !! wit_ged wit_data in
  if negb (truthy_int wper) then (Error, tw, existing_witnesses)
  else
    let wper := default 0 wper in
    let is_self := is_self_witness wper evt_per1 evt_per2 in
    let '(final_code, memo) :=
      select_role role_codes eid is_self (wit_role wit_data) (wit_note wit_data) in
    let role_formatted := PyStr.format_05d final_code in
    let role_to_check := normalize_role_id (PyStr role_formatted) in
    let check_key : wit_key := (gnum, wper, role_to_check, is_self) in
    if bool_decide (check_key ∈ existing_witnesses)
    then (Skip, tw, existing_witnesses)
    else
      let new_seq := next_sequence gnum tw in
      let tw' :=
        if DRY_RUN g then tw
        else tw ++ [{| EPER := wper; GNUM := gnum; DSID := dsid;
                       SEQUENCE := new_seq; PRIMARY := is_self;
                       ROLE := PyStr role_formatted;
                       WITMEMO := PyStr.take 60000 memo |}] in
      (if is_self then Principal else Ok, tw', existing_witnesses ∪ {[ check_key ]}).

(** The event in progress of [process_events]. *)
Record evt_ctx := {
  ctx_tag : option string;
  ctx_eid : option Z;
  ctx_date : option string;
  ctx_witnesses : list wit
}.

(** What the injection changes: the table, the cache and the tallies. *)
Record inj_state := {
  tw : list e_rec;
  cache : gset wit_key;
  tally : stats
}.

(** The year of the interchange date: its first field of four digits. *)
Definition gedcom_year (date : option string) : option string :=
  if truthy date
  then List.find (fun x => PyStr.isdigit x && (String.length x =? 4)%nat)
                 (PyStr.split_ws (default "" date))
  else None.

(** The test of the candidate loop: a candidate is refused only when both
    years are there, the stored one is not 0000, and they differ. *)
Definition year_matches (y_ged : option string) (cand : evt_data) : bool :=
  match y_ged with
  | Some y =>
      if PyStr.is_empty y then true
      else
        let y_tmg := extract_year_tmg (ev_edate cand) in
        negb (truthy y_tmg
              && negb (String.eqb (default "" y_tmg) "0000")
              && negb (String.eqb (default "" y_tmg) y))
  | None => true
  end.

(** [target_gnum]: the record number of the first candidate that passes. *)
Definition find_target (y_ged : option string) (candidates : list evt_data)
  : option Z :=
  ev_recno <$> List.find (year_matches y_ged) candidates.

Definition insert_step (eid gnum : Z)
           (role_codes : gmap Z (gmap string role_pair))
           (ged_to_perno : gmap string Z) (dsid per1 per2 : Z)
           (st : inj_state) (w : wit) : inj_state :=
  let '(res, tw', cache') :=
    insert_single_witness w eid gnum role_codes ged_to_perno (cache st) (tw st)
                          dsid per1 per2 in
  {| tw := tw'; cache := cache'; tally := bump res 1 (tally st) |}.

(** [flush_event] *)
Definition flush_event (ctx : evt_ctx) (pper : Z) (ix : indexes)
           (role_codes : gmap Z (gmap string role_pair))
           (st : inj_state) : inj_state :=
  if negb (truthy_int (ctx_eid ctx)) || is_nil (ctx_witnesses ctx) then st
  else
    let eid := default 0 (ctx_eid ctx) in
    let y_ged := gedcom_year (ctx_date ctx) in
    let candidates := default [] (events_index ix !! (pper, eid)) in
    let target_gnum := find_target y_ged candidates in
    if negb (truthy_int target_gnum)
    then {| tw := tw st; cache := cache st;
            tally := bump Error (Z.of_nat (length (ctx_witnesses ctx))) (tally st) |}
    else
      let gnum := default 0 target_gnum in
      let '(target_per1, target_per2) :=
        match List.find (fun c => ev_recno c =? gnum) candidates with
        | Some c => (ev_per1 c, ev_per2 c)
        | None => (0, 0)
        end in
      foldl (insert_step eid gnum role_codes (ged_to_perno ix) (ix_dsid ix)
                         target_per1 target_per2)
            st (ctx_witnesses ctx).

Definition ctx_init : evt_ctx :=
  {| ctx_tag := None; ctx_eid := None; ctx_date := None; ctx_witnesses := [] |}.

(** [current_evt['witnesses'][-1][field] = ...] *)
Fixpoint alter_last (f : wit -> wit) (ws : list wit) : list wit :=
  match ws with
  | [] => []
  | [w] => [f w]
  | w :: rest => w :: alter_last f rest
  end.

(** One iteration of the loop of [process_events] over a parsed line. *)
Definition event_line (pper : Z) (evt_ids : gmap string Z) (ix : indexes)
           (role_codes : gmap Z (gmap string role_pair))
           (acc : evt_ctx * inj_state) (lvl : Z) (tag val : string)
  : evt_ctx * inj_state :=
  let '(cur, st) := acc in
  if lvl =? 1 then
    let st := flush_event cur pper ix role_codes st in
    let norm_tag := normalize (default tag (EVENT_MAPPING g !! normalize tag)) in
    let eid := evt_ids !! norm_tag in
    let eid :=
      if negb (truthy_int eid) && mem tag ["FACT"; "EVEN"; "OCCU"]
         && negb (PyStr.is_empty val)
      then
        let target := default (normalize val) (EVENT_MAPPING g !! normalize val) in
        evt_ids !! normalize target
      else eid in
    ({| ctx_tag := Some tag; ctx_eid := eid; ctx_date := None; ctx_witnesses := [] |},
     st)
  else if lvl =? 2 then
    if String.eqb tag "DATE" then
      ({| ctx_tag := ctx_tag cur; ctx_eid := ctx_eid cur;
          ctx_date := Some (PyStr.strip val);
          ctx_witnesses := ctx_witnesses cur |}, st)
    else if String.eqb tag "TYPE"
            && match ctx_tag cur with
               | Some t => mem t TYPED_TAGS
               | None => false
               end then
      let target := default (normalize val) (EVENT_MAPPING g !! normalize val) in
      let eid := evt_ids !! normalize target in
      if truthy_int eid
      then ({| ctx_tag := ctx_tag cur; ctx_eid := eid; ctx_date := ctx_date cur;
               ctx_witnesses := ctx_witnesses cur |}, st)
      else (cur, st)
    else if String.eqb tag "_SHAR" then
      ({| ctx_tag := ctx_tag cur; ctx_eid := ctx_eid cur; ctx_date := ctx_date cur;
          ctx_witnesses :=
            ctx_witnesses cur ++
              [{| wit_ged := PyStr.strip_at val; wit_role := "Witness";
                  wit_note := "" |}] |}, st)
    else (cur, st)
  else if (lvl =? 3) && negb (is_nil (ctx_witnesses cur)) then
    if String.eqb tag "ROLE" then
      ({| ctx_tag := ctx_tag cur; ctx_eid := ctx_eid cur; ctx_date := ctx_date cur;
          ctx_witnesses :=
            alter_last (fun w => {| wit_ged := wit_ged w;
                                    wit_role := PyStr.strip val;
                                    wit_note := wit_note w |})
                       (ctx_witnesses cur) |}, st)
    else if String.eqb tag "NOTE" then
      ({| ctx_tag := ctx_tag cur; ctx_eid := ctx_eid cur; ctx_date := ctx_date cur;
          ctx_witnesses :=
            alter_last (fun w => {| wit_ged := wit_ged w; wit_role := wit_role w;
                                    wit_note := wit_note w +:+ " " +:+ PyStr.strip val |})
                       (ctx_witnesses cur) |}, st)
    else (cur, st)
  else (cur, st).

Fixpoint event_lines (pper : Z) (evt_ids : gmap string Z) (ix : indexes)
         (role_codes : gmap Z (gmap string role_pair))
         (acc : evt_ctx * inj_state) (lines : list string)
  : option (evt_ctx * inj_state) :=
  match lines with
  | [] => Some acc
  | l :: rest =>
      match parse_line l with
      | Blank => event_lines pper evt_ids ix role_codes acc rest
      | Malformed => None
      | Parsed lvl tag val =>
          event_lines pper evt_ids ix role_codes
                      (event_line pper evt_ids ix role_codes acc lvl tag val) rest
      end
  end.

(** [process_events]: every event of a block, the last one flushed at the
    end; [None] when a level is not an integer. *)
Definition process_events (lines : list string) (pper : Z)
           (evt_ids : gmap string Z) (ix : indexes)
           (role_codes : gmap Z (gmap string role_pair))
           (st : inj_state) : option inj_state :=
  acc ← event_lines pper evt_ids ix role_codes (ctx_init, st) lines;
  Some (flush_event acc.1 pper ix role_codes acc.2).

(** The loop of [process_block] over a family block: the last HUSB and the
    last WIFE pointers. *)
Definition spouse_line (acc : option string * option string) (l : string)
  : option string * option string :=
  let '(husb_gid, wife_gid) := acc in
  if PyStr.startswith "1 HUSB" l then
    match PyStr.split_char "@" l with
    | _ :: p1 :: _ => (Some p1, wife_gid)
    | _ => acc
    end
  else if PyStr.startswith "1 WIFE" l then
    match PyStr.split_char "@" l with
    | _ :: p1 :: _ => (husb_gid, Some p1)
    | _ => acc
    end
  else acc.

(** The person a block is attached to: the individual, or the husband and
    else the wife of a family. *)
Definition block_person (lines : list string) (ged_to_perno : gmap string Z)
  : option (option Z) :=
  match lines with
  | [] => None
  | head :: _ =>
      if PyStr.startswith "0 @I" head then
        tok ← PyStr.split_ws head !! 1%nat;
        Some (ged_to_perno !! PyStr.strip_at tok)
      else if PyStr.startswith "0 @F" head then
        let '(husb_gid, wife_gid) := foldl spouse_line (None, None) lines in
        Some (if truthy husb_gid
                 && bool_decide (is_Some (ged_to_perno !! default "" husb_gid))
              then ged_to_perno !! default "" husb_gid
              else if truthy wife_gid
                      && bool_decide (is_Some (ged_to_perno !! default "" wife_gid))
              then ged_to_perno !! default "" wife_gid
              else None)
      else Some None
  end.

(** [process_block] *)
Definition process_block (lines : list string) (evt_ids : gmap string Z)
           (ix : indexes) (role_codes : gmap Z (gmap string role_pair))
           (st : inj_state) : option inj_state :=
  pper ← block_person lines (ged_to_perno ix);
  if truthy_int pper
  then process_events lines (default 0 pper) evt_ids ix role_codes st
  else Some st.

(** The loop of [inject_witnesses]: the file is cut at every line that
    opens an individual or a family, and each block is processed when the
    next one opens. *)
Fixpoint inject_lines (evt_ids : gmap string Z) (ix : indexes)
         (role_codes : gmap Z (gmap string role_pair))
         (block : list string) (st : inj_state) (lines : list string)
  : option inj_state :=
  match lines with
  | [] =>
      if is_nil block then Some st
      else process_block block evt_ids ix role_codes st
  | line :: rest =>
      if PyStr.startswith "0 @I" line || PyStr.startswith "0 @F" line then
        st' ← (if is_nil block then Some st
               else process_block block evt_ids ix role_codes st);
        inject_lines evt_ids ix role_codes [line] st' rest
      else inject_lines evt_ids ix role_codes (block ++ [line]) st rest
  end.

Definition stats_init : stats :=
  {| n_ok := 0; n_principal := 0; n_skip := 0; n_error := 0 |}.

(** [inject_witnesses]: the table E.DBF after the pass and the tallies. *)
Definition inject_witnesses (evt_ids : gmap string Z)
           (role_codes : gmap Z (gmap string role_pair)) (ix : indexes)
           (te : list e_rec) (lines : list string) : option inj_state :=
  inject_lines evt_ids ix role_codes []
               {| tw := te; cache := existing_witnesses ix; tally := stats_init |}
               lines.

(** *** The whole run *)

(** The four tables of the TMG project. *)
Record database := {
  tbl_persons : list p_rec;      (* $.DBF *)
  tbl_events : list g_rec;       (* G.DBF *)
  tbl_types : list t_rec;        (* T.DBF *)
  tbl_witnesses : list e_rec     (* E.DBF *)
}.

(** The engine of [main] and [inject_roles_mode]: the four passes in
    order. The result is the database as the run leaves it and the
    tallies; [None] when a pass raises. *)
Definition run_engine (lines : list string) (db : database)
  : option (database * stats) :=
  role_usage ← scan_role_usage lines;
  let '(t', evt_ids, role_codes) := update_tmg_structure role_usage (tbl_types db) in
  ix ← load_persons_and_events (tbl_persons db) (tbl_events db)
                               (tbl_witnesses db) lines;
  st ← inject_witnesses evt_ids role_codes ix (tbl_witnesses db) lines;
  Some ({| tbl_persons := tbl_persons db; tbl_events := tbl_events db;
           tbl_types := t'; tbl_witnesses := tw st |},
        tally st).

End Engine.

(** ** The forms in which E.DBF returns a role code *)

(** The Python values under which the table can hand back the role code
    [c]: the int itself, or its decimal numeral, alone ([k = 0]) or padded
    with zeros up to the five characters of the field, with white space
    around it. *)
Inductive role_form (c : Z) : pyval -> Prop :=
| form_int : role_form c (PyInt c)
| form_str (k : nat) (pre post : string) :
    PyStr.all_chars PyStr.is_space pre = true ->
    PyStr.all_chars PyStr.is_space post = true ->
    (k = 0%nat \/ (k + String.length (PyStr.str_of_int c) <= 5)%nat) ->
    role_form c (PyStr (pre +:+ PyStr.repeat_char "0" k +:+ PyStr.str_of_int c +:+ post)).

(** The row [r] as a later run reads it when the table returns [v] for its
    role. *)
Definition reread (v : pyval) (r : e_rec) : e_rec :=
  {| EPER := EPER r; GNUM := GNUM r; DSID := DSID r; SEQUENCE := SEQUENCE r;
     PRIMARY := PRIMARY r; ROLE := v; WITMEMO := WITMEMO r |}.

(** ** Vocabulary of the statements *)

(** [role_codes.get(eid, {}).get(role_norm, {}).get(v)]: the code that the
    Synchronizer's output holds for a role of an event type in a variant. *)
Definition code_of (role_codes : gmap Z (gmap string role_pair)) (eid : Z)
           (role_norm : string) (v : variant) : option Z :=
  pair_get v (default pair_empty (default ∅ (role_codes !! eid) !! role_norm)).

(** [c] is the code of the variant [v] of some role of the event type. *)
Definition variant_code (role_codes : gmap Z (gmap string role_pair)) (eid : Z)
           (v : variant) (c : Z) : Prop :=
  exists role_norm, code_of role_codes eid role_norm v = Some c.

(** The usage flag of a role that asks for the variant [v]. *)
Definition used_as (v : variant) (d : role_data) : bool :=
  match v with NORMAL => normal d | PRINCIPAL => principal d end.

(** The English label under which the variant [v] of a role is looked up
    in the grammar and created in it. *)
Definition label_of (v : variant) (d : role_data) : string :=
  match v with NORMAL => eng d | PRINCIPAL => "Principal " +:+ eng d end.

(** The entry of [roles_to_create] for the variant [v] of a role. *)
Definition entry_of (v : variant) (r : string * role_data) : new_role :=
  {| nr_eng := label_of v r.2;
     nr_fra := match v with
               | NORMAL => fra r.2
               | PRINCIPAL => "Principal " +:+ fra r.2
               end;
     nr_key := r.1; nr_type := v |}.

(** The entries that one role adds to [roles_to_create], given the labels
    found in the grammar: one for each variant that is used and whose label
    is not there. *)
Definition created_by (g : globals) (existing_roles : gmap string Z)
           (r : string * role_data) : list new_role :=
  (if used_as NORMAL r.2
   then match existing_roles !! normalize g (label_of NORMAL r.2) with
        | Some _ => []
        | None => [entry_of NORMAL r]
        end
   else [])
  ++ (if used_as PRINCIPAL r.2
      then match existing_roles !! normalize g (label_of PRINCIPAL r.2) with
           | Some _ => []
           | None => [entry_of PRINCIPAL r]
           end
      else []).

(** The text of one entry of the label section, as the allocation loop
    writes it. *)
Definition label_entry (id : Z) (nr : new_role) : string :=
  CR +:+ "[RL=" +:+ PyStr.format_05d id +:+ "]"
     +:+ "[L=ENGLISH]" +:+ nr_eng nr +:+ "[L=FRENCH]" +:+ nr_fra nr.

(** The text that the allocation loop adds for the entries [l] when the
    last code in use is [id]. *)
Fixpoint entries_text (id : Z) (l : list new_role) : string :=
  match l with
  | [] => ""
  | nr :: l' => label_entry (id + 1) nr +:+ entries_text (id + 1) l'
  end.

(** The witness references of a list of events: owner, event-type key and
    _SHAR entry. *)
Definition references (evs : list (string * string * list shar))
  : list (string * string * shar) :=
  evs ≫= (fun ev => (fun sh => (ev.1.1, ev.1.2, sh)) <$> ev.2).

(** The entry of the role of [sh] after the analysis of this reference,
    from the table before it: the entry of the role, or a fresh one, with
    the event added and the flag of the reference raised. *)
Definition touched (g : globals) (owner_id event_name_norm : string) (sh : shar)
           (ru : list (string * role_data)) : role_data :=
  let role_norm := normalize g (shar_role sh) in
  let d := default
             {| normal := false; principal := false;
                eng := ri_eng (role_info_of g role_norm (shar_role sh));
                fra := ri_fra (role_info_of g role_norm (shar_role sh));
                events := ∅ |}
             (ru_lookup role_norm ru) in
  {| normal := normal d || negb (String.eqb (shar_id sh) owner_id);
     principal := principal d || String.eqb (shar_id sh) owner_id;
     eng := eng d; fra := fra d;
     events := events d ∪ {[ event_name_norm ]} |}.

(** The role_usage table after the analysis of the events [evs] in order,
    each given by its owner, its event-type key and its _SHAR entries. *)
Definition classify (g : globals) (evs : list (string * string * list shar))
  : list (string * role_data) :=
  foldl (fun ru ev => _analyze_role_usage g ev.1.1 ev.1.2 ev.2 ru) [] evs.

(** [m] is the maximum of 0 and of the codes of the list. *)
Definition is_max_code (codes : list Z) (m : Z) : Prop :=
  (forall c, c ∈ codes -> c <= m) /\ (m = 0 \/ m ∈ codes).

(** [m] is the maximum of 0 and of the sequence numbers of the rows of the
    event [gnum]. *)
Definition is_max_seq (gnum : Z) (tw : list e_rec) (m : Z) : Prop :=
  (forall row, row ∈ tw -> GNUM row = gnum -> SEQUENCE row <= m)
  /\ (m = 0 \/ exists row, row ∈ tw /\ GNUM row = gnum /\ SEQUENCE row = m).

(** [tw'] is [tw] followed by rows each of which has, as sequence number,
    one more than the maximum over the rows of its event that precede it. *)
Inductive seq_extension : list e_rec -> list e_rec -> Prop :=
| seq_ext_refl (tw : list e_rec) : seq_extension tw tw
| seq_ext_snoc (tw tw' : list e_rec) (r : e_rec) (m : Z) :
    seq_extension tw tw' ->
    is_max_seq (GNUM r) tw' m ->
    SEQUENCE r = m + 1 ->
    seq_extension tw (tw' ++ [r]).

(** The stored year of [cand] does not rule it out for the interchange
    year [y_ged]: when both years are there and the stored one is not 0000,
    they are equal. *)
Definition accepts (y_ged : option string) (cand : evt_data) : Prop :=
  forall yg yt, y_ged = Some yg -> extract_year_tmg (ev_edate cand) = Some yt ->
                yt <> "0000" -> yt = yg.

(** * Scenarios *)

(** On text that is plain ASCII [unidecode] returns its argument; the
    scenarios below use such text only. *)
Definition unidecode_ascii (s : string) : string := s.

Definition mk_globals (events : gmap string string)
           (roles : gmap string role_info) (dry_run : bool) : globals :=
  {| unidecode := unidecode_ascii; EVENT_MAPPING := events;
     ROLES_DB := roles; DRY_RUN := dry_run |}.

Definition person (n : Z) (ref : string) : p_rec :=
  {| per_no := n; reference := ref; p_dsid := 1 |}.

Definition event_type (n : Z) (name : string) : t_rec :=
  {| etypename := name; etypenum := n; tsentence := "";
     prinrole := false; witrole := false |}.

(** Scenario A of the specification: two references with role Buyer on a
    Marriage, one by a third party and one by the owner of the event. *)
Module ScenarioA.

Definition g : globals := mk_globals {[ "MARR" := "Marriage" ]} ∅ false.

Definition gedcom : list string :=
  ["0 @I1@ INDI"; "1 REFN 101"; "1 MARR"; "2 DATE 12 JUN 1750";
   "2 _SHAR @I2@"; "3 ROLE Buyer"; "2 _SHAR @I1@"; "3 ROLE Buyer";
   "0 @I2@ INDI"; "1 REFN 102"].

Definition db : database :=
  {| tbl_persons := [person 1 "101"; person 2 "102"];
     tbl_events := [{| recno := 10; etype := 3; edate := "117500612";
                       per1 := 1; per2 := 0 |}];
     tbl_types := [event_type 3 "Marriage"];
     tbl_witnesses := [] |}.

(** The grammar of Marriage after the run. *)
Definition grammar : string :=
  CR +:+ "[LABELS:]" +:+ CR
     +:+ CR +:+ "[RL=00001][L=ENGLISH]Buyer[L=FRENCH]Buyer"
     +:+ CR +:+ "[RL=00002][L=ENGLISH]Principal Buyer[L=FRENCH]Principal Buyer"
     +:+ CR +:+ "[:LABELS]".

Definition row1 : e_rec :=
  {| EPER := 2; GNUM := 10; DSID := 1; SEQUENCE := 1; PRIMARY := false;
     ROLE := PyStr "00001"; WITMEMO := "" |}.

Definition row2 : e_rec :=
  {| EPER := 1; GNUM := 10; DSID := 1; SEQUENCE := 2; PRIMARY := true;
     ROLE := PyStr "00002"; WITMEMO := "" |}.

Definition db' : database :=
  {| tbl_persons := tbl_persons db; tbl_events := tbl_events db;
     tbl_types := [{| etypename := "Marriage"; etypenum := 3;
                      tsentence := grammar; prinrole := true; witrole := true |}];
     tbl_witnesses := [row1; row2] |}.

(** The results of the second and of the third pass. *)
Definition evt_ids : gmap string Z := {[ "MARRIAGE" := 3 ]}.

Definition role_codes : gmap Z (gmap string role_pair) :=
  {[ 3 := {[ "BUYER" := {| pair_normal := Some 1; pair_principal := Some 2 |} ]} ]}.

Definition ix : indexes :=
  {| ged_to_perno := <[ "I2" := 2 ]> {[ "I1" := 1 ]};
     ix_dsid := 1;
     events_index :=
       {[ (1, 3) := [{| ev_recno := 10; ev_edate := "117500612";
                        ev_per1 := 1; ev_per2 := 0 |}] ]};
     existing_witnesses := ∅ |}.

Definition key1 : wit_key := (10, 2, "00001", false).
Definition key2 : wit_key := (10, 1, "00002", true).

(** The state in which the injection pass ends. *)
Definition final : inj_state :=
  {| tw := [row1; row2]; cache := {[ key1 ]} ∪ {[ key2 ]};
     tally := {| n_ok := 1; n_principal := 1; n_skip := 0; n_error := 0 |} |}.

End ScenarioA.

(** Two interchange roles that the mapping sends to the same TMG label. *)
Module SharedLabel.

Definition buyer : role_info := {| ri_eng := "Buyer"; ri_fra := "Acheteur" |}.

Definition g : globals :=
  mk_globals {[ "BIRT" := "Birth" ]}
             (<[ "ACHETEUR" := buyer ]> {[ "BUYER" := buyer ]}) false.

Definition gedcom : list string :=
  ["0 @I1@ INDI"; "1 REFN 101"; "1 BIRT"; "2 DATE 1 JAN 1750";
   "2 _SHAR @I2@"; "3 ROLE Buyer"; "2 _SHAR @I3@"; "3 ROLE Acheteur";
   "0 @I2@ INDI"; "1 REFN 102"; "0 @I3@ INDI"; "1 REFN 103"].

Definition db : database :=
  {| tbl_persons := [person 1 "101"; person 2 "102"; person 3 "103"];
     tbl_events := [{| recno := 10; etype := 2; edate := "117500101";
                       per1 := 1; per2 := 0 |}];
     tbl_types := [event_type 2 "Birth"];
     tbl_witnesses := [] |}.

Definition grammar : string :=
  CR +:+ "[LABELS:]" +:+ CR
     +:+ CR +:+ "[RL=00001][L=ENGLISH]Buyer[L=FRENCH]Acheteur"
     +:+ CR +:+ "[RL=00002][L=ENGLISH]Buyer[L=FRENCH]Acheteur"
     +:+ CR +:+ "[:LABELS]".

Definition row (eper seq : Z) (role : string) : e_rec :=
  {| EPER := eper; GNUM := 10; DSID := 1; SEQUENCE := seq; PRIMARY := false;
     ROLE := PyStr role; WITMEMO := "" |}.

Definition types' : list t_rec :=
  [{| etypename := "Birth"; etypenum := 2; tsentence := grammar;
      prinrole := false; witrole := true |}].

(** The database after the first run. *)
Definition db1 : database :=
  {| tbl_persons := tbl_persons db; tbl_events := tbl_events db;
     tbl_types := types';
     tbl_witnesses := [row 2 1 "00001"; row 3 2 "00002"] |}.

(** The database after the second run. *)
Definition db2 : database :=
  {| tbl_persons := tbl_persons db; tbl_events := tbl_events db;
     tbl_types := types';
     tbl_witnesses := [row 2 1 "00001"; row 3 2 "00002"; row 2 3 "00002"] |}.

End SharedLabel.

(** A standard event tag with a nested TYPE line. *)
Module TypedBirth.

Definition g : globals := mk_globals {[ "BIRT" := "Birth" ]} ∅ false.

Definition gedcom : list string :=
  ["0 @I1@ INDI"; "1 REFN 101"; "1 BIRT"; "2 TYPE Adoption";
   "2 DATE 1 JAN 1750"; "2 _SHAR @I2@"; "3 ROLE Godfather";
   "0 @I2@ INDI"; "1 REFN 102"].

Definition db : database :=
  {| tbl_persons := [person 1 "101"; person 2 "102"];
     tbl_events := [{| recno := 10; etype := 2; edate := "117500101";
                       per1 := 1; per2 := 0 |}];
     tbl_types := [event_type 2 "Birth"];
     tbl_witnesses := [] |}.

Definition db' : database :=
  {| tbl_persons := tbl_persons db; tbl_events := tbl_events db;
     tbl_types := tbl_types db;
     tbl_witnesses :=
       [{| EPER := 2; GNUM := 10; DSID := 1; SEQUENCE := 1; PRIMARY := false;
           ROLE := PyStr "00002"; WITMEMO := "[Godfather] " |}] |}.

(** The block of the individual I1, up to the witness of its event. *)
Definition block : list string :=
  ["0 @I1@ INDI"; "1 REFN 101"; "1 BIRT"; "2 TYPE Adoption";
   "2 DATE 1 JAN 1750"; "2 _SHAR @I2@"; "3 ROLE Godfather"].

Definition evt_ids : gmap string Z := {[ "BIRTH" := 2 ]}.

Definition ix : indexes :=
  {| ged_to_perno := <[ "I2" := 2 ]> {[ "I1" := 1 ]};
     ix_dsid := 1;
     events_index :=
       {[ (1, 2) := [{| ev_recno := 10; ev_edate := "117500101";
                        ev_per1 := 1; ev_per2 := 0 |}] ]};
     existing_witnesses := ∅ |}.

Definition start : inj_state :=
  {| tw := []; cache := ∅;
     tally := {| n_ok := 0; n_principal := 0; n_skip := 0; n_error := 0 |} |}.

End TypedBirth.

(** The second participant of an event declared as its witness. *)
Module Spouse.

Definition g : globals := mk_globals {[ "MARR" := "Marriage" ]} ∅ false.

Definition gedcom : list string :=
  ["0 @I1@ INDI"; "1 REFN 101"; "1 MARR"; "2 DATE 12 JUN 1750";
   "2 _SHAR @I2@"; "3 ROLE Bride";
   "0 @I2@ INDI"; "1 REFN 102"].

Definition db : database :=
  {| tbl_persons := [person 1 "101"; person 2 "102"];
     tbl_events := [{| recno := 10; etype := 3; edate := "117500612";
                       per1 := 1; per2 := 2 |}];
     tbl_types := [event_type 3 "Marriage"];
     tbl_witnesses := [] |}.

Definition grammar : string :=
  CR +:+ "[LABELS:]" +:+ CR
     +:+ CR +:+ "[RL=00001][L=ENGLISH]Bride[L=FRENCH]Bride"
     +:+ CR +:+ "[:LABELS]".

Definition row : e_rec :=
  {| EPER := 2; GNUM := 10; DSID := 1; SEQUENCE := 1; PRIMARY := true;
     ROLE := PyStr "00002"; WITMEMO := "[Bride] " |}.

(** The output of the Synchronizer in this scenario. *)
Definition role_codes : gmap Z (gmap string role_pair) :=
  {[ 3 := {[ "BRIDE" := {| pair_normal := Some 1; pair_principal := None |} ]} ]}.

(** Scenario D of the specification: the same file against an event
    stored under the year 1751. *)
Definition db_1751 : database :=
  {| tbl_persons := tbl_persons db;
     tbl_events := [{| recno := 10; etype := 3; edate := "117510612";
                       per1 := 1; per2 := 0 |}];
     tbl_types := tbl_types db;
     tbl_witnesses := [] |}.

Definition stored_1751 : evt_data :=
  {| ev_recno := 10; ev_edate := "117510612"; ev_per1 := 1; ev_per2 := 0 |}.

Definition ix_1751 : indexes :=
  {| ged_to_perno := <[ "I2" := 2 ]> {[ "I1" := 1 ]};
     ix_dsid := 1;
     events_index := {[ (1, 3) := [stored_1751] ]};
     existing_witnesses := ∅ |}.

(** The event of the file as the injection pass holds it at the end of
    its block. *)
Definition ctx : evt_ctx :=
  {| ctx_tag := Some "MARR"; ctx_eid := Some 3;
     ctx_date := Some "12 JUN 1750";
     ctx_witnesses :=
       [{| wit_ged := "I2"; wit_role := "Bride"; wit_note := "" |}] |}.

Definition start : inj_state :=
  {| tw := []; cache := ∅;
     tally := {| n_ok := 0; n_principal := 0; n_skip := 0; n_error := 0 |} |}.

End Spouse.

(** A role with no code of its own beside a WITNESS role that has one. *)
Module WitnessFallback.

Definition g : globals := mk_globals ∅ ∅ false.

Definition role_codes : gmap Z (gmap string role_pair) :=
  {[ 3 := {[ "WITNESS" := {| pair_normal := Some 7; pair_principal := None |} ]} ]}.

Definition reference : wit :=
  {| wit_ged := "I2"; wit_role := "Buyer"; wit_note := "paid in cash" |}.

Definition row : e_rec :=
  {| EPER := 2; GNUM := 10; DSID := 1; SEQUENCE := 1; PRIMARY := false;
     ROLE := PyStr "00007"; WITMEMO := "[Buyer] paid in cash" |}.

End WitnessFallback.

(** A grammar that holds two codes, and a table of usage with a role whose
    label is in the grammar and a role that is new. *)
Module Reuse.

Definition g : globals := mk_globals ∅ ∅ false.

Definition rec : t_rec :=
  {| etypename := "Marriage"; etypenum := 3;
     tsentence := "[LABELS:]" +:+ CR +:+ "[RL=00001][L=ENGLISH]Principal"
                    +:+ CR +:+ "[RL=00002][L=ENGLISH]Witness[L=FRENCH]Temoin"
                    +:+ CR +:+ "[:LABELS]";
     prinrole := true; witrole := true |}.

Definition witness_role : string * role_data :=
  ("WITNESS", {| normal := true; principal := false; eng := "Witness";
                 fra := "Temoin"; events := {[ "MARRIAGE" ]} |}).

Definition buyer_role : string * role_data :=
  ("BUYER", {| normal := true; principal := true; eng := "Buyer";
               fra := "Acheteur"; events := {[ "MARRIAGE" ]} |}).

Definition ru : list (string * role_data) := [witness_role; buyer_role].

End Reuse.

(** A role used by the owner of a Birth and by a third party on a
    Marriage. *)
Module TwoEvents.

Definition g : globals := mk_globals ∅ ∅ false.

Definition evs : list (string * string * list shar) :=
  [("I1", "BIRTH", [{| shar_id := "I1"; shar_role := "Buyer" |}]);
   ("I1", "MARRIAGE", [{| shar_id := "I2"; shar_role := "Buyer" |}])].

Definition marriage : t_rec := event_type 3 "Marriage".

Definition t : list t_rec := [event_type 2 "Birth"; marriage].

End TwoEvents.

(** A role whose text holds an opening bracket. *)
Module BracketLabel.

Definition g : globals := mk_globals {[ "MARR" := "Marriage" ]} ∅ false.

Definition gedcom : list string :=
  ["0 @I1@ INDI"; "1 REFN 101"; "1 MARR"; "2 DATE 12 JUN 1750";
   "2 _SHAR @I2@"; "3 ROLE Buyer [old]";
   "0 @I2@ INDI"; "1 REFN 102"].

Definition db : database :=
  {| tbl_persons := [person 1 "101"; person 2 "102"];
     tbl_events := [{| recno := 10; etype := 3; edate := "117500612";
                       per1 := 1; per2 := 0 |}];
     tbl_types := [event_type 3 "Marriage"];
     tbl_witnesses := [] |}.

(** The table of usage of the file. *)
Definition ru : list (string * role_data) :=
  [("BUYER [OLD]",
    {| normal := true; principal := false; eng := "Buyer [Old]";
       fra := "Buyer [Old]"; events := {[ "MARRIAGE" ]} |})].

(** The entry that a run writes under the code [code]. *)
Definition entry (code : string) : string :=
  CR +:+ "[RL=" +:+ code +:+ "][L=ENGLISH]Buyer [Old][L=FRENCH]Buyer [Old]".

(** The grammar of Marriage after the first, the second and the third
    run. *)
Definition grammar1 : string :=
  CR +:+ "[LABELS:]" +:+ CR +:+ entry "00001" +:+ CR +:+ "[:LABELS]".

Definition grammar2 : string :=
  "[LABELS:]" +:+ CR +:+ entry "00001" +:+ CR +:+ entry "00002"
    +:+ CR +:+ "[:LABELS]".

Definition grammar3 : string :=
  "[LABELS:]" +:+ CR +:+ entry "00001" +:+ CR +:+ entry "00002"
    +:+ CR +:+ entry "00003" +:+ CR +:+ "[:LABELS]".

Definition marriage (grammar : string) : t_rec :=
  {| etypename := "Marriage"; etypenum := 3; tsentence := grammar;
     prinrole := false; witrole := true |}.

Definition evt_ids : gmap string Z := {[ "MARRIAGE" := 3 ]}.

(** The codes returned by a run that gives the role the code [c]. *)
Definition role_codes (c : Z) : gmap Z (gmap string role_pair) :=
  {[ 3 := {[ "BUYER [OLD]" := {| pair_normal := Some c; pair_principal := None |} ]} ]}.

Definition row (seq : Z) (role : string) : e_rec :=
  {| EPER := 2; GNUM := 10; DSID := 1; SEQUENCE := seq; PRIMARY := false;
     ROLE := PyStr role; WITMEMO := "" |}.

(** The database after the first and after the second run. *)
Definition db1 : database :=
  {| tbl_persons := tbl_persons db; tbl_events := tbl_events db;
     tbl_types := [marriage grammar1];
     tbl_witnesses := [row 1 "00001"] |}.

Definition db2 : database :=
  {| tbl_persons := tbl_persons db; tbl_events := tbl_events db;
     tbl_types := [marriage grammar2];
     tbl_witnesses := [row 1 "00001"; row 2 "00002"] |}.

End BracketLabel.

(** ** Vocabulary of the further properties *)

(** Text of code points below 128, which [unidecode] returns and leaves as
    it is. *)
Definition is_ascii_string (s : string) : bool :=
  PyStr.all_chars (fun c => (PyStr.code c <? 128)%N) s.

(** An ASCII character that [upper] leaves as it is. *)
Definition fixed_char (c : ascii) : bool :=
  (PyStr.code c <? 128)%N && String.eqb (PyStr.upper_char c) (String c "").

(** The globals after the assignment [DRY_RUN = b]. *)
Definition with_dry_run (b : bool) (g : globals) : globals :=
  {| unidecode := unidecode g; EVENT_MAPPING := EVENT_MAPPING g;
     ROLES_DB := ROLES_DB g; DRY_RUN := b |}.

(** The key of a row of T.DBF: [normalize(rec.etypename.strip())]. *)
Definition type_key (g : globals) (rec : t_rec) : string :=
  normalize g (PyStr.strip (etypename rec)).

(** What holds of every entry of role_usage: a flag is raised, an event is
    recorded, the key is the normalization of a role text and the labels
    are those of that text. *)
Definition role_entry_ok (g : globals) (kd : string * role_data) : Prop :=
  normal kd.2 || principal kd.2 = true
  /\ events kd.2 <> ∅
  /\ exists raw, kd.1 = normalize g raw
                 /\ eng kd.2 = ri_eng (role_info_of g kd.1 raw)
                 /\ fra kd.2 = ri_fra (role_info_of g kd.1 raw).

(** A row of T.DBF before and after the Synchronizer. *)
Definition row_synced (g : globals) (ru : list (string * role_data))
           (rec rec' : t_rec) : Prop :=
  etypename rec' = etypename rec
  /\ etypenum rec' = etypenum rec
  /\ (prinrole rec = true -> prinrole rec' = true)
  /\ (witrole rec = true -> witrole rec' = true)
  /\ (DRY_RUN g = true -> rec' = rec)
  /\ (roles_for_this_event (type_key g rec) ru = [] -> rec' = rec)
  /\ (DRY_RUN g = false ->
      forall r, r ∈ roles_for_this_event (type_key g rec) ru ->
                (principal r.2 = true -> prinrole rec' = true)
                /\ (normal r.2 = true -> witrole rec' = true)).

(** The invariant of the role_usage table during the scan. *)
Definition usage_inv (g : globals) (ru : list (string * role_data)) : Prop :=
  NoDup ru.*1 /\ forall kd, kd ∈ ru -> role_entry_ok g kd.

(** The dict that [load_persons_and_events] stores for a row of G.DBF. *)
Definition evt_of (r : g_rec) : evt_data :=
  {| ev_recno := recno r; ev_edate := edate r;
     ev_per1 := per1 r; ev_per2 := per2 r |}.

(** What a row of G.DBF adds to the list indexed under a person and an
    event type: one entry when the person is its first participant, and one
    when the person is its second participant. *)
Definition indexed_under (key : Z * Z) (r : g_rec) : list evt_data :=
  (if bool_decide (0 < per1 r /\ (per1 r, etype r) = key) then [evt_of r] else [])
  ++ (if bool_decide (0 < per2 r /\ (per2 r, etype r) = key) then [evt_of r] else []).

(** Two optional results that are both there and related, or both
    missing. *)
Definition opt_rel {A B : Type} (R : A -> B -> Prop) (o1 : option A) (o2 : option B)
  : Prop :=
  match o1, o2 with
  | Some a, Some b => R a b
  | None, None => True
  | _, _ => False
  end.

(** [stats['error'] += n], the table and the cache being left alone. *)
Definition count_errors (n : Z) (st : inj_state) : inj_state :=
  {| tw := tw st; cache := cache st; tally := bump Error n (tally st) |}.

(** The event in progress of [process_events] after a line: the part of
    [event_line] that does not depend on the tables. *)
Definition next_ctx (g : globals) (evt_ids : gmap string Z) (cur : evt_ctx)
           (lvl : Z) (tag val : string) : evt_ctx :=
  if lvl =? 1 then
    let norm_tag := normalize g (default tag (EVENT_MAPPING g !! normalize g tag)) in
    let eid := evt_ids !! norm_tag in
    let eid :=
      if negb (truthy_int eid) && mem tag ["FACT"; "EVEN"; "OCCU"]
         && negb (PyStr.is_empty val)
      then
        let target := default (normalize g val) (EVENT_MAPPING g !! normalize g val) in
        evt_ids !! normalize g target
      else eid in
    {| ctx_tag := Some tag; ctx_eid := eid; ctx_date := None; ctx_witnesses := [] |}
  else if lvl =? 2 then
    if String.eqb tag "DATE" then
      {| ctx_tag := ctx_tag cur; ctx_eid := ctx_eid cur;
         ctx_date := Some (PyStr.strip val);
         ctx_witnesses := ctx_witnesses cur |}
    else if String.eqb tag "TYPE"
            && match ctx_tag cur with
               | Some t => mem t TYPED_TAGS
               | None => false
               end then
      let target := default (normalize g val) (EVENT_MAPPING g !! normalize g val) in
      let eid := evt_ids !! normalize g target in
      if truthy_int eid
      then {| ctx_tag := ctx_tag cur; ctx_eid := eid; ctx_date := ctx_date cur;
              ctx_witnesses := ctx_witnesses cur |}
      else cur
    else if String.eqb tag "_SHAR" then
      {| ctx_tag := ctx_tag cur; ctx_eid := ctx_eid cur; ctx_date := ctx_date cur;
         ctx_witnesses :=
           ctx_witnesses cur ++
             [{| wit_ged := PyStr.strip_at val; wit_role := "Witness";
                 wit_note := "" |}] |}
    else cur
  else if (lvl =? 3) && negb (is_nil (ctx_witnesses cur)) then
    if String.eqb tag "ROLE" then
      {| ctx_tag := ctx_tag cur; ctx_eid := ctx_eid cur; ctx_date := ctx_date cur;
         ctx_witnesses :=
           alter_last (fun w => {| wit_ged := wit_ged w;
                                   wit_role := PyStr.strip val;
                                   wit_note := wit_note w |})
                      (ctx_witnesses cur) |}
    else if String.eqb tag "NOTE" then
      {| ctx_tag := ctx_tag cur; ctx_eid := ctx_eid cur; ctx_date := ctx_date cur;
         ctx_witnesses :=
           alter_last (fun w => {| wit_ged := wit_ged w; wit_role := wit_role w;
                                   wit_note := wit_note w +:+ " " +:+ PyStr.strip val |})
                      (ctx_witnesses cur) |}
    else cur
  else cur.

(** The anti-duplicate key that [insert_single_witness] computes for a
    reference; [None] when the witness is not resolved. *)
Definition reference_key (g : globals) (rc : gmap Z (gmap string role_pair))
           (eid gnum : Z) (g2p : gmap string Z) (p1 p2 : Z) (w : wit)
  : option wit_key :=
  match g2p !! wit_ged w with
  | Some wper =>
      if wper =? 0 then None
      else
        let is_self := is_self_witness wper p1 p2 in
        let cm := select_role g rc eid is_self (wit_role w) (wit_note w) in
        Some (gnum, wper, normalize_role_id (PyStr (PyStr.format_05d cm.1)), is_self)
  | None => None
  end.

(** The row that [insert_single_witness] appends for a resolved reference. *)
Definition reference_row (g : globals) (rc : gmap Z (gmap string role_pair))
           (eid gnum : Z) (g2p : gmap string Z) (dsid p1 p2 : Z)
           (tw : list e_rec) (w : wit) : e_rec :=
  let wper := default 0 (g2p !! wit_ged w) in
  let is_self := is_self_witness wper p1 p2 in
  let cm := select_role g rc eid is_self (wit_role w) (wit_note w) in
  {| EPER := wper; GNUM := gnum; DSID := dsid;
     SEQUENCE := next_sequence g gnum tw; PRIMARY := is_self;
     ROLE := PyStr (PyStr.format_05d cm.1);
     WITMEMO := PyStr.take 60000 cm.2 |}.

(** Two states of the loop of [process_events] with the same event in
    progress and related tables. *)
Definition acc_rel (R : inj_state -> inj_state -> Prop)
           (a1 a2 : evt_ctx * inj_state) : Prop :=
  a1.1 = a2.1 /\ R a1.2 a2.2.

(** What holds of a row that the injection pass adds, with respect to the
    indexes it works with: the data set id of the index, a person that an
    individual of the file resolves to, an event of the candidate index, a
    role written as a formatted code, and a memo within the field. *)
Definition row_from (ix : indexes) (r : e_rec) : Prop :=
  DSID r = ix_dsid ix
  /\ EPER r <> 0 /\ GNUM r <> 0
  /\ (exists gid, ged_to_perno ix !! gid = Some (EPER r))
  /\ (exists pper eid cands c, events_index ix !! (pper, eid) = Some cands
                               /\ c ∈ cands /\ ev_recno c = GNUM r)
  /\ (exists code, ROLE r = PyStr (PyStr.format_05d code))
  /\ Z.of_nat (String.length (WITMEMO r)) <= 60000.

(** The invariant of the injection pass outside the simulation mode, for
    the table [te] and the index [ix] it starts from. *)
Definition injected_inv (ix : indexes) (te : list e_rec) (st : inj_state) : Prop :=
  exists added,
    tw st = te ++ added
    /\ cache st = existing_witnesses ix ∪ list_to_set (key_of_row <$> added)
    /\ NoDup (key_of_row <$> added)
    /\ (forall r, r ∈ added ->
                   (key_of_row r ∉ existing_witnesses ix) /\ row_from ix r)
    /\ n_ok (tally st) + n_principal (tally st) = Z.of_nat (length added).

(** The tallies of a second pass in which every reference that the first
    pass injected or skipped is skipped. *)
Definition all_skipped (s : stats) : stats :=
  {| n_ok := 0; n_principal := 0;
     n_skip := n_ok s + n_principal s + n_skip s; n_error := n_error s |}.

(** Every code of a role_codes table is a natural number. *)
Definition codes_nonneg (rc : gmap Z (gmap string role_pair)) : Prop :=
  forall e k v c, code_of rc e k v = Some c -> 0 <= c.

(** ** The mapping file *)

(** The value that [json.load] returns, over the numbers of the JSON
    library and their truth value; an object is the list of its items, in
    order, each key once. *)
Section Mapping.

Variable num : Type.
Variable num_truthy : num -> bool.

#[local] Unset Elimination Schemes.

Inductive json : Type :=
| JNull
| JBool (b : bool)
| JNum (n : num)
| JStr (s : string)
| JArr (l : list json)
| JObj (items : list (string * json)).

#[local] Set Elimination Schemes.

(** Truth value of a JSON value. *)
Definition json_truthy (v : json) : bool :=
  match v with
  | JNull => false
  | JBool b => b
  | JNum n => num_truthy n
  | JStr s => negb (PyStr.is_empty s)
  | JArr l => negb (is_nil l)
  | JObj l => negb (is_nil l)
  end.

(** [d.get(k)] on the items of a dict. *)
Definition obj_get (k : string) (items : list (string * json)) : option json :=
  snd <$> List.find (fun kv => String.eqb kv.1 k) items.

(** [v.items()], and [v.get]: [None] stands for the AttributeError of a
    value that is not a dict. *)
Definition items_of (v : json) : option (list (string * json)) :=
  match v with
  | JObj l => Some l
  | _ => None
  end.

(** [data.get(name, {}).items()] *)
Definition section_items (name : string) (data : json)
  : option (list (string * json)) :=
  top ← items_of data;
  match obj_get name top with
  | None => Some []
  | Some v => items_of v
  end.

(** A value of ROLES. *)
Record jrole := { jeng : json; jfra : json }.

(** The value stored for an entry that is a dict, when it has one:
    [v['tmg_name']] under the guard [v.get('tmg_name')]. *)
Definition event_value (items : list (string * json)) : option json :=
  let name := default JNull (obj_get "tmg_name" items) in
  if json_truthy name then Some name else None.

(** [{'eng': v['eng'], 'fra': v.get('fra', v['eng'])}] under the guard
    [v.get('eng')]. *)
Definition role_value (items : list (string * json)) : option jrole :=
  let e := default JNull (obj_get "eng" items) in
  if json_truthy e
  then Some {| jeng := e; jfra := default e (obj_get "fra" items) |}
  else None.

(** Body of the first loop of [load_mapping]. *)
Definition event_entry (g : globals) (acc : option (gmap string json))
           (kv : string * json) : option (gmap string json) :=
  m ← acc;
  items ← items_of kv.2;
  Some (match event_value items with
        | Some name => <[normalize g kv.1 := name]> m
        | None => m
        end).

(** Body of the second loop of [load_mapping]. *)
Definition role_entry (g : globals) (acc : option (gmap string jrole))
           (kv : string * json) : option (gmap string jrole) :=
  m ← acc;
  items ← items_of kv.2;
  Some (match role_value items with
        | Some r => <[normalize g kv.1 := r]> m
        | None => m
        end).

(** [load_mapping] on the content of mapping.json: EVENTS and ROLES. *)
Definition load_mapping (g : globals) (data : json)
  : option (gmap string json * gmap string jrole) :=
  evs ← section_items "events" data;
  EVENTS ← foldl (event_entry g) (Some ∅) evs;
  rls ← section_items "roles" data;
  ROLES ← foldl (role_entry g) (Some ∅) rls;
  Some (EVENTS, ROLES).

(** The two loops of [inject_roles_mode], which take a plain string for
    an entry as well and pass over a value of another type. *)
Definition mode_event_entry (g : globals) (m : gmap string json)
           (kv : string * json) : gmap string json :=
  match kv.2 with
  | JObj items =>
      match event_value items with
      | Some name => <[normalize g kv.1 := name]> m
      | None => m
      end
  | JStr s => <[normalize g kv.1 := JStr s]> m
  | _ => m
  end.

Definition mode_role_entry (g : globals) (m : gmap string jrole)
           (kv : string * json) : gmap string jrole :=
  match kv.2 with
  | JObj items =>
      match role_value items with
      | Some r => <[normalize g kv.1 := r]> m
      | None => m
      end
  | JStr s => <[normalize g kv.1 := {| jeng := JStr s; jfra := JStr s |}]> m
  | _ => m
  end.

(** EVENT_MAPPING and ROLES_DB as [inject_roles_mode] loads them; [None]
    when the loading raises. *)
Definition mode_load_mapping (g : globals) (data : json)
  : option (gmap string json * gmap string jrole) :=
  evs ← section_items "events" data;
  rls ← section_items "roles" data;
  Some (foldl (mode_event_entry g) ∅ evs, foldl (mode_role_entry g) ∅ rls).

End Mapping.

Arguments JNull {num}.
Arguments JBool {num} b.
Arguments JNum {num} n.
Arguments JStr {num} s.
Arguments JArr {num} l.
Arguments JObj {num} items.
Arguments obj_get {num} k items.
Arguments items_of {num} v.
Arguments section_items {num} name data.
Arguments jeng {num} j.
Arguments jfra {num} j.

(** A mapping file with one role whose French label is empty, over
    integer numbers. *)
Module MappingFile.

Definition nonzero (z : Z) : bool := negb (z =? 0).

Definition buyer : list (string * json Z) :=
  [("eng", JStr "Buyer"); ("fra", JStr "")].

Definition data : json Z :=
  JObj [("events", JObj [("MARR", JObj [("tmg_name", JStr "Marriage")])]);
        ("roles", JObj [("Buyer", JObj buyer)])].

Definition events : gmap string (json Z) := {[ "MARR" := JStr "Marriage" ]}.

Definition roles : gmap string (jrole Z) :=
  {[ "BUYER" := {| jeng := JStr "Buyer"; jfra := JStr "" |} ]}.

(** The same file with a second role given as a plain string, the empty
    one. *)
Definition data_plain : json Z :=
  JObj [("events", JObj [("MARR", JObj [("tmg_name", JStr "Marriage")])]);
        ("roles", JObj [("Buyer", JObj buyer); ("Seller", JStr "")])].

Definition roles_plain : gmap string (jrole Z) :=
  <[ "SELLER" := {| jeng := JStr ""; jfra := JStr "" |} ]>
    {[ "BUYER" := {| jeng := JStr "Buyer"; jfra := JStr "" |} ]}.

End MappingFile.

(** * Properties *)

(** ** Facts on the string primitives *)

Module PyStrFacts.
Import PyStr.

Lemma str_app_cons c (a b : string) : String c a +:+ b = String c (a +:+ b).
Proof. reflexivity. Qed.

Lemma str_app_empty_l (b : string) : "" +:+ b = b.
Proof. reflexivity. Qed.

Lemma str_length_app (a b : string) :
  String.length (a +:+ b) = (String.length a + String.length b)%nat.
Proof.
  induction a as [|c a IH]; [reflexivity |].
  rewrite str_app_cons. simpl. now rewrite IH.
Qed.

Lemma str_app_empty_r (a : string) : a +:+ "" = a.
Proof. induction a; [reflexivity |]. rewrite str_app_cons. congruence. Qed.

Lemma str_length_repeat_char c n : String.length (repeat_char c n) = n.
Proof. induction n; simpl; congruence. Qed.

Lemma all_chars_app p (a b : string) :
  all_chars p (a +:+ b) = all_chars p a && all_chars p b.
Proof.
  induction a as [|c a IH]; [reflexivity |].
  rewrite str_app_cons. simpl. now rewrite IH, andb_assoc.
Qed.

Lemma all_chars_repeat p c n : p c = true -> all_chars p (repeat_char c n) = true.
Proof. intros H. induction n; simpl; [reflexivity | now rewrite H]. Qed.

Lemma all_chars_impl (p q : ascii -> bool) s :
  (forall c, p c = true -> q c = true) ->
  all_chars p s = true -> all_chars q s = true.
Proof.
  intros Hpq. induction s as [|c s IH]; simpl; [reflexivity |].
  intros [Hc Hs]%andb_prop. rewrite (Hpq _ Hc). now apply IH.
Qed.

(** The decimal numeral of an unsigned number consists of decimal digits. *)
Lemma all_dec_string_of_uint d :
  all_chars is_dec (NilEmpty.string_of_uint d) = true.
Proof. induction d; simpl; [reflexivity | assumption ..]. Qed.

Lemma string_of_uint_empty d : NilEmpty.string_of_uint d = "" -> d = Decimal.Nil.
Proof. destruct d; simpl; [reflexivity | discriminate ..]. Qed.

Lemma str_of_int_nonneg (c : Z) :
  0 <= c ->
  all_chars is_dec (str_of_int c) = true /\ is_empty (str_of_int c) = false.
Proof.
  intros Hc. unfold str_of_int. destruct c as [|p|p]; [| | lia].
  - split; reflexivity.
  - simpl. unfold NilZero.string_of_uint.
    pose proof (Unsigned.to_uint_nonnil p) as Hnn.
    destruct (Pos.to_uint p) eqn:E; [congruence | ..];
      rewrite <- E; (split; [apply all_dec_string_of_uint |]);
      rewrite E; reflexivity.
Qed.

Lemma is_dec_not_space c : is_dec c = true -> is_space c = false.
Proof.
  unfold is_dec, is_space. intros H.
  apply andb_prop in H as [H1 H2].
  apply N.leb_le in H1, H2.
  repeat match goal with
  | |- context [(?a <=? ?b)%N] => destruct (N.leb_spec a b)
  | |- context [(?a =? ?b)%N] => destruct (N.eqb_spec a b)
  end; simpl; try reflexivity; lia.
Qed.

Lemma is_dec_digit_char c : is_dec c = true -> is_digit_char c = true.
Proof. unfold is_digit_char. now intros ->. Qed.

Lemma is_dec_not_sign c :
  is_dec c = true -> (Ascii.eqb c "+" || Ascii.eqb c "-")%char = false.
Proof.
  intros H.
  destruct (Ascii.eqb_spec c "+"%char) as [->|]; [discriminate H|].
  destruct (Ascii.eqb_spec c "-"%char) as [->|]; [discriminate H|].
  reflexivity.
Qed.

Lemma lstrip_none p s : all_chars (fun c => negb (p c)) s = true -> lstrip_by p s = s.
Proof.
  destruct s as [|c s]; simpl; [reflexivity |].
  intros [Hc _]%andb_prop. apply negb_true_iff in Hc. now rewrite Hc.
Qed.

Lemma rstrip_none p s : all_chars (fun c => negb (p c)) s = true -> rstrip_by p s = s.
Proof.
  induction s as [|c s IH]; simpl; [reflexivity |].
  intros [Hc Hs]%andb_prop. apply negb_true_iff in Hc.
  rewrite (IH Hs), Hc, andb_false_r. reflexivity.
Qed.

(** Stripping a string of decimal digits leaves it as it is. *)
Lemma strip_all_dec s : all_chars is_dec s = true -> strip s = s.
Proof.
  intros H. unfold strip, strip_by.
  assert (Hn : all_chars (fun c => negb (is_space c)) s = true).
  { revert H. apply all_chars_impl. intros c Hc. now rewrite is_dec_not_space. }
  now rewrite lstrip_none, rstrip_none.
Qed.

Lemma isdigit_all_dec s :
  all_chars is_dec s = true -> is_empty s = false -> isdigit s = true.
Proof.
  intros H Hne. unfold isdigit. rewrite Hne. simpl.
  revert H. apply all_chars_impl, is_dec_digit_char.
Qed.

(** Zero filling of an unsigned numeral. *)
Lemma zfill_all_dec w s :
  all_chars is_dec s = true ->
  zfill w s = repeat_char "0" (w - String.length s) +:+ s.
Proof.
  intros H. unfold zfill. destruct s as [|c s]; simpl.
  - now rewrite str_app_empty_r.
  - simpl in H. apply andb_prop in H as [Hc _].
    now rewrite (is_dec_not_sign _ Hc).
Qed.

Lemma zfill_wide w s :
  all_chars is_dec s = true -> (w <= String.length s)%nat -> zfill w s = s.
Proof.
  intros H Hw. rewrite zfill_all_dec by assumption.
  now replace (w - String.length s)%nat with 0%nat by lia.
Qed.

Lemma zfill_spec w s :
  all_chars is_dec s = true ->
  all_chars is_dec (zfill w s) = true /\
  (w <= String.length (zfill w s))%nat /\
  (is_empty s = false -> is_empty (zfill w s) = false).
Proof.
  intros H. rewrite zfill_all_dec by assumption. repeat split.
  - rewrite all_chars_app, H, all_chars_repeat; reflexivity.
  - rewrite str_length_app, str_length_repeat_char. lia.
  - destruct s; [discriminate |]. intros _.
    destruct (w - _)%nat; reflexivity.
Qed.

Lemma repeat_char_add c m n :
  repeat_char c (m + n) = repeat_char c m +:+ repeat_char c n.
Proof. induction m; simpl; [reflexivity |]. rewrite str_app_cons. congruence. Qed.

Lemma str_app_assoc (a b c : string) : (a +:+ b) +:+ c = a +:+ (b +:+ c).
Proof. induction a; [reflexivity |]. rewrite !str_app_cons. congruence. Qed.

(** A numeral padded with [k] zeros, no wider than the field, fills to the
    same five characters as the numeral itself. *)
Lemma zfill_padded k s :
  all_chars is_dec s = true ->
  (k + String.length s <= 5)%nat ->
  zfill 5 (repeat_char "0" k +:+ s) = zfill 5 s.
Proof.
  intros H Hk.
  rewrite !zfill_all_dec.
  - rewrite str_length_app, str_length_repeat_char, <- str_app_assoc, <- repeat_char_add.
    f_equal. f_equal. lia.
  - assumption.
  - rewrite all_chars_app, H, all_chars_repeat; reflexivity.
Qed.

Lemma lstrip_app_l p pre s :
  all_chars p pre = true -> lstrip_by p (pre +:+ s) = lstrip_by p s.
Proof.
  induction pre as [|c pre IH]; [reflexivity |].
  intros H. simpl in H. apply andb_prop in H as [Hc Hp].
  rewrite str_app_cons. simpl. rewrite Hc. auto.
Qed.

Lemma rstrip_all p post : all_chars p post = true -> rstrip_by p post = "".
Proof.
  induction post as [|c post IH]; [reflexivity |].
  simpl. intros [Hc Hp]%andb_prop. now rewrite (IH Hp), Hc.
Qed.

Lemma rstrip_app_r p s post :
  all_chars p post = true -> rstrip_by p (s +:+ post) = rstrip_by p s.
Proof.
  intros Hp. induction s as [|c s IH]; [now apply rstrip_all |].
  rewrite str_app_cons. simpl. now rewrite IH.
Qed.

(** Surrounding white space is stripped from a numeral. *)
Lemma strip_padded pre s post :
  all_chars is_space pre = true -> all_chars is_space post = true ->
  all_chars is_dec s = true ->
  strip (pre +:+ s +:+ post) = s.
Proof.
  intros Hpre Hpost Hs. unfold strip, strip_by.
  rewrite lstrip_app_l by assumption.
  assert (Hn : all_chars (fun c => negb (is_space c)) s = true).
  { revert Hs. apply all_chars_impl. intros c Hc. now rewrite is_dec_not_space. }
  destruct s as [|c s].
  - rewrite str_app_empty_l. 
    assert (lstrip_by is_space post = "") as ->; [|reflexivity].
    clear -Hpost. induction post as [|c post IH]; [reflexivity|].
    simpl in *. apply andb_prop in Hpost as [-> Hp]. auto.
  - rewrite str_app_cons. simpl in Hn |- *. apply andb_prop in Hn as [Hc Hn].
    apply negb_true_iff in Hc. rewrite Hc.
    rewrite <- str_app_cons, rstrip_app_r by assumption.
    apply rstrip_none. simpl. now rewrite Hc, Hn.
Qed.

End PyStrFacts.

Import PyStr PyStrFacts.

(** ** Normalisation of role ids *)

Lemma normalize_role_id_digits s :
  all_chars is_dec s = true -> is_empty s = false ->
  normalize_role_id (PyStr s) = zfill 5 s.
Proof.
  intros H Hne. unfold normalize_role_id, py_str.
  rewrite (strip_all_dec _ H), (isdigit_all_dec _ H Hne). reflexivity.
Qed.

Lemma normalize_role_id_formatted c :
  0 <= c -> normalize_role_id (PyStr (format_05d c)) = format_05d c.
Proof.
  intros Hc. destruct (str_of_int_nonneg c Hc) as [Hd Hne].
  unfold format_05d.
  destruct (zfill_spec 5 _ Hd) as (Hd' & Hlen & Hne').
  rewrite normalize_role_id_digits by auto.
  now apply zfill_wide.
Qed.

Lemma normalize_role_id_form c v :
  0 <= c -> role_form c v -> normalize_role_id v = format_05d c.
Proof.
  intros Hc Hv. destruct (str_of_int_nonneg c Hc) as [Hd Hne].
  destruct Hv as [|k pre post Hpre Hpost Hk]; [reflexivity |].
  unfold normalize_role_id, py_str.
  assert (Hd' : all_chars is_dec (repeat_char "0" k +:+ str_of_int c) = true).
  { rewrite all_chars_app, Hd, all_chars_repeat; reflexivity. }
  assert (Hne' : is_empty (repeat_char "0" k +:+ str_of_int c) = false).
  { destruct k; [now rewrite str_app_empty_l | reflexivity]. }
  rewrite <- (str_app_assoc (repeat_char "0" k)).
  rewrite strip_padded by assumption.
  rewrite isdigit_all_dec by assumption.
  unfold format_05d. destruct Hk as [-> | Hk].
  - now rewrite str_app_empty_l.
  - now apply zfill_padded.
Qed.

Lemma format_05d_form c : 0 <= c -> role_form c (PyStr (format_05d c)).
Proof.
  intros Hc. destruct (str_of_int_nonneg c Hc) as [Hd Hne].
  unfold format_05d. rewrite zfill_all_dec by assumption.
  pose proof (form_str c (5 - String.length (str_of_int c)) "" "" eq_refl eq_refl) as H.
  rewrite str_app_empty_l, str_app_empty_r in H. apply H.
  destruct (5 - String.length (str_of_int c))%nat eqn:E; [now left | right; lia].
Qed.

(** ** The injection of one witness *)

Section InsertFacts.

Context (g : globals).
Implicit Types (w : wit) (rc : gmap Z (gmap string role_pair))
         (g2p : gmap string Z) (cache : gset wit_key) (tw : list e_rec).

(** The function, with its intermediate values named. *)
Lemma insert_single_witness_eq w eid gnum rc g2p cache tw dsid p1 p2 :
  insert_single_witness g w eid gnum rc g2p cache tw dsid p1 p2 =
  match g2p !! wit_ged w with
  | None => (Error, tw, cache)
  | Some wper =>
      if wper =? 0 then (Error, tw, cache)
      else
        let is_self := is_self_witness wper p1 p2 in
        let cm := select_role g rc eid is_self (wit_role w) (wit_note w) in
        let key : wit_key :=
          (gnum, wper, normalize_role_id (PyStr (format_05d cm.1)), is_self) in
        if bool_decide (key ∈ cache) then (Skip, tw, cache)
        else (if is_self then Principal else Ok,
              if DRY_RUN g then tw
              else tw ++ [{| EPER := wper; GNUM := gnum; DSID := dsid;
                             SEQUENCE := next_sequence g gnum tw;
                             PRIMARY := is_self;
                             ROLE := PyStr (format_05d cm.1);
                             WITMEMO := take 60000 cm.2 |}],
              cache ∪ {[ key ]})
  end.
Proof.
  unfold insert_single_witness.
  destruct (g2p !! wit_ged w) as [wper|]; simpl; [|reflexivity].
  destruct (wper =? 0); simpl; [reflexivity |].
  destruct (select_role _ _ _ _ _ _) as [code memo]. reflexivity.
Qed.

Lemma insert_outcome_cases w eid gnum rc g2p cache tw dsid p1 p2 res tw' cache' :
  insert_single_witness g w eid gnum rc g2p cache tw dsid p1 p2 = (res, tw', cache') ->
  (res = Error /\ tw' = tw /\ cache' = cache /\
   (g2p !! wit_ged w = None \/ g2p !! wit_ged w = Some 0))
  \/ (exists wper, g2p !! wit_ged w = Some wper /\ wper <> 0 /\
      let is_self := is_self_witness wper p1 p2 in
      let cm := select_role g rc eid is_self (wit_role w) (wit_note w) in
      let key : wit_key :=
        (gnum, wper, normalize_role_id (PyStr (format_05d cm.1)), is_self) in
      (res = Skip /\ key ∈ cache /\ tw' = tw /\ cache' = cache)
      \/ (res = (if is_self then Principal else Ok) /\ (key ∉ cache) /\
          cache' = cache ∪ {[ key ]} /\
          tw' = if DRY_RUN g then tw
                else tw ++ [{| EPER := wper; GNUM := gnum; DSID := dsid;
                               SEQUENCE := next_sequence g gnum tw;
                               PRIMARY := is_self;
                               ROLE := PyStr (format_05d cm.1);
                               WITMEMO := take 60000 cm.2 |}])).
Proof.
  rewrite insert_single_witness_eq.
  destruct (g2p !! wit_ged w) as [wper|] eqn:Hw.
  - destruct (Z.eqb_spec wper 0) as [->|Hne].
    + intros [= <- <- <-]. left. auto.
    + cbv zeta. case_bool_decide as Hin.
      * intros [= <- <- <-]. right. exists wper. split_and!; auto.
      * intros [= <- <- <-]. right. exists wper. split_and!; auto 10.
  - intros [= <- <- <-]. left. auto.
Qed.


(** The four branches of the choice of the code. *)
Lemma select_role_own rc eid (is_self : bool) role note c :
  code_of rc eid (normalize g role) (if is_self then PRINCIPAL else NORMAL) = Some c ->
  c <> 0 ->
  select_role g rc eid is_self role note = (c, note).
Proof.
  unfold code_of, select_role. intros Hc Hne.
  destruct is_self; rewrite Hc; simpl;
    destruct (Z.eqb_spec c 0); try contradiction; reflexivity.
Qed.

Lemma select_role_fallback rc eid (is_self : bool) role note :
  truthy_int (code_of rc eid (normalize g role)
                      (if is_self then PRINCIPAL else NORMAL)) = false ->
  select_role g rc eid is_self role note =
  (let same := code_of rc eid "WITNESS" (if is_self then PRINCIPAL else NORMAL) in
   let other := code_of rc eid "WITNESS" (if is_self then NORMAL else PRINCIPAL) in
   if truthy_int same then default 0 same
   else if truthy_int other then default 0 other
   else 2,
   "[" +:+ ri_eng (role_info_of g (normalize g role) role) +:+ "] " +:+ note).
Proof.
  unfold code_of, select_role, py_or. intros Hc.
  destruct is_self; rewrite Hc; cbv zeta;
    repeat match goal with
    | |- context [truthy_int ?x] => destruct (truthy_int x) eqn:?
    end; try reflexivity; congruence.
Qed.

End InsertFacts.

Lemma app_singleton_neq {A} (l : list A) (x : A) : l ++ [x] <> l.
Proof.
  intros H. apply (f_equal length) in H. rewrite length_app in H. simpl in H. lia.
Qed.

(** A call that returns a longer table ran in real mode on a resolved
    witness that was not in the cache, and appended this row. *)
Lemma insert_appended (g : globals) (w : wit) (eid gnum : Z)
      (rc : gmap Z (gmap string role_pair)) (g2p : gmap string Z)
      (cache : gset wit_key) (tw : list e_rec) (dsid p1 p2 : Z)
      (res : outcome) (r : e_rec) (cache' : gset wit_key) :
  insert_single_witness g w eid gnum rc g2p cache tw dsid p1 p2
    = (res, tw ++ [r], cache') ->
  exists wper, g2p !! wit_ged w = Some wper /\ wper <> 0 /\ DRY_RUN g = false /\
    let is_self := is_self_witness wper p1 p2 in
    let cm := select_role g rc eid is_self (wit_role w) (wit_note w) in
    let key : wit_key :=
      (gnum, wper, normalize_role_id (PyStr (format_05d cm.1)), is_self) in
    res = (if is_self then Principal else Ok) /\ (key ∉ cache) /\
    cache' = cache ∪ {[ key ]} /\
    r = {| EPER := wper; GNUM := gnum; DSID := dsid;
           SEQUENCE := next_sequence g gnum tw; PRIMARY := is_self;
           ROLE := PyStr (format_05d cm.1); WITMEMO := take 60000 cm.2 |}.
Proof.
  intros H. apply insert_outcome_cases in H as [(_ & Htw & _)|(wper & Hw & Hne & H)].
  { now apply app_singleton_neq in Htw. }
  exists wper. split; [assumption|]. split; [assumption|].
  cbv zeta in H |- *. destruct H as [(_ & _ & Htw & _)|(Hres & Hk & Hc & Htw)].
  { now apply app_singleton_neq in Htw. }
  destruct (DRY_RUN g).
  { now apply app_singleton_neq in Htw. }
  apply app_inj_tail in Htw as [_ ->]. auto.
Qed.

(** C6 (amended): the record injected for a witness carries the code of
    its role in the wanted variant (PRINCIPAL for a self-witness, NORMAL
    otherwise) when the Synchronizer's output holds one; else the code of
    WITNESS in the wanted variant; else the code of WITNESS in the other
    variant; else the fixed code 2. On each of the three fall-backs, not only
    on the last, the English label of the role is put in brackets in front
    of the note. *)
Theorem role_code_fallback_chain (g : globals) (w : wit) (eid gnum : Z)
      (rc : gmap Z (gmap string role_pair)) (g2p : gmap string Z)
      (cache : gset wit_key) (tw : list e_rec) (dsid p1 p2 : Z)
      (res : outcome) (r : e_rec) (cache' : gset wit_key) (wper : Z) :
  insert_single_witness g w eid gnum rc g2p cache tw dsid p1 p2
    = (res, tw ++ [r], cache') ->
  g2p !! wit_ged w = Some wper ->
  let is_self := is_self_witness wper p1 p2 in
  let wanted := if is_self then PRINCIPAL else NORMAL in
  let other := if is_self then NORMAL else PRINCIPAL in
  let role_norm := normalize g (wit_role w) in
  let own := code_of rc eid role_norm wanted in
  let wit_same := code_of rc eid "WITNESS" wanted in
  let wit_other := code_of rc eid "WITNESS" other in
  let labelled :=
    "[" +:+ ri_eng (role_info_of g role_norm (wit_role w)) +:+ "] " +:+ wit_note w in
  (ROLE r, WITMEMO r) =
    if truthy_int own
    then (PyStr (format_05d (default 0 own)), take 60000 (wit_note w))
    else if truthy_int wit_same
    then (PyStr (format_05d (default 0 wit_same)), take 60000 labelled)
    else if truthy_int wit_other
    then (PyStr (format_05d (default 0 wit_other)), take 60000 labelled)
    else (PyStr (format_05d 2), take 60000 labelled).
Proof.
  intros H Hw. apply insert_appended in H as (wper' & Hw' & Hne & _ & H).
  rewrite Hw in Hw'. injection Hw' as <-.
  cbv zeta in H. destruct H as (_ & _ & _ & ->). cbv zeta. simpl.
  destruct (truthy_int (code_of rc eid (normalize g (wit_role w))
              (if is_self_witness wper p1 p2 then PRINCIPAL else NORMAL))) eqn:Hown.
  - destruct (code_of _ _ _ _) as [c|] eqn:Hc; [|discriminate].
    simpl in Hown. apply negb_true_iff, Z.eqb_neq in Hown.
    rewrite (select_role_own g _ _ _ _ _ c Hc Hown). reflexivity.
  - rewrite (select_role_fallback g _ _ _ _ _ Hown). cbv zeta. simpl.
    repeat match goal with
    | |- context [truthy_int ?x] => destruct (truthy_int x) eqn:?
    end; reflexivity.
Qed.

Lemma str_of_int_form c : role_form c (PyStr (str_of_int c)).
Proof.
  pose proof (form_str c 0 "" "" eq_refl eq_refl (or_introl eq_refl)) as H.
  simpl in H. now rewrite !str_app_empty_l, str_app_empty_r in H.
Qed.

(** C9: a call of [insert_single_witness] that ends in 'error' or 'skip'
    returns the table E.DBF and the cache as it received them; a call that
    ends in 'ok' or 'principal' adds one key that was not in the cache and,
    outside the simulation mode, appends exactly one row. An unresolved
    witness ends in 'error'. An event for which no candidate is selected
    counts all its witnesses as errors and changes neither the table nor the
    cache. *)
Theorem injection_atomic (g : globals) :
  (forall (w : wit) (eid gnum : Z) (rc : gmap Z (gmap string role_pair))
          (g2p : gmap string Z) (cache : gset wit_key) (tw : list e_rec)
          (dsid p1 p2 : Z),
      let '(res, tw', cache') :=
        insert_single_witness g w eid gnum rc g2p cache tw dsid p1 p2 in
      (truthy_int (g2p !! wit_ged w) = false -> res = Error) /\
      match res with
      | Error | Skip => tw' = tw /\ cache' = cache
      | Ok | Principal =>
          (exists key, (key ∉ cache) /\ cache' = cache ∪ {[ key ]}) /\
          if DRY_RUN g then tw' = tw else exists r, tw' = tw ++ [r]
      end)
  /\ (forall (ctx : evt_ctx) (pper : Z) (ix : indexes)
             (rc : gmap Z (gmap string role_pair)) (st : inj_state),
        truthy_int (ctx_eid ctx) = true ->
        ctx_witnesses ctx <> [] ->
        truthy_int
          (find_target (gedcom_year (ctx_date ctx))
             (default [] (events_index ix !! (pper, default 0 (ctx_eid ctx)))))
          = false ->
        flush_event g ctx pper ix rc st =
        {| tw := tw st; cache := cache st;
           tally := bump Error (Z.of_nat (length (ctx_witnesses ctx))) (tally st) |}).
Proof.
  split.
  - intros w eid gnum rc g2p cache tw dsid p1 p2.
    destruct (insert_single_witness _ _ _ _ _ _ _ _ _ _ _) as [[res tw'] cache'] eqn:H.
    apply insert_outcome_cases in H
      as [(-> & -> & -> & _)|(wper & Hw & Hne & H)]; [auto |].
    cbv zeta in H. split.
    { rewrite Hw. simpl. destruct (Z.eqb_spec wper 0); [contradiction | discriminate]. }
    destruct H as [(-> & _ & -> & ->)|(-> & Hk & -> & ->)]; [auto |].
    destruct (is_self_witness wper p1 p2);
      (split; [eexists; split; [exact Hk | reflexivity] |]);
      destruct (DRY_RUN g); eauto.
  - intros ctx pper ix rc st Heid Hw Hno. unfold flush_event.
    rewrite Heid. destruct (ctx_witnesses ctx) as [|w0 ws]; [contradiction |].
    simpl. simpl in Hno. rewrite Hno. reflexivity.
Qed.

(** C2 (amended): when the resolved person of a witness is one of the two
    participants of the matched event, the injected row has PRIMARY set and
    the call is tallied as 'principal'. The row carries the PRINCIPAL
    variant code of the role whenever the Synchronizer's output holds one for
    the role in this event type; otherwise its code comes from the
    fall-back chain. *)
Theorem self_reference_is_principal (g : globals) (w : wit) (eid gnum : Z)
      (rc : gmap Z (gmap string role_pair)) (g2p : gmap string Z)
      (cache : gset wit_key) (tw : list e_rec) (dsid p1 p2 : Z)
      (res : outcome) (r : e_rec) (cache' : gset wit_key) (wper : Z) :
  insert_single_witness g w eid gnum rc g2p cache tw dsid p1 p2
    = (res, tw ++ [r], cache') ->
  g2p !! wit_ged w = Some wper ->
  wper = p1 \/ wper = p2 ->
  res = Principal /\ PRIMARY r = true /\ EPER r = wper /\ GNUM r = gnum /\
  (forall c, code_of rc eid (normalize g (wit_role w)) PRINCIPAL = Some c ->
             c <> 0 ->
             ROLE r = PyStr (format_05d c) /\ variant_code rc eid PRINCIPAL c).
Proof.
  intros H Hw Hself. apply insert_appended in H as (wper' & Hw' & Hne & _ & H).
  rewrite Hw in Hw'. injection Hw' as <-.
  assert (Hs : is_self_witness wper p1 p2 = true).
  { unfold is_self_witness. destruct Hself as [<- | <-].
    - now rewrite Z.eqb_refl.
    - rewrite Z.eqb_refl, andb_true_r.
      destruct (Z.eqb_spec wper 0); [contradiction |]. apply orb_true_r. }
  cbv zeta in H. rewrite Hs in H. destruct H as (-> & _ & _ & ->). simpl.
  split_and!; try reflexivity.
  intros c Hc Hc0. split.
  - now rewrite (select_role_own g rc eid true _ _ c Hc Hc0).
  - now exists (normalize g (wit_role w)).
Qed.

(** C10: every form under which the table can return a non-negative role
    code [c] (the int, its numeral, the numeral padded with zeros up to the
    width of the field) is normalized to the same string as the five-digit
    text that the injector writes; so the key cached at injection time for a
    new row is the key computed for that row when it is read back, under
    any of these forms. *)
Theorem dedup_key_coherent (c : Z) :
  0 <= c ->
  (forall v, role_form c v -> normalize_role_id v = normalize_role_id (PyInt c))
  /\ role_form c (PyStr (format_05d c))
  /\ role_form c (PyStr (str_of_int c))
  /\ (forall (g : globals) (w : wit) (eid gnum : Z)
             (rc : gmap Z (gmap string role_pair)) (g2p : gmap string Z)
             (cache : gset wit_key) (tw : list e_rec) (dsid p1 p2 : Z)
             (res : outcome) (r : e_rec) (cache' : gset wit_key) (v : pyval),
        insert_single_witness g w eid gnum rc g2p cache tw dsid p1 p2
          = (res, tw ++ [r], cache') ->
        ROLE r = PyStr (format_05d c) ->
        role_form c v ->
        cache' = cache ∪ {[ key_of_row r ]}
        /\ key_of_row (reread v r) = key_of_row r).
Proof.
  intros Hc. split_and!.
  - intros v Hv. now rewrite (normalize_role_id_form c v Hc Hv).
  - now apply format_05d_form.
  - apply str_of_int_form.
  - intros g w eid gnum rc g2p cache tw dsid p1 p2 res r cache' v H Hrole Hv.
    apply insert_appended in H as (wper & _ & _ & _ & H). cbv zeta in H.
    destruct H as (_ & _ & -> & Hr). split.
    + rewrite Hr. reflexivity.
    + unfold key_of_row, reread. simpl. rewrite Hrole.
      rewrite (normalize_role_id_form c v Hc Hv).
      now rewrite normalize_role_id_formatted.
Qed.

(** ** Sequence numbers *)

Lemma max_seq_loop_acc (gnum : Z) (tw : list e_rec) (a : Z) :
  let m := foldl (max_seq_step gnum) a tw in
  a <= m
  /\ (forall row, row ∈ tw -> GNUM row = gnum -> SEQUENCE row <= m)
  /\ (m = a \/ exists row, row ∈ tw /\ GNUM row = gnum /\ SEQUENCE row = m).
Proof.
  revert a. induction tw as [|r tw IH]; intros a; simpl.
  - split_and!; [lia | | now left]. intros row Hin. inversion Hin.
  - specialize (IH (max_seq_step gnum a r)). cbv zeta in IH.
    destruct IH as (Hle & Hall & Hex).
    assert (Hstep : a <= max_seq_step gnum a r
                    /\ (GNUM r = gnum -> SEQUENCE r <= max_seq_step gnum a r)
                    /\ (max_seq_step gnum a r = a
                        \/ (GNUM r = gnum /\ SEQUENCE r = max_seq_step gnum a r))).
    { unfold max_seq_step.
      destruct (Z.eqb_spec (GNUM r) gnum), (Z.ltb_spec a (SEQUENCE r));
        simpl; split_and!; auto; try lia; intros; try lia; contradiction. }
    destruct Hstep as (H1 & H2 & H3).
    split_and!.
    + lia.
    + intros row Hin Hg. apply elem_of_cons in Hin as [-> | Hin]; [| now apply Hall].
      specialize (H2 Hg). lia.
    + destruct Hex as [Hm | (row & Hin & Hg & Hs)].
      * destruct H3 as [H3 | [Hg Hs]].
        -- left. lia.
        -- right. exists r. split_and!; [left | assumption | lia].
      * right. exists row. split_and!; [now right | assumption | assumption].
Qed.

(** The loop of the source computes the maximum of the event. *)
Lemma max_seq_loop (gnum : Z) (tw : list e_rec) :
  is_max_seq gnum tw (foldl (max_seq_step gnum) 0 tw).
Proof.
  destruct (max_seq_loop_acc gnum tw 0) as (_ & H1 & H2). split; assumption.
Qed.

Lemma seq_extension_trans (a b c : list e_rec) :
  seq_extension a b -> seq_extension b c -> seq_extension a c.
Proof.
  intros Hab Hbc. induction Hbc as [|b c r m Hbc IH Hm Hs]; [assumption |].
  eapply seq_ext_snoc; eauto.
Qed.

Section SequenceFacts.

Context (g : globals).

Lemma insert_seq_extension (w : wit) (eid gnum : Z)
      (rc : gmap Z (gmap string role_pair)) (g2p : gmap string Z)
      (cache : gset wit_key) (tw : list e_rec) (dsid p1 p2 : Z) :
  seq_extension tw
    (insert_single_witness g w eid gnum rc g2p cache tw dsid p1 p2).1.2.
Proof.
  destruct (insert_single_witness _ _ _ _ _ _ _ _ _ _ _) as [[res tw'] cache'] eqn:H.
  simpl. apply insert_outcome_cases in H
    as [(_ & -> & _)|(wper & Hw & Hne & H)]; [constructor |].
  cbv zeta in H. destruct H as [(_ & _ & -> & _)|(_ & _ & _ & ->)]; [constructor |].
  unfold next_sequence. destruct (DRY_RUN g); [constructor |].
  eapply seq_ext_snoc; [constructor | apply max_seq_loop | reflexivity].
Qed.

Lemma insert_step_seq_extension (eid gnum : Z)
      (rc : gmap Z (gmap string role_pair)) (g2p : gmap string Z)
      (dsid p1 p2 : Z) (st : inj_state) (w : wit) :
  seq_extension (tw st) (tw (insert_step g eid gnum rc g2p dsid p1 p2 st w)).
Proof.
  unfold insert_step.
  pose proof (insert_seq_extension w eid gnum rc g2p (cache st) (tw st) dsid p1 p2) as H.
  destruct (insert_single_witness _ _ _ _ _ _ _ _ _ _ _) as [[res tw'] cache'].
  exact H.
Qed.

Lemma flush_event_seq_extension (ctx : evt_ctx) (pper : Z) (ix : indexes)
      (rc : gmap Z (gmap string role_pair)) (st : inj_state) :
  seq_extension (tw st) (tw (flush_event g ctx pper ix rc st)).
Proof.
  unfold flush_event.
  destruct (negb (truthy_int (ctx_eid ctx)) || is_nil (ctx_witnesses ctx));
    [constructor |].
  destruct (negb (truthy_int (find_target _ _))); [constructor |].
  destruct (match List.find _ _ with Some c => _ | None => _ end) as [per1 per2].
  generalize (ctx_witnesses ctx). intros ws. revert st.
  induction ws as [|w ws IH]; intros st; simpl; [constructor |].
  eapply seq_extension_trans; [apply insert_step_seq_extension | apply IH].
Qed.

Lemma event_line_seq_extension (pper : Z) (evt_ids : gmap string Z)
      (ix : indexes) (rc : gmap Z (gmap string role_pair))
      (acc : evt_ctx * inj_state) (lvl : Z) (tag val : string) :
  seq_extension (tw acc.2) (tw (event_line g pper evt_ids ix rc acc lvl tag val).2).
Proof.
  destruct acc as [cur st]. unfold event_line. simpl.
  repeat match goal with
  | |- context [if ?b then _ else _] => destruct b; simpl
  end; try constructor; apply flush_event_seq_extension.
Qed.

Lemma event_lines_seq_extension (pper : Z) (evt_ids : gmap string Z)
      (ix : indexes) (rc : gmap Z (gmap string role_pair))
      (lines : list string) (acc acc' : evt_ctx * inj_state) :
  event_lines g pper evt_ids ix rc acc lines = Some acc' ->
  seq_extension (tw acc.2) (tw acc'.2).
Proof.
  revert acc. induction lines as [|l lines IH]; intros acc; simpl.
  - intros [= <-]. constructor.
  - destruct (parse_line l) as [| |lvl tag val]; [apply IH | discriminate |].
    intros H. apply IH in H.
    eapply seq_extension_trans; [apply event_line_seq_extension | exact H].
Qed.

Lemma process_events_seq_extension (lines : list string) (pper : Z)
      (evt_ids : gmap string Z) (ix : indexes)
      (rc : gmap Z (gmap string role_pair)) (st st' : inj_state) :
  process_events g lines pper evt_ids ix rc st = Some st' ->
  seq_extension (tw st) (tw st').
Proof.
  unfold process_events.
  destruct (event_lines _ _ _ _ _ _ _) as [acc|] eqn:H; simpl; [|discriminate].
  intros [= <-]. apply event_lines_seq_extension in H. simpl in H.
  eapply seq_extension_trans; [exact H | apply flush_event_seq_extension].
Qed.

Lemma process_block_seq_extension (lines : list string)
      (evt_ids : gmap string Z) (ix : indexes)
      (rc : gmap Z (gmap string role_pair)) (st st' : inj_state) :
  process_block g lines evt_ids ix rc st = Some st' ->
  seq_extension (tw st) (tw st').
Proof.
  unfold process_block.
  destruct (block_person _ _) as [pper|]; simpl; [|discriminate].
  destruct (truthy_int pper).
  - apply process_events_seq_extension.
  - intros [= <-]. constructor.
Qed.

Lemma inject_lines_seq_extension (evt_ids : gmap string Z) (ix : indexes)
      (rc : gmap Z (gmap string role_pair)) (lines block : list string)
      (st st' : inj_state) :
  inject_lines g evt_ids ix rc block st lines = Some st' ->
  seq_extension (tw st) (tw st').
Proof.
  revert block st. induction lines as [|line lines IH]; intros block st; simpl.
  - destruct (is_nil block).
    + intros [= <-]. constructor.
    + apply process_block_seq_extension.
  - destruct (startswith "0 @I" line || startswith "0 @F" line).
    + destruct (is_nil block); simpl.
      * apply IH.
      * destruct (process_block _ _ _ _ _ _) as [st1|] eqn:H1; simpl; [|discriminate].
        intros H. apply IH in H. apply process_block_seq_extension in H1.
        eapply seq_extension_trans; eassumption.
    + apply IH.
Qed.

End SequenceFacts.

(** What an extension says about each added row. *)
Lemma seq_extension_added (tw tw' : list e_rec) :
  seq_extension tw tw' ->
  exists added, tw' = tw ++ added /\
    forall pre r post, added = pre ++ r :: post ->
      is_max_seq (GNUM r) (tw ++ pre) (SEQUENCE r - 1).
Proof.
  induction 1 as [tw | tw tw' r m Hext (added & -> & IH) Hm Hs].
  - exists []. split; [now rewrite app_nil_r |].
    intros [|? ?] r post H; discriminate H.
  - exists (added ++ [r]). split; [now rewrite app_assoc |].
    intros pre r' post Heq.
    destruct post as [|x post].
    + apply app_inj_tail in Heq as [-> ->].
      now replace (SEQUENCE r' - 1) with m by lia.
    + assert (Hsplit : exists post', x :: post = post' ++ [r]).
      { destruct (exists_last (l := x :: post)) as (post' & z & Hz); [discriminate |].
        assert (z = r) as ->; [| eauto].
        rewrite Hz in Heq. change (r' :: post' ++ [z]) with ((r' :: post') ++ [z]) in Heq.
        rewrite app_assoc in Heq. now apply app_inj_tail in Heq as [_ ->]. }
      destruct Hsplit as (post' & Hp). rewrite Hp in Heq.
      change (r' :: post' ++ [r]) with ((r' :: post') ++ [r]) in Heq.
      rewrite app_assoc in Heq. apply app_inj_tail in Heq as [Heq _].
      eapply IH. exact Heq.
Qed.

(** C4: the rows that a run of [inject_witnesses] adds to E.DBF each carry,
    as sequence number, the maximum over the rows of the same event that
    precede them in the table (0 when there is none) plus one; hence every
    added row has a sequence number above those of all earlier rows of its
    event, the rows of the table at the start and the rows added before it
    alike, and no number is given twice for an event. *)
Theorem sequence_monotonic (g : globals) (evt_ids : gmap string Z)
      (rc : gmap Z (gmap string role_pair)) (ix : indexes)
      (te : list e_rec) (lines : list string) (st : inj_state) :
  inject_witnesses g evt_ids rc ix te lines = Some st ->
  exists added, tw st = te ++ added /\
    forall pre r post, added = pre ++ r :: post ->
      is_max_seq (GNUM r) (te ++ pre) (SEQUENCE r - 1)
      /\ forall row, row ∈ te ++ pre -> GNUM row = GNUM r ->
                     SEQUENCE row < SEQUENCE r.
Proof.
  unfold inject_witnesses. intros H.
  apply inject_lines_seq_extension in H. simpl in H.
  apply seq_extension_added in H as (added & Htw & Hadd).
  exists added. split; [assumption |].
  intros pre r post Heq. specialize (Hadd pre r post Heq).
  split; [assumption |].
  intros row Hin Hg. destruct Hadd as [Hle _]. specialize (Hle row Hin Hg). lia.
Qed.

(** ** Event matching *)

Lemma four_digits_at_nonempty (s y : string) :
  four_digits_at s = Some y -> is_empty y = false.
Proof.
  unfold four_digits_at.
  destruct s as [|a [|b [|c [|d s]]]]; try discriminate.
  destruct (_ && _); [|discriminate]. now intros [= <-].
Qed.

Lemma search_four_digits_nonempty (s y : string) :
  search_four_digits s = Some y -> is_empty y = false.
Proof.
  induction s as [|c s IH].
  - discriminate.
  - change (search_four_digits (String c s))
      with (match four_digits_at (String c s) with
            | Some y => Some y
            | None => search_four_digits s
            end).
    destruct (four_digits_at (String c s)) as [y'|] eqn:E.
    + intros [= ->]. eapply four_digits_at_nonempty, E.
    + apply IH.
Qed.

(** A stored year, when there is one, is not the empty string. *)
Lemma extract_year_tmg_nonempty (edate y : string) :
  extract_year_tmg edate = Some y -> is_empty y = false.
Proof.
  unfold extract_year_tmg.
  destruct (is_empty edate); [discriminate |].
  destruct (startswith "1" edate && (5 <=? String.length edate)%nat) eqn:E.
  - intros [= <-]. apply andb_prop in E as [_ E]. apply Nat.leb_le in E.
    unfold slice_1_5. destruct edate as [|a [|b s]]; simpl in *;
      try lia; try reflexivity.
  - destruct (startswith "0" edate); [|discriminate].
    apply search_four_digits_nonempty.
Qed.

(** The year of an interchange date, when there is one, has four
    characters. *)
Lemma gedcom_year_length (date : option string) (y : string) :
  gedcom_year date = Some y -> String.length y = 4%nat.
Proof.
  unfold gedcom_year. destruct (truthy date); [|discriminate].
  intros H. apply find_some in H as [_ H].
  apply andb_prop in H as [_ H]. now apply Nat.eqb_eq in H.
Qed.

(** The test of the loop decides [accepts] for the years that
    [gedcom_year] produces. *)
Lemma year_matches_accepts (date : option string) (cand : evt_data) :
  year_matches (gedcom_year date) cand = true <-> accepts (gedcom_year date) cand.
Proof.
  unfold year_matches, accepts.
  destruct (gedcom_year date) as [y|] eqn:Hy.
  - apply gedcom_year_length in Hy.
    assert (Hne : is_empty y = false) by (destruct y; [discriminate | reflexivity]).
    rewrite Hne.
    destruct (extract_year_tmg (ev_edate cand)) as [yt|] eqn:Ht; simpl.
    + apply extract_year_tmg_nonempty in Ht. rewrite Ht. simpl.
      destruct (String.eqb_spec yt "0000") as [-> | H0]; simpl.
      * split; [|reflexivity]. intros _ yg yt' _ [= <-] Hc. contradiction.
      * destruct (String.eqb_spec yt y) as [-> | Hd]; simpl.
        -- split; [|reflexivity]. intros _ yg yt' [= <-] [= <-] _. reflexivity.
        -- split; [discriminate |]. intros H.
           exfalso. apply Hd. now apply (H y yt).
    + split; [|reflexivity]. intros _ yg yt _ Hc. discriminate.
  - split; [|reflexivity]. intros _ yg yt Hc. discriminate.
Qed.

Lemma flush_event_no_target (g : globals) (ctx : evt_ctx) (pper : Z)
      (ix : indexes) (rc : gmap Z (gmap string role_pair)) (st : inj_state) :
  truthy_int (ctx_eid ctx) = true ->
  ctx_witnesses ctx <> [] ->
  truthy_int
    (find_target (gedcom_year (ctx_date ctx))
       (default [] (events_index ix !! (pper, default 0 (ctx_eid ctx)))))
    = false ->
  flush_event g ctx pper ix rc st =
  {| tw := tw st; cache := cache st;
     tally := bump Error (Z.of_nat (length (ctx_witnesses ctx))) (tally st) |}.
Proof.
  intros Heid Hw Hno. unfold flush_event.
  rewrite Heid. destruct (ctx_witnesses ctx) as [|w0 ws]; [contradiction |].
  simpl. simpl in Hno. rewrite Hno. reflexivity.
Qed.

Lemma find_first (P : evt_data -> bool) (pre : list evt_data) (c : evt_data)
      (post : list evt_data) :
  P c = true -> (forall c', c' ∈ pre -> P c' = false) ->
  List.find P (pre ++ c :: post) = Some c.
Proof.
  intros Hc Hpre. induction pre as [|x pre IH]; simpl.
  - now rewrite Hc.
  - rewrite (Hpre x) by left. apply IH. intros c' Hin. apply Hpre. now right.
Qed.

Lemma find_none (P : evt_data -> bool) (l : list evt_data) :
  (forall c, c ∈ l -> P c = false) -> List.find P l = None.
Proof.
  intros H. induction l as [|x l IH]; simpl; [reflexivity |].
  rewrite (H x) by left. apply IH. intros c Hin. apply H. now right.
Qed.

(** C5: with [y] the year read from the interchange date, the resolver
    returns the first candidate, in index order, that [y] accepts: one whose
    stored year is missing, or 0000, or equal to [y]; without an interchange
    year it returns the first candidate; and when every candidate has a
    stored year that is neither 0000 nor [y], as 1751 against 1750, none is
    selected, the witnesses of the event are counted as errors, and neither
    the table nor the cache changes. *)
Theorem event_matching (date : option string) (candidates : list evt_data) :
  let y_ged := gedcom_year date in
  (forall pre c post,
      candidates = pre ++ c :: post ->
      accepts y_ged c -> (forall c', c' ∈ pre -> ~ accepts y_ged c') ->
      find_target y_ged candidates = Some (ev_recno c))
  /\ (forall c, extract_year_tmg (ev_edate c) = None
                \/ extract_year_tmg (ev_edate c) = Some "0000"
                \/ extract_year_tmg (ev_edate c) = y_ged ->
                accepts y_ged c)
  /\ (y_ged = None ->
      find_target y_ged candidates = ev_recno <$> head candidates)
  /\ (forall yg,
        y_ged = Some yg ->
        (forall c, c ∈ candidates ->
                   exists yt, extract_year_tmg (ev_edate c) = Some yt
                              /\ yt <> "0000" /\ yt <> yg) ->
        find_target y_ged candidates = None
        /\ forall (g : globals) (ctx : evt_ctx) (pper : Z) (ix : indexes)
                  (rc : gmap Z (gmap string role_pair)) (st : inj_state),
            ctx_date ctx = date ->
            truthy_int (ctx_eid ctx) = true ->
            ctx_witnesses ctx <> [] ->
            default [] (events_index ix !! (pper, default 0 (ctx_eid ctx)))
              = candidates ->
            let st' := flush_event g ctx pper ix rc st in
            tw st' = tw st /\ cache st' = cache st
            /\ tally st' =
               bump Error (Z.of_nat (length (ctx_witnesses ctx))) (tally st)).
Proof.
  cbv zeta. split_and!.
  - intros pre c post -> Hc Hpre. unfold find_target.
    rewrite (find_first _ pre c post); [reflexivity | |].
    + now apply year_matches_accepts.
    + intros c' Hin. destruct (year_matches _ c') eqn:E; [|reflexivity].
      apply year_matches_accepts in E. now apply Hpre in E.
  - intros c H yg yt Hy Ht H0. destruct H as [H | [H | H]].
    + congruence.
    + congruence.
    + congruence.
  - intros Hy. rewrite Hy. unfold find_target.
    destruct candidates as [|c l]; reflexivity.
  - intros yg Hy Hall.
    assert (Hnone : find_target (gedcom_year date) candidates = None).
    { unfold find_target. rewrite find_none; [reflexivity |].
      intros c Hin. destruct (year_matches _ c) eqn:E; [|reflexivity].
      apply year_matches_accepts in E.
      destruct (Hall c Hin) as (yt & Ht & H0 & Hd).
      exfalso. apply Hd. now apply (E yg yt). }
    split; [assumption |].
    intros g ctx pper ix rc st Hdate Heid Hw Hc.
    rewrite flush_event_no_target; [simpl; auto | assumption | assumption |].
    rewrite Hdate, Hc, Hnone. reflexivity.
Qed.

(** ** The Synchronizer *)

Section CodeFacts.

Implicit Types (rc : gmap Z (gmap string role_pair)) (k : string) (v : variant).

Lemma pair_get_set_eq v c (p : role_pair) : pair_get v (pair_set v c p) = Some c.
Proof. destruct v; reflexivity. Qed.

Lemma pair_get_set_ne v v' c (p : role_pair) :
  v <> v' -> pair_get v' (pair_set v c p) = pair_get v' p.
Proof. destruct v, v'; intros H; try reflexivity; contradiction. Qed.

Lemma code_of_set_code_eq rc eid k v c :
  code_of (set_code eid k v c rc) eid k v = Some c.
Proof.
  unfold code_of, set_code. rewrite lookup_insert_eq. simpl.
  rewrite lookup_insert_eq. simpl. apply pair_get_set_eq.
Qed.

Lemma code_of_set_code_ne rc eid k v c eid' k' v' :
  (eid', k', v') <> (eid, k, v) ->
  code_of (set_code eid k v c rc) eid' k' v' = code_of rc eid' k' v'.
Proof.
  intros Hne. unfold code_of, set_code.
  destruct (decide (eid' = eid)) as [-> | He].
  - rewrite lookup_insert_eq. simpl.
    destruct (decide (k' = k)) as [-> | Hk].
    + rewrite lookup_insert_eq. simpl.
      apply pair_get_set_ne. intros ->. now apply Hne.
    + now rewrite lookup_insert_ne by congruence.
  - now rewrite lookup_insert_ne by congruence.
Qed.

(** A code that is there stays there, perhaps with another value. *)
Lemma code_of_set_code_some rc eid k v c eid' k' v' :
  is_Some (code_of rc eid' k' v') ->
  is_Some (code_of (set_code eid k v c rc) eid' k' v').
Proof.
  intros H. destruct (decide ((eid', k', v') = (eid, k, v))) as [[= -> -> ->] | Hne].
  - rewrite code_of_set_code_eq. eauto.
  - now rewrite code_of_set_code_ne.
Qed.

Lemma code_of_insert_empty_ne rc eid eid' k v :
  eid' <> eid -> code_of (<[eid := ∅]> rc) eid' k v = code_of rc eid' k v.
Proof. intros H. unfold code_of. now rewrite lookup_insert_ne by congruence. Qed.

End CodeFacts.

(** *** The allocation loop *)

Section AllocFacts.

Variable eid : Z.

Lemma alloc_snoc (a0 : alloc) (l : list new_role) (x : new_role) :
  foldl (alloc_role eid) a0 (l ++ [x]) = alloc_role eid (foldl (alloc_role eid) a0 l) x.
Proof. now rewrite foldl_app. Qed.

Lemma alloc_current_id (a0 : alloc) (l : list new_role) :
  current_id (foldl (alloc_role eid) a0 l) = current_id a0 + Z.of_nat (length l).
Proof.
  induction l as [|x l IH] using rev_ind; simpl; [lia |].
  rewrite alloc_snoc, length_app. simpl. rewrite IH. lia.
Qed.

(** Every entry of the list gets a code, and the codes that were there
    stay. *)
Lemma alloc_some (a0 : alloc) (l : list new_role) eid' k v :
  is_Some (code_of (alloc_codes a0) eid' k v)
  \/ (eid' = eid /\ exists nr, nr ∈ l /\ nr_key nr = k /\ nr_type nr = v) ->
  is_Some (code_of (alloc_codes (foldl (alloc_role eid) a0 l)) eid' k v).
Proof.
  induction l as [|x l IH] using rev_ind; simpl.
  - intros [H | (_ & nr & Hin & _)]; [assumption | inversion Hin].
  - rewrite alloc_snoc. simpl. intros [H | (-> & nr & Hin & <- & <-)].
    + apply code_of_set_code_some. auto.
    + apply elem_of_app in Hin as [Hin | Hin%list_elem_of_singleton].
      * apply code_of_set_code_some, IH. right. split; [reflexivity |]. eauto.
      * subst. rewrite code_of_set_code_eq. eauto.
Qed.

(** Codes of other event types, and of roles that are not in the list, are
    left as they were. *)
Lemma alloc_other (a0 : alloc) (l : list new_role) eid' k v :
  (eid' = eid -> forall nr, nr ∈ l -> (nr_key nr, nr_type nr) <> (k, v)) ->
  code_of (alloc_codes (foldl (alloc_role eid) a0 l)) eid' k v
  = code_of (alloc_codes a0) eid' k v.
Proof.
  induction l as [|x l IH] using rev_ind; simpl; [reflexivity |].
  intros H. rewrite alloc_snoc. simpl.
  rewrite code_of_set_code_ne.
  - apply IH. intros He nr Hin. apply H; [assumption |]. apply elem_of_app. now left.
  - intros [= He Hk Hv]. apply (H He x); [| congruence].
    apply elem_of_app. right. now left.
Qed.

(** With distinct (role, variant) pairs, the entry at index [i] gets the code
    [current_id + 1 + i]. *)
Lemma alloc_code_at (a0 : alloc) (l : list new_role) (i : nat) (nr : new_role) :
  NoDup ((fun nr => (nr_key nr, nr_type nr)) <$> l) ->
  l !! i = Some nr ->
  code_of (alloc_codes (foldl (alloc_role eid) a0 l)) eid (nr_key nr) (nr_type nr)
  = Some (current_id a0 + 1 + Z.of_nat i).
Proof.
  revert i nr. induction l as [|x l IH] using rev_ind; intros i nr Hnd Hi.
  - discriminate.
  - rewrite alloc_snoc. simpl.
    rewrite fmap_app in Hnd. apply NoDup_app in Hnd as (Hnd & Hdisj & _).
    destruct (decide (i < length l)%nat) as [Hlt | Hge].
    + rewrite lookup_app_l in Hi by assumption.
      rewrite code_of_set_code_ne; [now apply IH |].
      intros [= Hk Hv]. apply (Hdisj (nr_key nr, nr_type nr)).
      * apply list_elem_of_fmap. exists nr. split; [reflexivity |].
        eapply list_elem_of_lookup_2, Hi.
      * simpl. rewrite Hk, Hv. now left.
    + assert (i = length l) as ->.
      { apply lookup_lt_Some in Hi. rewrite length_app in Hi. simpl in Hi. lia. }
      rewrite list_lookup_middle in Hi by reflexivity. injection Hi as <-.
      rewrite code_of_set_code_eq, alloc_current_id. f_equal. lia.
Qed.

End AllocFacts.

(** *** The planning loop *)

Section PlanFacts.

Variable g : globals.
Variable eid : Z.
Variable er : gmap string Z.

Implicit Types (p : plan) (r : string * role_data).

(** One step of the loop: the entries it lists for creation and the codes
    it stores. *)
Lemma plan_role_step p r :
  let p' := plan_role g eid er p r in
  exists new,
    roles_to_create p' = roles_to_create p ++ new
    /\ new = created_by g er r
    /\ (forall v c, used_as v r.2 = true ->
                    er !! normalize g (label_of v r.2) = Some c ->
                    code_of (plan_codes p') eid r.1 v = Some c)
    /\ (forall e k v, (e, k) <> (eid, r.1) ->
                      code_of (plan_codes p') e k v = code_of (plan_codes p) e k v)
    /\ (forall e k v, is_Some (code_of (plan_codes p) e k v) ->
                      is_Some (code_of (plan_codes p') e k v))
    /\ needs_witrole p' = needs_witrole p || normal r.2
    /\ needs_prinrole p' = needs_prinrole p || principal r.2.
Proof.
  destruct r as [k d].
  unfold plan_role, plan_normal, plan_principal, created_by, used_as, label_of.
  simpl.
  destruct (normal d) eqn:Hn, (principal d) eqn:Hp;
    try destruct (er !! normalize g (eng d)) as [cn|] eqn:En;
    try destruct (er !! normalize g ("Principal " +:+ eng d)) as [cp|] eqn:Ep;
    simpl.
  all: eexists; split; [| split; [reflexivity |]].
  all: try (simpl; rewrite ?app_nil_r, <- ?app_assoc; reflexivity).
  all: split;
    [intros [] c Hv Hc; try discriminate; simplify_eq;
     rewrite ?code_of_set_code_eq; try reflexivity;
     rewrite code_of_set_code_ne by congruence;
     apply code_of_set_code_eq |].
  all: split;
    [intros e k' v Hne; rewrite ?code_of_set_code_ne; try reflexivity;
     intros [= -> -> ?]; now apply Hne |].
  all: split;
    [intros e k' v Hs; repeat apply code_of_set_code_some; assumption |].
  all: rewrite ?orb_true_r, ?orb_false_r; auto.
Qed.


Lemma created_by_spec r nr :
  nr ∈ created_by g er r ->
  nr = entry_of (nr_type nr) r
  /\ used_as (nr_type nr) r.2 = true
  /\ er !! normalize g (label_of (nr_type nr) r.2) = None.
Proof.
  unfold created_by. intros [H | H]%elem_of_app.
  - destruct (used_as NORMAL r.2) eqn:Hu; [| inversion H].
    destruct (er !! _) eqn:He; [inversion H |].
    apply list_elem_of_singleton in H as ->. auto.
  - destruct (used_as PRINCIPAL r.2) eqn:Hu; [| inversion H].
    destruct (er !! _) eqn:He; [inversion H |].
    apply list_elem_of_singleton in H as ->. auto.
Qed.

Lemma created_by_key r nr : nr ∈ created_by g er r -> nr_key nr = r.1.
Proof. intros (-> & _)%created_by_spec. reflexivity. Qed.

Lemma created_by_missing r v :
  used_as v r.2 = true -> er !! normalize g (label_of v r.2) = None ->
  entry_of v r ∈ created_by g er r.
Proof.
  intros Hu He. unfold created_by. apply elem_of_app.
  destruct v; [left | right]; rewrite Hu, He; now left.
Qed.

Lemma created_by_NoDup r :
  NoDup ((fun nr => (nr_key nr, nr_type nr)) <$> created_by g er r).
Proof.
  unfold created_by.
  destruct (used_as NORMAL r.2), (used_as PRINCIPAL r.2);
    repeat match goal with |- context [er !! ?k] => destruct (er !! k) end;
    simpl; repeat constructor; try (intros H; inversion H; fail).
  intros [= H]%list_elem_of_singleton.
Qed.

(** The loop as a whole. *)
Lemma plan_fold_created (p0 : plan) (roles : list (string * role_data)) :
  roles_to_create (foldl (plan_role g eid er) p0 roles)
  = roles_to_create p0 ++ (roles ≫= created_by g er).
Proof.
  induction roles as [|r roles IH] using rev_ind; simpl.
  - now rewrite app_nil_r.
  - rewrite foldl_app. simpl.
    destruct (plan_role_step (foldl (plan_role g eid er) p0 roles) r)
      as (new & Hrtc & -> & _).
    rewrite Hrtc, IH, bind_app. simpl. now rewrite app_nil_r, app_assoc.
Qed.

Lemma plan_fold_other (p0 : plan) (roles : list (string * role_data)) e k v :
  (e = eid -> k ∉ roles.*1) ->
  code_of (plan_codes (foldl (plan_role g eid er) p0 roles)) e k v
  = code_of (plan_codes p0) e k v.
Proof.
  induction roles as [|r roles IH] using rev_ind; simpl; [reflexivity |].
  intros H. rewrite foldl_app. simpl.
  destruct (plan_role_step (foldl (plan_role g eid er) p0 roles) r)
    as (_ & _ & _ & _ & Hother & _).
  rewrite Hother.
  - apply IH. intros He Hin. apply (H He). rewrite fmap_app. apply elem_of_app. now left.
  - intros [= He Hk]. apply (H He). rewrite fmap_app, Hk. apply elem_of_app.
    right. now left.
Qed.

Lemma plan_fold_some (p0 : plan) (roles : list (string * role_data)) e k v :
  is_Some (code_of (plan_codes p0) e k v) ->
  is_Some (code_of (plan_codes (foldl (plan_role g eid er) p0 roles)) e k v).
Proof.
  induction roles as [|r roles IH] using rev_ind; simpl; [auto |].
  intros H. rewrite foldl_app. simpl.
  destruct (plan_role_step (foldl (plan_role g eid er) p0 roles) r)
    as (_ & _ & _ & _ & _ & Hsome & _).
  apply Hsome, IH, H.
Qed.

(** A used variant whose label is in the grammar has a code after the
    loop; with distinct role keys it is the code of the label. *)
Lemma plan_fold_reused_some (p0 : plan) (roles : list (string * role_data)) r v c :
  r ∈ roles -> used_as v r.2 = true ->
  er !! normalize g (label_of v r.2) = Some c ->
  is_Some (code_of (plan_codes (foldl (plan_role g eid er) p0 roles)) eid r.1 v).
Proof.
  induction roles as [|r' roles IH] using rev_ind; intros Hin Hu He.
  - inversion Hin.
  - rewrite foldl_app. simpl.
    destruct (plan_role_step (foldl (plan_role g eid er) p0 roles) r')
      as (_ & _ & _ & Hcode & _ & Hsome & _).
    apply elem_of_app in Hin as [Hin | ->%list_elem_of_singleton].
    + apply Hsome, IH; assumption.
    + rewrite (Hcode v c Hu He). eauto.
Qed.

Lemma plan_fold_reused (p0 : plan) (roles : list (string * role_data)) r v c :
  NoDup roles.*1 ->
  r ∈ roles -> used_as v r.2 = true ->
  er !! normalize g (label_of v r.2) = Some c ->
  code_of (plan_codes (foldl (plan_role g eid er) p0 roles)) eid r.1 v = Some c.
Proof.
  induction roles as [|r' roles IH] using rev_ind; intros Hnd Hin Hu He.
  - inversion Hin.
  - rewrite foldl_app. simpl.
    rewrite fmap_app in Hnd. apply NoDup_app in Hnd as (Hnd & Hdisj & _).
    destruct (plan_role_step (foldl (plan_role g eid er) p0 roles) r')
      as (_ & _ & _ & Hcode & Hother & _).
    apply elem_of_app in Hin as [Hin | ->%list_elem_of_singleton].
    + rewrite Hother; [now apply IH |].
      intros [= Hk]. apply (Hdisj r.1).
      * apply list_elem_of_fmap. eauto.
      * rewrite Hk. now left.
    + now apply Hcode.
Qed.

Lemma created_fold_NoDup (roles : list (string * role_data)) :
  NoDup roles.*1 ->
  NoDup ((fun nr => (nr_key nr, nr_type nr)) <$> (roles ≫= created_by g er)).
Proof.
  induction roles as [|r roles IH]; intros Hnd; simpl; [constructor |].
  apply NoDup_cons in Hnd as [Hr Hnd].
  rewrite fmap_app. apply NoDup_app. split_and!.
  - apply created_by_NoDup.
  - intros [k v] (nr & [= -> ->] & Hin)%list_elem_of_fmap
           (nr' & [= Hk Hv] & Hin')%list_elem_of_fmap.
    apply list_elem_of_bind in Hin' as (r' & Hin' & Hr').
    apply created_by_key in Hin, Hin'.
    apply Hr. apply list_elem_of_fmap. exists r'. split; [congruence | assumption].
  - now apply IH.
Qed.

End PlanFacts.

(** *** The codes found in the grammar *)

Lemma contains_app_r (sub a b : string) :
  contains sub b = true -> contains sub (a +:+ b) = true.
Proof.
  intros H. induction a as [|c a IH]; [assumption |].
  rewrite str_app_cons. simpl. rewrite IH. apply orb_true_r.
Qed.

Lemma working_sentence_labels (rec : t_rec) :
  contains "[LABELS:]" (working_sentence rec) = true.
Proof.
  unfold working_sentence.
  destruct (contains "[LABELS:]" (strip (tsentence rec))) eqn:E; [assumption |].
  apply contains_app_r. reflexivity.
Qed.

Section ParseFacts.

Variable g : globals.

Lemma labels_fold_lookup (rid : Z) (labels : list string) (er : gmap string Z) l c :
  foldl (fun ex lbl => <[normalize g lbl := rid]> ex) er labels !! l = Some c ->
  er !! l = Some c \/ c = rid.
Proof.
  revert er. induction labels as [|x labels IH]; intros er; simpl; [auto |].
  intros H. apply IH in H as [H | H]; [| auto].
  destruct (decide (normalize g x = l)) as [<- | Hne].
  - rewrite lookup_insert_eq in H. injection H as <-. auto.
  - rewrite lookup_insert_ne in H by assumption. auto.
Qed.

Lemma parse_fold_spec (blocks : list (Z * string)) (er0 : gmap string Z) (m0 : Z) :
  let r := foldl (parse_block g) (er0, m0) blocks in
  m0 <= r.2
  /\ (forall c, c ∈ blocks.*1 -> c <= r.2)
  /\ (r.2 = m0 \/ r.2 ∈ blocks.*1)
  /\ (forall l c, r.1 !! l = Some c -> er0 !! l = Some c \/ c ∈ blocks.*1).
Proof.
  induction blocks as [|[rid block] blocks IH] using rev_ind; simpl.
  - split_and!; [lia | intros c H; inversion H | auto | auto].
  - rewrite foldl_app. simpl.
    destruct (foldl (parse_block g) (er0, m0) blocks) as [er m] eqn:E.
    simpl in IH. destruct IH as (H1 & H2 & H3 & H4). simpl.
    rewrite fmap_app. simpl. split_and!.
    + lia.
    + intros c [Hc | Hc%list_elem_of_singleton]%elem_of_app.
      * specialize (H2 c Hc). lia.
      * subst. lia.
    + destruct (Z.max_spec m rid) as [[_ ->] | [_ ->]].
      * right. apply elem_of_app. right. now left.
      * destruct H3 as [-> | H3]; [now left |].
        right. apply elem_of_app. now left.
    + intros l c H. apply labels_fold_lookup in H as [H | ->].
      * apply H4 in H as [H | H]; [now left |].
        right. apply elem_of_app. now left.
      * right. apply elem_of_app. right. now left.
Qed.

(** [max_role_id] is the maximum of 0 and of the codes of the grammar, and
    every code bound to a label is a code of the grammar. *)
Lemma parse_existing_spec (rec : t_rec) :
  let sent := working_sentence rec in
  let existing := (grammar_blocks sent).*1 in
  (forall c, c ∈ existing -> c <= (parse_existing g sent).2)
  /\ ((parse_existing g sent).2 = 0 \/ (parse_existing g sent).2 ∈ existing)
  /\ (forall l c, (parse_existing g sent).1 !! l = Some c -> c ∈ existing).
Proof.
  cbv zeta. unfold parse_existing. rewrite working_sentence_labels.
  destruct (parse_fold_spec (grammar_blocks (working_sentence rec)) ∅ 0)
    as (_ & H2 & H3 & H4).
  split_and!; [exact H2 | exact H3 |].
  intros l c H. apply H4 in H as [H | H]; [| assumption].
  rewrite lookup_empty in H. discriminate.
Qed.

End ParseFacts.

(** *** One row of T.DBF *)

Lemma roles_for_this_event_NoDup (ru : list (string * role_data)) (key : string) :
  NoDup ru.*1 -> NoDup (roles_for_this_event key ru).*1.
Proof.
  unfold roles_for_this_event. intros H.
  induction ru as [|r l IH]; [constructor |].
  rewrite fmap_cons in H. apply NoDup_cons in H as [Hr Hl]. rewrite filter_cons.
  destruct (decide _); simpl; [| now apply IH].
  apply NoDup_cons. split; [| now apply IH].
  intros (r' & Hk & Hin)%list_elem_of_fmap. apply list_elem_of_filter in Hin as [_ Hin].
  apply Hr. apply list_elem_of_fmap. eauto.
Qed.

Section RecordFacts.

Variable g : globals.
Variable ru : list (string * role_data).

Lemma roles_for_this_event_elem (key : string) (r : string * role_data) :
  r ∈ roles_for_this_event key ru <-> key ∈ events r.2 /\ r ∈ ru.
Proof. unfold roles_for_this_event. now rewrite list_elem_of_filter. Qed.

(** The codes that [sync_record] returns. *)
Lemma sync_record_codes (done : list t_rec) (ids : gmap string Z)
      (rc : gmap Z (gmap string role_pair)) (rec : t_rec) :
  (sync_record g ru (done, ids, rc) rec).2 =
  if is_nil (roles_for_this_event (normalize g (strip (etypename rec))) ru)
  then <[etypenum rec := ∅]> rc
  else alloc_codes
         (record_alloc g (record_plan g ru (<[etypenum rec := ∅]> rc) rec) rec).
Proof.
  unfold sync_record.
  destruct (is_nil _); [reflexivity |].
  destruct (negb (is_nil (roles_to_create _)) || _ || _) eqn:E; [reflexivity |].
  simpl. apply orb_false_iff in E as [E _]. apply orb_false_iff in E as [E _].
  apply negb_false_iff in E. unfold record_alloc.
  destruct (roles_to_create _); [reflexivity | discriminate].
Qed.

Lemma sync_record_ids (done : list t_rec) (ids : gmap string Z)
      (rc : gmap Z (gmap string role_pair)) (rec : t_rec) :
  (sync_record g ru (done, ids, rc) rec).1.2 =
  <[normalize g (strip (etypename rec)) := etypenum rec]> ids.
Proof.
  unfold sync_record. destruct (is_nil _); [reflexivity |].
  destruct (negb _ || _ || _); reflexivity.
Qed.

(** The codes of the other event types are not touched. *)
Lemma sync_record_other (done : list t_rec) (ids : gmap string Z)
      (rc : gmap Z (gmap string role_pair)) (rec : t_rec) e k v :
  e <> etypenum rec ->
  code_of (sync_record g ru (done, ids, rc) rec).2 e k v = code_of rc e k v.
Proof.
  intros He. rewrite sync_record_codes.
  destruct (is_nil _).
  - now apply code_of_insert_empty_ne.
  - unfold record_alloc, record_plan.
    rewrite alloc_other by (intros ->; contradiction). simpl.
    rewrite plan_fold_other by (intros ->; contradiction). simpl.
    now apply code_of_insert_empty_ne.
Qed.

(** Every used variant of a role of this event type has a code. *)
Lemma sync_record_some (done : list t_rec) (ids : gmap string Z)
      (rc : gmap Z (gmap string role_pair)) (rec : t_rec) r v :
  r ∈ ru -> normalize g (strip (etypename rec)) ∈ events r.2 ->
  used_as v r.2 = true ->
  is_Some (code_of (sync_record g ru (done, ids, rc) rec).2 (etypenum rec) r.1 v).
Proof.
  intros Hin Hev Hu. rewrite sync_record_codes.
  assert (Hr : r ∈ roles_for_this_event (normalize g (strip (etypename rec))) ru).
  { now apply roles_for_this_event_elem. }
  destruct (roles_for_this_event _ ru) as [|r0 roles] eqn:E; [inversion Hr |].
  simpl. rewrite <- E in Hr. unfold record_alloc. apply alloc_some.
  unfold record_plan.
  destruct ((parse_existing g (working_sentence rec)).1
              !! normalize g (label_of v r.2)) as [c|] eqn:El.
  - left. eapply plan_fold_reused_some; eauto.
  - right. split; [reflexivity |]. exists (entry_of v r).
    split; [| auto]. rewrite plan_fold_created. simpl.
    apply list_elem_of_bind. exists r. split; [| assumption].
    now apply created_by_missing.
Qed.

End RecordFacts.

(** *** The whole table *)

Lemma update_some (g : globals) (ru : list (string * role_data)) (t : list t_rec)
      (acc : list t_rec * gmap string Z * gmap Z (gmap string role_pair))
      (rec : t_rec) (r : string * role_data) (v : variant) :
  NoDup (etypenum <$> t) -> rec ∈ t ->
  r ∈ ru -> normalize g (strip (etypename rec)) ∈ events r.2 ->
  used_as v r.2 = true ->
  is_Some (code_of (foldl (sync_record g ru) acc t).2 (etypenum rec) r.1 v).
Proof.
  intros Hnd Hrec Hr Hev Hu.
  induction t as [|x t IH] using rev_ind; [inversion Hrec |].
  rewrite foldl_app. simpl.
  rewrite fmap_app in Hnd. apply NoDup_app in Hnd as (Hnd & Hdisj & _).
  destruct (foldl (sync_record g ru) acc t) as [[done ids] rc] eqn:E.
  apply elem_of_app in Hrec as [Hrec | ->%list_elem_of_singleton].
  - rewrite sync_record_other; [now apply IH |].
    intros He. apply (Hdisj (etypenum rec)).
    + apply list_elem_of_fmap. eauto.
    + rewrite He. now left.
  - now apply sync_record_some.
Qed.

(** ** The classification of roles *)

Section ClassifyFacts.

Variable g : globals.

Lemma ru_lookup_alter (f : role_data -> role_data) (k k' : string)
      (ru : list (string * role_data)) :
  ru_lookup k (ru_alter f k' ru)
  = if String.eqb k k' then f <$> ru_lookup k ru else ru_lookup k ru.
Proof.
  induction ru as [|[k0 d] ru IH]; simpl.
  - now destruct (String.eqb k k').
  - destruct (String.eqb_spec k' k0) as [-> | Hne]; simpl.
    + destruct (String.eqb_spec k k0) as [-> | Hne']; simpl; reflexivity.
    + rewrite IH. destruct (String.eqb_spec k k0) as [-> | Hne']; simpl.
      * destruct (String.eqb_spec k0 k'); [congruence | reflexivity].
      * reflexivity.
Qed.

Lemma ru_lookup_snoc (k k' : string) (d : role_data) (ru : list (string * role_data)) :
  ru_lookup k (ru ++ [(k', d)])
  = match ru_lookup k ru with
    | Some x => Some x
    | None => if String.eqb k k' then Some d else None
    end.
Proof.
  induction ru as [|[k0 d0] ru IH]; simpl; [reflexivity |].
  destruct (String.eqb k k0); [reflexivity | apply IH].
Qed.

Lemma ru_lookup_elem (k : string) (d : role_data) (ru : list (string * role_data)) :
  ru_lookup k ru = Some d -> (k, d) ∈ ru.
Proof.
  induction ru as [|[k0 d0] ru IH]; simpl; [discriminate |].
  destruct (String.eqb_spec k k0) as [-> | Hne].
  - intros [= ->]. now left.
  - intros H. right. now apply IH.
Qed.

Lemma ru_lookup_analyze_shar (owner_id event_name_norm : string)
      (ru : list (string * role_data)) (sh : shar) (k : string) :
  ru_lookup k (analyze_shar g owner_id event_name_norm ru sh)
  = if String.eqb k (normalize g (shar_role sh))
    then Some (touched g owner_id event_name_norm sh ru)
    else ru_lookup k ru.
Proof.
  unfold analyze_shar, touched.
  destruct (String.eqb (shar_id sh) owner_id);
    rewrite !ru_lookup_alter;
    destruct (String.eqb_spec k (normalize g (shar_role sh))) as [-> | Hne];
    destruct (ru_lookup (normalize g (shar_role sh)) ru) as [d|] eqn:E;
    rewrite ?ru_lookup_snoc, ?E, ?String.eqb_refl; simpl;
    rewrite ?orb_true_r, ?orb_false_r; try reflexivity.
  all: destruct (ru_lookup k ru); try reflexivity.
  all: destruct (String.eqb_spec k (normalize g (shar_role sh))); congruence.
Qed.


Implicit Types (refs : list (string * string * shar)) (ref : string * string * shar).

Lemma classify_references (evs : list (string * string * list shar)) :
  classify g evs
  = foldl (fun ru ref => analyze_shar g ref.1.1 ref.1.2 ru ref.2) [] (references evs).
Proof.
  unfold classify, references. generalize (@nil (string * role_data)).
  induction evs as [|[[o e] shs] evs IH]; intros ru; simpl; [reflexivity |].
  rewrite foldl_app, foldl_fmap. simpl. apply IH.
Qed.

Lemma references_elem (evs : list (string * string * list shar)) o e sh :
  (o, e, sh) ∈ references evs <-> exists shs, (o, e, shs) ∈ evs /\ sh ∈ shs.
Proof.
  unfold references. rewrite list_elem_of_bind. split.
  - intros ([[o' e'] shs] & Hin & Hev). simpl in Hin.
    apply list_elem_of_fmap in Hin as (sh' & [= -> -> ->] & Hsh). eauto.
  - intros (shs & Hev & Hsh). exists (o, e, shs). split; [| assumption].
    simpl. apply list_elem_of_fmap. eauto.
Qed.

(** The table after a list of references, role by role: a role has an
    entry when some reference carries it; its principal flag is raised when
    some reference with this role is by the owner of its event, its normal
    flag when some is by somebody else, whatever the events; its event set
    holds the events of all these references. *)
Lemma classified_role refs (k : string) :
  let ru := foldl (fun ru ref => analyze_shar g ref.1.1 ref.1.2 ru ref.2) [] refs in
  match ru_lookup k ru with
  | None => forall ref, ref ∈ refs -> normalize g (shar_role ref.2) <> k
  | Some d =>
      (principal d = true <->
       exists ref, ref ∈ refs /\ normalize g (shar_role ref.2) = k
                   /\ shar_id ref.2 = ref.1.1)
      /\ (normal d = true <->
          exists ref, ref ∈ refs /\ normalize g (shar_role ref.2) = k
                      /\ shar_id ref.2 <> ref.1.1)
      /\ (forall e, e ∈ events d <->
                    exists ref, ref ∈ refs /\ normalize g (shar_role ref.2) = k
                                /\ ref.1.2 = e)
  end.
Proof.
  induction refs as [|ref refs IH] using rev_ind; cbv zeta.
  - simpl. intros ref Hin. inversion Hin.
  - rewrite foldl_app. simpl. cbv zeta in IH.
    set (ru := foldl _ [] refs) in *.
    rewrite ru_lookup_analyze_shar.
    assert (Hsnoc : forall (P : string * string * shar -> Prop),
               (exists r, r ∈ refs ++ [ref] /\ P r)
               <-> (exists r, r ∈ refs /\ P r) \/ P ref).
    { intros P. split.
      - intros (r & [Hin | ->%list_elem_of_singleton]%elem_of_app & HP); eauto.
      - intros [(r & Hin & HP) | HP].
        + exists r. split; [apply elem_of_app; now left | assumption].
        + exists ref. split; [apply elem_of_app; right; now left | assumption]. }
    destruct (String.eqb_spec k (normalize g (shar_role ref.2))) as [-> | Hne].
    + unfold touched.
      destruct (ru_lookup (normalize g (shar_role ref.2)) ru) as [d|] eqn:E; simpl.
      * destruct IH as (Hp & Hn & He). split_and!.
        -- rewrite Hsnoc, orb_true_iff, Hp.
           destruct (String.eqb_spec (shar_id ref.2) ref.1.1); intuition congruence.
        -- rewrite Hsnoc, orb_true_iff, Hn, negb_true_iff.
           destruct (String.eqb_spec (shar_id ref.2) ref.1.1); intuition congruence.
        -- intros e. rewrite Hsnoc, elem_of_union, elem_of_singleton, He.
           intuition congruence.
      * split_and!.
        -- rewrite Hsnoc.
           destruct (String.eqb_spec (shar_id ref.2) ref.1.1); split; intros H; auto;
             try discriminate.
           destruct H as [(r & Hin & Hk & _) | (_ & Hs)]; [| contradiction].
           exfalso. eapply IH; eauto.
        -- rewrite Hsnoc, negb_true_iff.
           destruct (String.eqb_spec (shar_id ref.2) ref.1.1); split; intros H; auto;
             try discriminate.
           destruct H as [(r & Hin & Hk & _) | (_ & Hs)]; [| contradiction].
           exfalso. eapply IH; eauto.
        -- intros e. rewrite Hsnoc, elem_of_union, elem_of_singleton. split.
           ++ intros [H | ->]; [apply elem_of_empty in H as [] | auto].
           ++ intros [(r & Hin & Hk & _) | (_ & <-)]; [| auto].
              exfalso. eapply IH; eauto.
    + destruct (ru_lookup k ru) as [d|] eqn:E.
      * destruct IH as (Hp & Hn & He). split_and!.
        -- rewrite Hsnoc, Hp. intuition congruence.
        -- rewrite Hsnoc, Hn. intuition congruence.
        -- intros e. rewrite Hsnoc, He. intuition congruence.
      * intros r [Hin | ->%list_elem_of_singleton]%elem_of_app; [now apply IH |].
        congruence.
Qed.

End ClassifyFacts.

(** C8: the usage flags of a role are raised by its references in any
    event: the principal flag when some reference with this role is by the
    owner of its event, the normal flag when some reference is by another
    person, and the event set collects the events of all its references.
    Hence, for a table of event types with distinct numbers, a role that is
    used as principal somewhere has a PRINCIPAL code, after the Synchronizer,
    in every event type in whose event it appears at all. *)
Theorem global_role_scoping (g : globals)
      (evs : list (string * string * list shar)) (t : list t_rec)
      (rec : t_rec) (k : string) :
  let ru := classify g evs in
  let role_codes := (update_tmg_structure g ru t).2 in
  let key := normalize g (strip (etypename rec)) in
  (forall d, ru_lookup k ru = Some d ->
     (principal d = true <->
      exists o e shs sh, (o, e, shs) ∈ evs /\ sh ∈ shs
                         /\ normalize g (shar_role sh) = k /\ shar_id sh = o)
     /\ (normal d = true <->
         exists o e shs sh, (o, e, shs) ∈ evs /\ sh ∈ shs
                            /\ normalize g (shar_role sh) = k /\ shar_id sh <> o)
     /\ (forall e, e ∈ events d <->
                   exists o shs sh, (o, e, shs) ∈ evs /\ sh ∈ shs
                                    /\ normalize g (shar_role sh) = k))
  /\ (NoDup (etypenum <$> t) -> rec ∈ t ->
      (exists o e shs sh, (o, e, shs) ∈ evs /\ sh ∈ shs
                          /\ normalize g (shar_role sh) = k /\ shar_id sh = o) ->
      (exists o shs sh, (o, key, shs) ∈ evs /\ sh ∈ shs
                        /\ normalize g (shar_role sh) = k) ->
      exists c, code_of role_codes (etypenum rec) k PRINCIPAL = Some c).
Proof.
  cbv zeta.
  assert (Hchar : forall d, ru_lookup k (classify g evs) = Some d ->
     (principal d = true <->
      exists o e shs sh, (o, e, shs) ∈ evs /\ sh ∈ shs
                         /\ normalize g (shar_role sh) = k /\ shar_id sh = o)
     /\ (normal d = true <->
         exists o e shs sh, (o, e, shs) ∈ evs /\ sh ∈ shs
                            /\ normalize g (shar_role sh) = k /\ shar_id sh <> o)
     /\ (forall e, e ∈ events d <->
                   exists o shs sh, (o, e, shs) ∈ evs /\ sh ∈ shs
                                    /\ normalize g (shar_role sh) = k)).
  { intros d Hd. pose proof (classified_role g (references evs) k) as H.
    cbv zeta in H. rewrite <- classify_references, Hd in H.
    destruct H as (Hp & Hn & He). split_and!.
    - rewrite Hp. split.
      + intros ([[o e] sh] & Hin & Hk & Hs). simpl in *.
        apply references_elem in Hin as (shs & Hev & Hsh). eauto 10.
      + intros (o & e & shs & sh & Hev & Hsh & Hk & Hs).
        exists (o, e, sh). split; [apply references_elem; eauto | auto].
    - rewrite Hn. split.
      + intros ([[o e] sh] & Hin & Hk & Hs). simpl in *.
        apply references_elem in Hin as (shs & Hev & Hsh). eauto 10.
      + intros (o & e & shs & sh & Hev & Hsh & Hk & Hs).
        exists (o, e, sh). split; [apply references_elem; eauto | auto].
    - intros e. rewrite He. split.
      + intros ([[o e'] sh] & Hin & Hk & <-). simpl in *.
        apply references_elem in Hin as (shs & Hev & Hsh). eauto 10.
      + intros (o & shs & sh & Hev & Hsh & Hk).
        exists (o, e, sh). split; [apply references_elem; eauto | auto]. }
  split; [exact Hchar |].
  intros Hnd Hrec Hprin (o & shs & sh & Hev & Hsh & Hk).
  destruct (ru_lookup k (classify g evs)) as [d|] eqn:Hd.
  - destruct (Hchar d eq_refl) as (Hp & _ & He).
    apply Hp in Hprin. apply ru_lookup_elem in Hd.
    unfold update_tmg_structure.
    apply (update_some g _ t _ rec (k, d) PRINCIPAL);
      [exact Hnd | exact Hrec | exact Hd
      | simpl; apply He; exists o, shs, sh; auto | exact Hprin].
  - exfalso. pose proof (classified_role g (references evs) k) as H.
    cbv zeta in H. rewrite <- classify_references, Hd in H.
    apply (H (o, normalize g (strip (etypename rec)), sh)); [| assumption].
    apply references_elem. eauto.
Qed.

(** *** The allocation of codes *)

Lemma alloc_insertion (eid : Z) (l : list new_role) (a0 : alloc) :
  insertion_str (foldl (alloc_role eid) a0 l)
  = insertion_str a0 +:+ entries_text (current_id a0) l.
Proof.
  revert a0. induction l as [|x l IH]; intros a0; simpl.
  - now rewrite str_app_empty_r.
  - rewrite IH. simpl. unfold label_entry. now rewrite !str_app_assoc.
Qed.

Lemma NoDup_fst_eq {A B} (l : list (A * B)) (x y : A * B) :
  NoDup l.*1 -> x ∈ l -> y ∈ l -> x.1 = y.1 -> x = y.
Proof.
  induction l as [|z l IH]; intros Hnd Hx Hy Heq; [inversion Hx |].
  rewrite fmap_cons in Hnd. apply NoDup_cons in Hnd as [Hz Hnd].
  apply elem_of_cons in Hx as [-> | Hx]; apply elem_of_cons in Hy as [-> | Hy].
  - reflexivity.
  - exfalso. apply Hz. rewrite Heq. apply list_elem_of_fmap. eauto.
  - exfalso. apply Hz. rewrite <- Heq. apply list_elem_of_fmap. eauto.
  - now apply IH.
Qed.

(** X24: the allocation of codes for one row of T.DBF. With [existing] the
    codes that the pattern of roles reads in the grammar of the row and
    [existing_roles] the labels that the pattern of labels reads there:
    [max_role_id] is the maximum of [existing] (0 when there is none); the
    entry at index [i] of [roles_to_create] gets the code
    [max_role_id + i + 1], one more than the maximum of the codes read and
    of the codes given before it; this is the code in the text to insert
    and, for a table of usage with one entry per role, the code returned for
    the role; the codes read followed by the new ones are pairwise distinct
    when the codes read were. A used variant of a role whose normalized
    label is in [existing_roles] is not listed for creation and gets the
    code bound to the label, which is one of the codes read. A label that
    the grammar holds and the pattern of labels does not read back is
    outside this statement. *)
Theorem code_allocation (g : globals) (ru : list (string * role_data))
      (rc0 : gmap Z (gmap string role_pair)) (rec : t_rec) :
  let eid := etypenum rec in
  let sent := working_sentence rec in
  let existing := (grammar_blocks sent).*1 in
  let existing_roles := (parse_existing g sent).1 in
  let max_role_id := (parse_existing g sent).2 in
  let roles := roles_for_this_event (normalize g (strip (etypename rec))) ru in
  let p := record_plan g ru rc0 rec in
  let a := record_alloc g p rec in
  let new := seqZ (max_role_id + 1) (Z.of_nat (length (roles_to_create p))) in
  is_max_code existing max_role_id
  /\ roles_to_create p = roles ≫= created_by g existing_roles
  /\ insertion_str a = entries_text max_role_id (roles_to_create p)
  /\ (forall (i : nat) (nr : new_role),
        roles_to_create p !! i = Some nr ->
        is_max_code (existing ++ seqZ (max_role_id + 1) (Z.of_nat i))
                    (max_role_id + Z.of_nat i)
        /\ new !! i = Some (max_role_id + Z.of_nat i + 1)
        /\ (NoDup ru.*1 ->
            code_of (alloc_codes a) eid (nr_key nr) (nr_type nr)
            = Some (max_role_id + Z.of_nat i + 1)))
  /\ (NoDup existing -> NoDup (existing ++ new))
  /\ (NoDup ru.*1 ->
      forall (r : string * role_data) (v : variant) (c : Z),
        r ∈ roles -> used_as v r.2 = true ->
        existing_roles !! normalize g (label_of v r.2) = Some c ->
        c ∈ existing
        /\ code_of (alloc_codes a) eid r.1 v = Some c
        /\ forall nr, nr ∈ roles_to_create p -> (nr_key nr, nr_type nr) <> (r.1, v))
  /\ (forall (done : list t_rec) (ids : gmap string Z)
             (rc : gmap Z (gmap string role_pair)),
        rc0 = <[eid := ∅]> rc -> roles <> [] ->
        (sync_record g ru (done, ids, rc) rec).2 = alloc_codes a).
Proof.
  cbv zeta.
  destruct (parse_existing_spec g rec) as (Hmax1 & Hmax2 & Hbound). cbv zeta in *.
  set (m := (parse_existing g (working_sentence rec)).2) in *.
  set (er := (parse_existing g (working_sentence rec)).1) in *.
  set (existing := (grammar_blocks (working_sentence rec)).*1) in *.
  set (roles := roles_for_this_event (normalize g (strip (etypename rec))) ru).
  assert (Hrtc : roles_to_create (record_plan g ru rc0 rec) = roles ≫= created_by g er).
  { unfold record_plan. now rewrite plan_fold_created. }
  assert (Hm0 : 0 <= m).
  { destruct Hmax2 as [-> | Hin]; [lia |].
    unfold m, parse_existing. rewrite working_sentence_labels.
    now destruct (parse_fold_spec g (grammar_blocks (working_sentence rec)) ∅ 0)
      as (H & _). }
  split_and!.
  - split; assumption.
  - exact Hrtc.
  - unfold record_alloc. rewrite alloc_insertion. reflexivity.
  - intros i nr Hi. pose proof (lookup_lt_Some _ _ _ Hi) as Hlt. split_and!.
    + split.
      * intros c [Hc | Hc%elem_of_seqZ]%elem_of_app; [| lia].
        specialize (Hmax1 c Hc). lia.
      * destruct i as [|i].
        -- destruct Hmax2 as [H | H]; [left; lia |].
           right. replace (m + Z.of_nat 0) with m by lia.
           apply elem_of_app. now left.
        -- right. apply elem_of_app. right. apply elem_of_seqZ. lia.
    + rewrite lookup_seqZ_lt by lia. f_equal. lia.
    + intros Hnd. unfold record_alloc.
      rewrite (alloc_code_at _ _ _ i nr); [simpl; f_equal; lia | | exact Hi].
      rewrite Hrtc. apply created_fold_NoDup.
      now apply roles_for_this_event_NoDup.
  - intros Hnd. apply NoDup_app. split_and!; [assumption | | apply NoDup_seqZ].
    intros c Hc Hc'%elem_of_seqZ. specialize (Hmax1 c Hc). lia.
  - intros Hnd r v c Hr Hu Hc.
    assert (Hno : forall nr, nr ∈ roles_to_create (record_plan g ru rc0 rec) ->
                             (nr_key nr, nr_type nr) <> (r.1, v)).
    { intros nr Hin [= Hk Hv]. rewrite Hrtc in Hin.
      apply list_elem_of_bind in Hin as (r' & Hin & Hr').
      pose proof (created_by_key _ _ _ _ Hin) as Hk'.
      assert (r' = r) as ->.
      { apply (NoDup_fst_eq roles); auto.
        - now apply roles_for_this_event_NoDup.
        - congruence. }
      apply created_by_spec in Hin as (_ & _ & Hnone).
      rewrite Hv in Hnone. fold er in Hc. congruence. }
    split_and!.
    + eapply Hbound, Hc.
    + unfold record_alloc. rewrite alloc_other by (intros _; exact Hno). simpl.
      unfold record_plan. apply plan_fold_reused; auto.
      now apply roles_for_this_event_NoDup.
    + exact Hno.
  - intros done ids rc -> Hne. rewrite sync_record_codes.
    fold roles. destruct roles; [contradiction | reflexivity].
Qed.

(** ** The scenarios *)

(** Scenario A: the grammar of Marriage gains the NORMAL code of Buyer and
    the PRINCIPAL code of Principal Buyer, and two rows are created. *)
Example scenario_A :
  run_engine ScenarioA.g ScenarioA.gedcom ScenarioA.db
  = Some (ScenarioA.db',
          {| n_ok := 1; n_principal := 1; n_skip := 0; n_error := 0 |}).
Proof. reflexivity. Qed.

(** Scenario B: the same inputs again. *)
Example scenario_B :
  run_engine ScenarioA.g ScenarioA.gedcom ScenarioA.db'
  = Some (ScenarioA.db',
          {| n_ok := 0; n_principal := 0; n_skip := 2; n_error := 0 |}).
Proof. reflexivity. Qed.

Example scenario_A_passes :
  (update_tmg_structure ScenarioA.g
     (default [] (scan_role_usage ScenarioA.g ScenarioA.gedcom))
     (tbl_types ScenarioA.db)).2 = ScenarioA.role_codes
  /\ (update_tmg_structure ScenarioA.g
        (default [] (scan_role_usage ScenarioA.g ScenarioA.gedcom))
        (tbl_types ScenarioA.db)).1.2 = ScenarioA.evt_ids
  /\ load_persons_and_events (tbl_persons ScenarioA.db) (tbl_events ScenarioA.db)
       (tbl_witnesses ScenarioA.db) ScenarioA.gedcom = Some ScenarioA.ix
  /\ inject_witnesses ScenarioA.g ScenarioA.evt_ids ScenarioA.role_codes
       ScenarioA.ix [] ScenarioA.gedcom = Some ScenarioA.final.
Proof. split_and!; reflexivity. Qed.

(** Scenario C: no code for the role in the wanted variant and no code for
    WITNESS: the fixed code 2, and the label in front of the note. *)
Example scenario_C :
  run_engine Spouse.g Spouse.gedcom Spouse.db
  = Some ({| tbl_persons := tbl_persons Spouse.db;
             tbl_events := tbl_events Spouse.db;
             tbl_types := [{| etypename := "Marriage"; etypenum := 3;
                              tsentence := Spouse.grammar;
                              prinrole := false; witrole := true |}];
             tbl_witnesses := [Spouse.row] |},
          {| n_ok := 0; n_principal := 1; n_skip := 0; n_error := 0 |}).
Proof. reflexivity. Qed.

(** Scenario D: 1750 in the file, 1751 in the table. *)
Example scenario_D :
  (fun r => (tbl_witnesses r.1, r.2))
    <$> run_engine Spouse.g Spouse.gedcom Spouse.db_1751
  = Some ([], {| n_ok := 0; n_principal := 0; n_skip := 0; n_error := 1 |}).
Proof. reflexivity. Qed.

(** C1 at the failing input: with two interchange roles mapped to the
    label Buyer, the first run creates the codes 1 and 2 under the same
    label and injects two rows; the second run, on the database that the
    first one left, finds the code 2 for both roles and injects the first
    reference again, under the code 2. *)
Theorem second_run_injects_again :
  run_engine SharedLabel.g SharedLabel.gedcom SharedLabel.db
  = Some (SharedLabel.db1,
          {| n_ok := 2; n_principal := 0; n_skip := 0; n_error := 0 |})
  /\ run_engine SharedLabel.g SharedLabel.gedcom SharedLabel.db1
     = Some (SharedLabel.db2,
             {| n_ok := 1; n_principal := 0; n_skip := 1; n_error := 0 |}).
Proof. split; reflexivity. Qed.

(** C7 at the failing input: for a BIRT event with a nested TYPE line the
    scan files the witness under the key of the TYPE value, the injection
    pass keeps the event type of the tag; so the Synchronizer, which finds
    no event type of that key, creates no code, and the row is injected on
    the Birth event under the fixed code 2. *)
Theorem typed_standard_event_keys_differ :
  (current_event_name_norm
     <$> scan_lines TypedBirth.g scan_init TypedBirth.block)
  = Some (Some "ADOPTION")
  /\ ((fun acc => ctx_eid acc.1)
        <$> event_lines TypedBirth.g 1 TypedBirth.evt_ids TypedBirth.ix ∅
                        (ctx_init, TypedBirth.start) TypedBirth.block)
     = Some (TypedBirth.evt_ids !! "BIRTH")
  /\ TypedBirth.evt_ids !! "BIRTH" = Some 2
  /\ TypedBirth.evt_ids !! "ADOPTION" = None
  /\ (update_tmg_structure TypedBirth.g
        (default [] (scan_role_usage TypedBirth.g TypedBirth.gedcom))
        (tbl_types TypedBirth.db)).1.2 = TypedBirth.evt_ids
  /\ run_engine TypedBirth.g TypedBirth.gedcom TypedBirth.db
     = Some (TypedBirth.db',
             {| n_ok := 1; n_principal := 0; n_skip := 0; n_error := 0 |}).
Proof. split_and!; reflexivity. Qed.

(** C3 at the failing input: the role text [Buyer [old]] on a Marriage.
    The first run writes the label [Buyer [Old]] under the code 1. The next
    run reads the grammar back: the pattern of labels stops at an opening
    bracket, so the entry is read as the labels [Buyer ] and [Old]], the
    label of the role is bound to no code, and the role gets the new code
    2; the third run gives it the code 3. The grammar then holds the same
    label under three codes, and each run injects the reference again. *)
Theorem bracket_label_allocated_again :
  scan_role_usage BracketLabel.g BracketLabel.gedcom = Some BracketLabel.ru
  /\ update_tmg_structure BracketLabel.g BracketLabel.ru
       [event_type 3 "Marriage"]
     = ([BracketLabel.marriage BracketLabel.grammar1], BracketLabel.evt_ids,
        BracketLabel.role_codes 1)
  /\ (let sent := working_sentence (BracketLabel.marriage BracketLabel.grammar1) in
      (grammar_blocks sent).*1 = [1]
      /\ ((grammar_blocks sent).*2 ≫= finditer_lbl)
         = ["Buyer "; "Old]"; "Buyer "; "Old]"]
      /\ (parse_existing BracketLabel.g sent).1
         = <[ "OLD]" := 1 ]> {[ "BUYER" := 1 ]}
      /\ (parse_existing BracketLabel.g sent).1
           !! normalize BracketLabel.g "Buyer [Old]" = None)
  /\ update_tmg_structure BracketLabel.g BracketLabel.ru
       [BracketLabel.marriage BracketLabel.grammar1]
     = ([BracketLabel.marriage BracketLabel.grammar2], BracketLabel.evt_ids,
        BracketLabel.role_codes 2)
  /\ update_tmg_structure BracketLabel.g BracketLabel.ru
       [BracketLabel.marriage BracketLabel.grammar2]
     = ([BracketLabel.marriage BracketLabel.grammar3], BracketLabel.evt_ids,
        BracketLabel.role_codes 3)
  /\ (grammar_blocks (working_sentence (BracketLabel.marriage BracketLabel.grammar3))).*1
     = [1; 2; 3]
  /\ run_engine BracketLabel.g BracketLabel.gedcom BracketLabel.db
     = Some (BracketLabel.db1,
             {| n_ok := 1; n_principal := 0; n_skip := 0; n_error := 0 |})
  /\ run_engine BracketLabel.g BracketLabel.gedcom BracketLabel.db1
     = Some (BracketLabel.db2,
             {| n_ok := 1; n_principal := 0; n_skip := 0; n_error := 0 |}).
Proof. cbv zeta. split_and!; reflexivity. Qed.

(** ** Instances *)

(** The fall-back chain on a reference of role Buyer in an event type that
    has a code for WITNESS only. *)
Lemma role_code_fallback_chain_witness :
  insert_single_witness WitnessFallback.g WitnessFallback.reference 3 10
    WitnessFallback.role_codes {[ "I2" := 2 ]} ∅ [] 1 1 0
  = (Ok, [] ++ [WitnessFallback.row], ∅ ∪ {[ (10, 2, "00007", false) ]})
  /\ ({[ "I2" := 2 ]} : gmap string Z) !! wit_ged WitnessFallback.reference = Some 2
  /\ (ROLE WitnessFallback.row, WITMEMO WitnessFallback.row)
     = (PyStr "00007", "[Buyer] paid in cash").
Proof.
  assert (H1 : insert_single_witness WitnessFallback.g WitnessFallback.reference
                 3 10 WitnessFallback.role_codes {[ "I2" := 2 ]} ∅ [] 1 1 0
               = (Ok, [] ++ [WitnessFallback.row],
                  ∅ ∪ {[ (10, 2, "00007", false) ]})).
  { reflexivity. }
  assert (H2 : ({[ "I2" := 2 ]} : gmap string Z)
                 !! wit_ged WitnessFallback.reference = Some 2).
  { reflexivity. }
  split; [exact H1 |]. split; [exact H2 |].
  pose proof (role_code_fallback_chain _ _ _ _ _ _ _ _ _ _ _ _ _ _ _ H1 H2) as H.
  exact H.
Defined.

(** C6, counterexample: the role Buyer has no code, WITNESS has the NORMAL
    code 7. The row is written with the code 7, which is not the fixed
    code, and its note carries the label in brackets all the same. *)
Lemma label_prefix_on_witness_fallback :
  insert_single_witness WitnessFallback.g WitnessFallback.reference 3 10
    WitnessFallback.role_codes {[ "I2" := 2 ]} ∅ [] 1 1 0
  = (Ok, [WitnessFallback.row], ∅ ∪ {[ (10, 2, "00007", false) ]})
  /\ code_of WitnessFallback.role_codes 3
       (normalize WitnessFallback.g (wit_role WitnessFallback.reference)) NORMAL
     = None
  /\ code_of WitnessFallback.role_codes 3 "WITNESS" NORMAL = Some 7
  /\ ROLE WitnessFallback.row = PyStr (format_05d 7)
  /\ ROLE WitnessFallback.row <> PyStr (format_05d 2)
  /\ WITMEMO WitnessFallback.row
     = "[Buyer] " +:+ wit_note WitnessFallback.reference.
Proof.
  split_and!; try (reflexivity).
  vm_compute. discriminate.
Qed.

(** The call of Scenario A for the owner of the event. *)
Lemma self_reference_is_principal_witness :
  insert_single_witness ScenarioA.g
    {| wit_ged := "I1"; wit_role := "Buyer"; wit_note := "" |} 3 10
    ScenarioA.role_codes (ged_to_perno ScenarioA.ix) {[ ScenarioA.key1 ]}
    [ScenarioA.row1] 1 1 0
  = (Principal, [ScenarioA.row1] ++ [ScenarioA.row2],
     {[ ScenarioA.key1 ]} ∪ {[ ScenarioA.key2 ]})
  /\ ged_to_perno ScenarioA.ix !! "I1" = Some 1
  /\ PRIMARY ScenarioA.row2 = true
  /\ ROLE ScenarioA.row2 = PyStr (format_05d 2)
  /\ variant_code ScenarioA.role_codes 3 PRINCIPAL 2.
Proof.
  assert (H1 : insert_single_witness ScenarioA.g
                 {| wit_ged := "I1"; wit_role := "Buyer"; wit_note := "" |} 3 10
                 ScenarioA.role_codes (ged_to_perno ScenarioA.ix)
                 {[ ScenarioA.key1 ]} [ScenarioA.row1] 1 1 0
               = (Principal, [ScenarioA.row1] ++ [ScenarioA.row2],
                  {[ ScenarioA.key1 ]} ∪ {[ ScenarioA.key2 ]})).
  { reflexivity. }
  assert (H2 : ged_to_perno ScenarioA.ix !! "I1" = Some 1).
  { reflexivity. }
  split; [exact H1 |]. split; [exact H2 |].
  destruct (self_reference_is_principal _ _ _ _ _ _ _ _ _ _ _ _ _ _ _
              H1 H2 (or_introl eq_refl)) as (_ & Hp & _ & _ & Hc).
  split; [exact Hp |]. apply (Hc 2); [reflexivity | lia].
Defined.

(** C2, counterexample: the witness of a marriage is the second spouse.
    The scan compares interchange identifiers, so the role is used normally
    and the Synchronizer gives the event type no PRINCIPAL code at all; the
    injection compares person numbers with both participant slots, so the
    row gets PRIMARY, with the fixed code 2, which is the code of no variant
    of any role. *)
Lemma self_reference_without_principal_code :
  (update_tmg_structure Spouse.g
     (default [] (scan_role_usage Spouse.g Spouse.gedcom))
     (tbl_types Spouse.db)).2 = Spouse.role_codes
  /\ insert_single_witness Spouse.g
       {| wit_ged := "I2"; wit_role := "Bride"; wit_note := "" |} 3 10
       Spouse.role_codes (<[ "I2" := 2 ]> {[ "I1" := 1 ]}) ∅ [] 1 1 2
     = (Principal, [Spouse.row], ∅ ∪ {[ (10, 2, "00002", true) ]})
  /\ EPER Spouse.row = 2
  /\ PRIMARY Spouse.row = true
  /\ ROLE Spouse.row = PyStr (format_05d 2)
  /\ (forall v, ~ variant_code Spouse.role_codes 3 v 2)
  /\ (forall c, ~ variant_code Spouse.role_codes 3 PRINCIPAL c).
Proof.
  split_and!; try (reflexivity).
  - intros v (k & H). unfold code_of, Spouse.role_codes in H.
    rewrite lookup_singleton_eq in H. simpl in H.
    destruct (decide (k = "BRIDE")) as [-> | Hk].
    + rewrite lookup_singleton_eq in H. destruct v; discriminate.
    + rewrite lookup_singleton_ne in H by congruence. destruct v; discriminate.
  - intros c (k & H). unfold code_of, Spouse.role_codes in H.
    rewrite lookup_singleton_eq in H. simpl in H.
    destruct (decide (k = "BRIDE")) as [-> | Hk].
    + rewrite lookup_singleton_eq in H. discriminate.
    + rewrite lookup_singleton_ne in H by congruence. discriminate.
Qed.

(** The forms of the code 3. *)
Lemma dedup_key_coherent_witness :
  0 <= 3
  /\ normalize_role_id (PyStr " 003 ") = normalize_role_id (PyInt 3)
  /\ normalize_role_id (PyStr "3") = normalize_role_id (PyStr "00003").
Proof.
  assert (H0 : 0 <= 3) by lia.
  destruct (dedup_key_coherent 3 H0) as (Hn & Hf & Hs & _).
  split; [exact H0 |]. split.
  - apply Hn.
    change (PyStr " 003 ")
      with (PyStr (" " +:+ repeat_char "0" 2 +:+ str_of_int 3 +:+ " ")).
    apply form_str; [reflexivity | reflexivity | right; vm_compute; lia].
  - transitivity (normalize_role_id (PyInt 3)); [exact (Hn _ Hs) |].
    symmetry. exact (Hn _ Hf).
Defined.

(** A string of digits wider than the field is left as it is. *)
Example normalize_role_id_wide :
  normalize_role_id (PyStr "000003") = "000003"
  /\ normalize_role_id (PyInt 3) = "00003"
  /\ normalize_role_id (PyStr "3") = "00003"
  /\ normalize_role_id (PyStr "00003") = "00003"
  /\ normalize_role_id (PyStr "abc") = "abc".
Proof. split_and!; reflexivity. Qed.

(** The injection pass of Scenario A. *)
Lemma sequence_monotonic_witness :
  inject_witnesses ScenarioA.g ScenarioA.evt_ids ScenarioA.role_codes
    ScenarioA.ix [] ScenarioA.gedcom = Some ScenarioA.final
  /\ is_max_seq 10 [ScenarioA.row1] 1
  /\ SEQUENCE ScenarioA.row1 < SEQUENCE ScenarioA.row2.
Proof.
  assert (H1 : inject_witnesses ScenarioA.g ScenarioA.evt_ids
                 ScenarioA.role_codes ScenarioA.ix [] ScenarioA.gedcom
               = Some ScenarioA.final).
  { reflexivity. }
  split; [exact H1 |].
  destruct (sequence_monotonic _ _ _ _ _ _ _ H1) as (added & Htw & Hadd).
  simpl in Htw. subst added.
  destruct (Hadd [ScenarioA.row1] ScenarioA.row2 [] eq_refl) as (Hmax & Hlt).
  split; [exact Hmax |]. apply Hlt; [left | reflexivity].
Defined.

(** The event of Scenario D at the end of its block: no candidate, one
    error, nothing written. *)
Lemma injection_atomic_witness :
  truthy_int (ctx_eid Spouse.ctx) = true
  /\ ctx_witnesses Spouse.ctx <> []
  /\ truthy_int
       (find_target (gedcom_year (ctx_date Spouse.ctx))
          (default [] (events_index Spouse.ix_1751
                         !! (1, default 0 (ctx_eid Spouse.ctx))))) = false
  /\ flush_event Spouse.g Spouse.ctx 1 Spouse.ix_1751 Spouse.role_codes
       Spouse.start
     = {| tw := []; cache := ∅;
          tally := {| n_ok := 0; n_principal := 0; n_skip := 0; n_error := 1 |} |}.
Proof.
  assert (H1 : truthy_int (ctx_eid Spouse.ctx) = true) by reflexivity.
  assert (H2 : ctx_witnesses Spouse.ctx <> []) by discriminate.
  assert (H3 : truthy_int
                 (find_target (gedcom_year (ctx_date Spouse.ctx))
                    (default [] (events_index Spouse.ix_1751
                                   !! (1, default 0 (ctx_eid Spouse.ctx)))))
               = false) by reflexivity.
  split; [exact H1 |]. split; [exact H2 |]. split; [exact H3 |].
  exact (proj2 (injection_atomic Spouse.g) Spouse.ctx 1 Spouse.ix_1751
           Spouse.role_codes Spouse.start H1 H2 H3).
Defined.

(** The year 1750 of the file against the one candidate of 1751. *)
Lemma event_matching_witness :
  gedcom_year (Some "12 JUN 1750") = Some "1750"
  /\ extract_year_tmg (ev_edate Spouse.stored_1751) = Some "1751"
  /\ find_target (gedcom_year (Some "12 JUN 1750")) [Spouse.stored_1751] = None.
Proof.
  assert (H1 : gedcom_year (Some "12 JUN 1750") = Some "1750") by reflexivity.
  assert (H2 : extract_year_tmg (ev_edate Spouse.stored_1751) = Some "1751")
    by reflexivity.
  split; [exact H1 |]. split; [exact H2 |].
  destruct (event_matching (Some "12 JUN 1750") [Spouse.stored_1751])
    as (_ & _ & _ & H).
  apply (H "1750" H1). intros c Hc.
  apply list_elem_of_singleton in Hc. subst c.
  exists "1751". split; [exact H2 |]. split; discriminate.
Defined.

(** The role Buyer, principal on a Birth and normal on a Marriage, has a
    PRINCIPAL code in Marriage. *)
Lemma global_role_scoping_witness :
  NoDup (etypenum <$> TwoEvents.t)
  /\ TwoEvents.marriage ∈ TwoEvents.t
  /\ exists c,
       code_of (update_tmg_structure TwoEvents.g
                  (classify TwoEvents.g TwoEvents.evs) TwoEvents.t).2
               (etypenum TwoEvents.marriage) "BUYER" PRINCIPAL = Some c.
Proof.
  assert (H1 : NoDup (etypenum <$> TwoEvents.t)).
  { apply NoDup_cons. split; [| apply NoDup_singleton].
    intros H. apply list_elem_of_singleton in H. discriminate. }
  assert (H2 : TwoEvents.marriage ∈ TwoEvents.t) by (right; left).
  split; [exact H1 |]. split; [exact H2 |].
  apply (proj2 (global_role_scoping TwoEvents.g TwoEvents.evs TwoEvents.t
                  TwoEvents.marriage "BUYER") H1 H2).
  - exists "I1", "BIRTH", [{| shar_id := "I1"; shar_role := "Buyer" |}],
      {| shar_id := "I1"; shar_role := "Buyer" |}.
    split; [left |]. split; [left |]. split; reflexivity.
  - exists "I1", [{| shar_id := "I2"; shar_role := "Buyer" |}],
      {| shar_id := "I2"; shar_role := "Buyer" |}.
    split; [right; left |]. split; [left | reflexivity].
Defined.

(** The codes of that run. *)
Example global_role_scoping_codes :
  let rc := (update_tmg_structure TwoEvents.g
               (classify TwoEvents.g TwoEvents.evs) TwoEvents.t).2 in
  code_of rc 3 "BUYER" NORMAL = Some 1
  /\ code_of rc 3 "BUYER" PRINCIPAL = Some 2
  /\ code_of rc 2 "BUYER" NORMAL = Some 1
  /\ code_of rc 2 "BUYER" PRINCIPAL = Some 2.
Proof. cbv zeta. split_and!; reflexivity. Qed.

(** A grammar with the codes 1 and 2: WITNESS keeps the code 2, the two
    variants of BUYER get 3 and 4. *)
Lemma code_allocation_witness :
  let a := record_alloc Reuse.g (record_plan Reuse.g Reuse.ru ∅ Reuse.rec)
             Reuse.rec in
  (grammar_blocks (working_sentence Reuse.rec)).*1 = [1; 2]
  /\ NoDup ([1; 2] ++ seqZ 3 2)
  /\ code_of (alloc_codes a) 3 "WITNESS" NORMAL = Some 2
  /\ code_of (alloc_codes a) 3 "BUYER" NORMAL = Some 3
  /\ code_of (alloc_codes a) 3 "BUYER" PRINCIPAL = Some 4.
Proof.
  cbv zeta.
  assert (H1 : (grammar_blocks (working_sentence Reuse.rec)).*1 = [1; 2])
    by reflexivity.
  assert (H2 : NoDup (Reuse.ru).*1).
  { apply NoDup_cons. split; [| apply NoDup_singleton].
    intros H. apply list_elem_of_singleton in H. discriminate. }
  assert (H3 : NoDup ((grammar_blocks (working_sentence Reuse.rec)).*1)).
  { rewrite H1. apply NoDup_cons. split; [| apply NoDup_singleton].
    intros H. apply list_elem_of_singleton in H. discriminate. }
  destruct (code_allocation Reuse.g Reuse.ru ∅ Reuse.rec)
    as (_ & _ & _ & Hnew & Hnd & Hreuse & _).
  split; [exact H1 |]. split; [exact (Hnd H3) |]. split.
  - apply (Hreuse H2 Reuse.witness_role NORMAL 2); [left | reflexivity ..].
  - split.
    + exact (proj2 (proj2 (Hnew 0%nat _ eq_refl)) H2).
    + exact (proj2 (proj2 (Hnew 1%nat _ eq_refl)) H2).
Defined.

(** * Further properties of the code *)

(** ** String normalisation *)

Module PyStrMore.

Import PyStr PyStrFacts.

Lemma rstrip_idem p s : rstrip_by p (rstrip_by p s) = rstrip_by p s.
Proof.
  induction s as [|c s IH]; [reflexivity |]. simpl.
  destruct (is_empty (rstrip_by p s) && p c) eqn:E; [reflexivity |].
  simpl. now rewrite IH, E.
Qed.

Lemma lstrip_head p s :
  lstrip_by p s = "" \/ exists c s', lstrip_by p s = String c s' /\ p c = false.
Proof.
  induction s as [|c s IH]; [now left |]. simpl.
  destruct (p c) eqn:E; [assumption | right; eauto].
Qed.

Lemma rstrip_cons_keep p c s :
  p c = false -> rstrip_by p (String c s) = String c (rstrip_by p s).
Proof. intros H. simpl. now rewrite H, andb_false_r. Qed.

Lemma strip_by_idem p s : strip_by p (strip_by p s) = strip_by p s.
Proof.
  unfold strip_by. destruct (lstrip_head p s) as [-> | (c & s' & -> & Hc)];
    [reflexivity |].
  rewrite (rstrip_cons_keep p c s' Hc).
  assert (Hl : lstrip_by p (String c (rstrip_by p s')) = String c (rstrip_by p s')).
  { simpl. now rewrite Hc. }
  rewrite Hl, (rstrip_cons_keep p c _ Hc). now rewrite rstrip_idem.
Qed.

Lemma all_chars_lstrip q p s : all_chars q s = true -> all_chars q (lstrip_by p s) = true.
Proof.
  induction s as [|c s IH]; [reflexivity |]. simpl.
  intros [Hc Hs]%andb_prop. destruct (p c); [auto |]. simpl. now rewrite Hc, Hs.
Qed.

Lemma all_chars_rstrip q p s : all_chars q s = true -> all_chars q (rstrip_by p s) = true.
Proof.
  induction s as [|c s IH]; [reflexivity |]. simpl.
  intros [Hc Hs]%andb_prop.
  destruct (is_empty (rstrip_by p s) && p c); [reflexivity |].
  simpl. now rewrite Hc, IH.
Qed.

Lemma all_chars_strip q p s : all_chars q s = true -> all_chars q (strip_by p s) = true.
Proof. intros H. unfold strip_by. now apply all_chars_rstrip, all_chars_lstrip. Qed.

Lemma strip_none s :
  all_chars (fun c => negb (is_space c)) s = true -> strip s = s.
Proof. intros H. unfold strip, strip_by. now rewrite lstrip_none, rstrip_none. Qed.

(** A string as wide as the field is not filled. *)
Lemma zfill_long w s : (w <= String.length s)%nat -> zfill w s = s.
Proof.
  intros H. unfold zfill.
  replace (w - String.length s)%nat with 0%nat by lia. simpl.
  destruct s as [|c s]; [reflexivity |].
  now destruct (Ascii.eqb c "+" || Ascii.eqb c "-"); rewrite ?str_app_empty_l.
Qed.

Lemma zfill_length w s : (w <= String.length (zfill w s))%nat.
Proof.
  unfold zfill. destruct s as [|c s].
  - rewrite str_length_repeat_char. simpl. lia.
  - destruct (Ascii.eqb c "+" || Ascii.eqb c "-"); simpl;
      rewrite str_length_app, str_length_repeat_char; simpl; lia.
Qed.

Lemma all_chars_zfill q w s :
  q "0"%char = true -> all_chars q s = true -> all_chars q (zfill w s) = true.
Proof.
  intros H0 H. unfold zfill. destruct s as [|c s].
  - now apply all_chars_repeat.
  - simpl in H. apply andb_prop in H as [Hc Hs].
    destruct (Ascii.eqb c "+" || Ascii.eqb c "-"); simpl.
    + now rewrite Hc, all_chars_app, all_chars_repeat, Hs.
    + now rewrite all_chars_app, all_chars_repeat; simpl; rewrite ?Hc, ?Hs.
Qed.

Lemma is_digit_char_not_space c : is_digit_char c = true -> is_space c = false.
Proof.
  destruct c as [[] [] [] [] [] [] [] []]; vm_compute; congruence.
Qed.

Lemma str_of_int_no_space z :
  all_chars (fun c => negb (is_space c)) (str_of_int z) = true.
Proof.
  assert (Hu : forall d, all_chars (fun c => negb (is_space c))
                           (NilZero.string_of_uint d) = true).
  { intros d. unfold NilZero.string_of_uint.
    assert (H : all_chars (fun c => negb (is_space c))
                  (NilEmpty.string_of_uint d) = true).
    { eapply all_chars_impl; [| apply all_dec_string_of_uint].
      intros c Hc. now rewrite is_dec_not_space. }
    destruct d; [reflexivity | exact H ..]. }
  unfold str_of_int. destruct (Z.to_int z) as [d | d]; simpl.
  - apply Hu.
  - apply Hu.
Qed.

End PyStrMore.

Import PyStrMore.

Lemma normalize_role_id_no_space s :
  all_chars (fun c => negb (is_space c)) s = true ->
  normalize_role_id (PyStr s) = if isdigit s then zfill 5 s else s.
Proof. intros H. unfold normalize_role_id, py_str. now rewrite strip_none. Qed.

Lemma normalize_role_id_filled s :
  all_chars (fun c => negb (is_space c)) s = true ->
  normalize_role_id (PyStr (zfill 5 s)) = zfill 5 s.
Proof.
  intros H. rewrite normalize_role_id_no_space.
  - destruct (isdigit _); [| reflexivity]. apply zfill_long, zfill_length.
  - now apply all_chars_zfill.
Qed.

Lemma normalize_role_id_text s :
  normalize_role_id (PyStr (normalize_role_id (PyStr s))) = normalize_role_id (PyStr s).
Proof.
  unfold normalize_role_id at 2 3. unfold py_str.
  destruct (isdigit (strip s)) eqn:E.
  - apply normalize_role_id_filled.
    unfold isdigit in E. apply andb_prop in E as [_ E].
    revert E. apply all_chars_impl. intros c Hc.
    now rewrite is_digit_char_not_space.
  - unfold normalize_role_id, py_str.
    unfold strip. rewrite strip_by_idem. fold (strip s). now rewrite E.
Qed.

(** X1: [normalize_role_id] is idempotent: the string it returns for any
    value, int, text or None, is returned unchanged when it is normalized
    again, so a key built from a normalized role never moves. *)
Theorem normalize_role_id_idempotent (v : pyval) :
  normalize_role_id (PyStr (normalize_role_id v)) = normalize_role_id v.
Proof.
  destruct v as [z | s |].
  - unfold normalize_role_id at 2. unfold format_05d.
    apply normalize_role_id_filled, str_of_int_no_space.
  - apply normalize_role_id_text.
  - reflexivity.
Qed.

Module UpperFacts.

Import PyStr PyStrFacts.

Lemma upper_char_ascii c :
  (code c <? 128)%N = true ->
  exists c', upper_char c = String c' "" /\ fixed_char c' = true.
Proof.
  destruct c as [[] [] [] [] [] [] [] []]; intros H;
    first [discriminate H | eexists; split; [reflexivity | reflexivity]].
Qed.

Lemma upper_ascii s :
  is_ascii_string s = true -> all_chars fixed_char (upper s) = true.
Proof.
  unfold is_ascii_string.
  induction s as [|c s IH]; [reflexivity |]. simpl.
  intros [Hc Hs]%andb_prop.
  destruct (upper_char_ascii c Hc) as (c' & -> & Hf).
  rewrite str_app_cons, str_app_empty_l. simpl. now rewrite Hf, IH.
Qed.

Lemma upper_fixed s : all_chars fixed_char s = true -> upper s = s.
Proof.
  induction s as [|c s IH]; [reflexivity |]. simpl.
  intros [Hc Hs]%andb_prop. unfold fixed_char in Hc.
  apply andb_prop in Hc as [_ Hc]. apply String.eqb_eq in Hc.
  now rewrite Hc, str_app_cons, str_app_empty_l, IH.
Qed.

Lemma fixed_ascii s : all_chars fixed_char s = true -> is_ascii_string s = true.
Proof.
  apply all_chars_impl. intros c Hc. unfold fixed_char in Hc.
  now apply andb_prop in Hc as [Hc _].
Qed.

End UpperFacts.

(** X2: [normalize] is idempotent on every text whose transliteration is
    ASCII, given that [unidecode] leaves ASCII text as it is: a key that
    was normalized once, as the keys of the mapping tables and of
    [event_ids] are, is found again when it is normalized a second time. *)
Theorem normalize_idempotent (g : globals) (txt : string) :
  (forall s, is_ascii_string s = true -> unidecode g s = s) ->
  is_ascii_string (unidecode g txt) = true ->
  normalize g (normalize g txt) = normalize g txt.
Proof.
  intros Hid Hascii.
  set (n := strip (upper (unidecode g txt))).
  assert (H0 : normalize g txt = if is_empty txt then "" else n) by reflexivity.
  rewrite H0. clear H0. destruct (is_empty txt); [reflexivity |].
  assert (Hn : all_chars fixed_char n = true).
  { apply all_chars_strip, UpperFacts.upper_ascii, Hascii. }
  unfold normalize. destruct (is_empty n) eqn:E.
  - now destruct n.
  - rewrite (Hid n (UpperFacts.fixed_ascii n Hn)), (UpperFacts.upper_fixed n Hn).
    unfold n, strip. apply strip_by_idem.
Qed.

Lemma normalize_idempotent_witness :
  normalize ScenarioA.g (normalize ScenarioA.g " Buyer ")
  = normalize ScenarioA.g " Buyer ".
Proof.
  apply normalize_idempotent.
  - intros s _. reflexivity.
  - reflexivity.
Defined.

(** ** Years of TMG dates *)

Lemma startswith_cons (a b : ascii) (p s : string) :
  startswith (String a p) (String b s)
  = if ascii_dec a b then startswith p s else false.
Proof. reflexivity. Qed.

Lemma startswith_one_char (a b : ascii) (s : string) :
  a <> b -> startswith (String a "") s = true ->
  startswith (String b "") s = false.
Proof.
  intros Hab. destruct s as [|c s]; [discriminate |].
  rewrite !startswith_cons.
  destruct (ascii_dec a c) as [<- |]; [| discriminate].
  intros _. destruct (ascii_dec b a); [congruence | reflexivity].
Qed.

Lemma four_digits_at_spec (s y : string) :
  four_digits_at s = Some y ->
  String.length y = 4%nat /\ all_chars is_dec y = true.
Proof.
  destruct s as [|a [|b [|c [|d s]]]]; try discriminate. simpl.
  destruct (is_dec a) eqn:Ha; [| discriminate].
  destruct (is_dec b) eqn:Hb; [| discriminate].
  destruct (is_dec c) eqn:Hc; [| discriminate].
  destruct (is_dec d) eqn:Hd; [| discriminate].
  simpl. intros [= <-]. simpl. now rewrite Ha, Hb, Hc, Hd.
Qed.

Lemma search_four_digits_spec (s y : string) :
  search_four_digits s = Some y ->
  String.length y = 4%nat /\ all_chars is_dec y = true.
Proof.
  induction s as [|a s IH].
  - discriminate.
  - change (search_four_digits (String a s))
      with (match four_digits_at (String a s) with
            | Some y => Some y
            | None => search_four_digits s
            end).
    destruct (four_digits_at (String a s)) eqn:E.
    + intros [= <-]. eapply four_digits_at_spec, E.
    + exact IH.
Qed.

Lemma slice_1_5_length (s : string) :
  (5 <= String.length s)%nat -> String.length (slice_1_5 s) = 4%nat.
Proof.
  destruct s as [|a [|b [|c [|d [|e s]]]]]; simpl; try lia.
  intros _. now destruct s.
Qed.

Lemma slice_1_5_app (c : ascii) (y rest : string) :
  String.length y = 4%nat -> slice_1_5 (String c (y +:+ rest)) = y.
Proof.
  destruct y as [|a [|b [|d [|e [|f y]]]]]; try discriminate.
  intros _. rewrite !str_app_cons, str_app_empty_l. now destruct rest.
Qed.

(** X3: a year that [extract_year_tmg] returns has four characters; for a
    date of the fuzzy form, which starts with 0, they are four decimal
    digits. A precise date, 1 followed by the year, gives back that year.
    The empty date, a date that starts with neither 0 nor 1, and a date of
    the precise form shorter than five characters give no year. *)
Theorem extract_year_tmg_cases :
  (forall edate y, extract_year_tmg edate = Some y -> String.length y = 4%nat)
  /\ (forall y rest, String.length y = 4%nat ->
        extract_year_tmg ("1" +:+ y +:+ rest) = Some y)
  /\ (forall edate y, startswith "0" edate = true ->
        extract_year_tmg edate = Some y -> all_chars is_dec y = true)
  /\ extract_year_tmg "" = None
  /\ (forall edate, startswith "0" edate = false ->
        startswith "1" edate = false -> extract_year_tmg edate = None)
  /\ (forall edate, startswith "1" edate = true ->
        (String.length edate < 5)%nat -> extract_year_tmg edate = None).
Proof.
  split_and!.
  - intros edate y. unfold extract_year_tmg.
    destruct (is_empty edate); [discriminate |].
    destruct (startswith "1" edate && (5 <=? String.length edate)%nat) eqn:E.
    + intros [= <-]. apply andb_prop in E as [_ E].
      apply slice_1_5_length. now apply Nat.leb_le.
    + destruct (startswith "0" edate); [| discriminate].
      intros H. now apply search_four_digits_spec in H.
  - intros y rest Hy. unfold extract_year_tmg.
    rewrite str_app_cons, str_app_empty_l. simpl is_empty. cbv iota.
    assert (Hp : startswith "1" (String "1" (y +:+ rest)) = true).
    { rewrite startswith_cons.
      destruct (ascii_dec "1" "1") as [_ | n]; [| congruence].
      now destruct (y +:+ rest). }
    assert (Hl : (5 <=? String.length (String "1" (y +:+ rest)))%nat = true).
    { apply Nat.leb_le. simpl. rewrite str_length_app. lia. }
    rewrite Hp, Hl. simpl andb. cbv iota. now rewrite slice_1_5_app.
  - intros edate y H0. unfold extract_year_tmg.
    destruct (is_empty edate); [discriminate |].
    assert (H1 : startswith "1" edate = false).
    { apply (startswith_one_char "0" "1"); [discriminate | assumption]. }
    rewrite H1, H0. simpl. intros H. now apply search_four_digits_spec in H.
  - reflexivity.
  - intros edate H0 H1. unfold extract_year_tmg.
    rewrite H0, H1. simpl. now destruct (is_empty edate).
  - intros edate H1 Hl. unfold extract_year_tmg.
    destruct (is_empty edate); [reflexivity |].
    assert (E : (5 <=? String.length edate)%nat = false) by (apply Nat.leb_gt; lia).
    rewrite E, andb_false_r.
    assert (H0 : startswith "0" edate = false).
    { apply (startswith_one_char "1" "0"); [discriminate | assumption]. }
    now rewrite H0.
Qed.

(** ** The table of role usage *)

Section UsageFacts.

Variable g : globals.

Implicit Types (ru : list (string * role_data)) (kd : string * role_data).

Lemma ru_alter_fst (f : role_data -> role_data) (k : string) ru :
  (ru_alter f k ru).*1 = ru.*1.
Proof.
  induction ru as [|[k0 d] ru IH]; [reflexivity |]. cbn [ru_alter].
  destruct (String.eqb k k0); [reflexivity |].
  rewrite !fmap_cons, IH. reflexivity.
Qed.

Lemma ru_lookup_None (k : string) ru : ru_lookup k ru = None -> k ∉ ru.*1.
Proof.
  induction ru as [|[k0 d] ru IH]; [intros _ H; inversion H |].
  cbn [ru_lookup]. rewrite fmap_cons.
  destruct (String.eqb_spec k k0) as [-> | Hne]; [discriminate |].
  intros H Hin. apply elem_of_cons in Hin as [-> | Hin]; [now apply Hne |].
  now apply IH.
Qed.

Lemma ru_alter_elem (f : role_data -> role_data) (k : string) ru kd :
  kd ∈ ru_alter f k ru -> kd ∈ ru \/ exists d, (k, d) ∈ ru /\ kd = (k, f d).
Proof.
  induction ru as [|[k0 d] ru IH]; simpl; [intros H; inversion H |].
  destruct (String.eqb_spec k k0) as [-> | Hne].
  - intros [-> | H]%elem_of_cons.
    + right. exists d. split; [left | reflexivity].
    + left. now right.
  - intros [-> | H]%elem_of_cons; [left; left |].
    destruct (IH H) as [Hin | (d' & Hin & ->)].
    + left. now right.
    + right. exists d'. split; [now right | reflexivity].
Qed.

Lemma ru_alter_snoc_fresh (f : role_data -> role_data) (k : string) ru (d : role_data) :
  ru_lookup k ru = None -> ru_alter f k (ru ++ [(k, d)]) = ru ++ [(k, f d)].
Proof.
  induction ru as [|[k0 d0] ru IH]; simpl.
  - now rewrite String.eqb_refl.
  - destruct (String.eqb k k0); [discriminate |]. intros H. now rewrite IH.
Qed.

Lemma ru_lookup_snoc_fresh (k : string) ru (d : role_data) :
  ru_lookup k ru = None -> ru_lookup k (ru ++ [(k, d)]) = Some d.
Proof.
  induction ru as [|[k0 d0] ru IH]; simpl.
  - now rewrite String.eqb_refl.
  - destruct (String.eqb k k0); [discriminate | exact IH].
Qed.

(** An entry after an update that keeps the labels, keeps the raised flags
    and keeps the events. *)
Lemma role_entry_ok_grown (k : string) (d d' : role_data) :
  role_entry_ok g (k, d) ->
  eng d' = eng d -> fra d' = fra d ->
  (normal d = true -> normal d' = true) ->
  (principal d = true -> principal d' = true) ->
  events d ⊆ events d' ->
  role_entry_ok g (k, d').
Proof.
  intros (Hf & He & raw & Hk & Heng & Hfra) E1 E2 Hn Hp Hs. simpl in *.
  split_and!; simpl.
  - apply orb_true_iff in Hf as [H | H]; [rewrite (Hn H) | rewrite (Hp H)];
      [reflexivity | apply orb_true_r].
  - intros H0. apply He. apply leibniz_equiv. set_solver.
  - exists raw. now rewrite E1, E2.
Qed.

Lemma ru_alter_twice (f1 f2 : role_data -> role_data) (k : string) ru :
  ru_alter f2 k (ru_alter f1 k ru) = ru_alter (fun d => f2 (f1 d)) k ru.
Proof.
  induction ru as [|[k0 d] ru IH]; [reflexivity |]. cbn [ru_alter].
  destruct (String.eqb k k0) eqn:E; cbn [ru_alter]; rewrite E; [reflexivity |].
  now rewrite IH.
Qed.

Lemma ru_alter_inv (f : role_data -> role_data) (k : string) ru :
  (forall d, eng (f d) = eng d /\ fra (f d) = fra d
             /\ (normal d = true -> normal (f d) = true)
             /\ (principal d = true -> principal (f d) = true)
             /\ events d ⊆ events (f d)) ->
  usage_inv g ru -> usage_inv g (ru_alter f k ru).
Proof.
  intros Hf [Hnd Hok]. split; [now rewrite ru_alter_fst |].
  intros kd [Hin | (d & Hin & ->)]%ru_alter_elem; [auto |].
  destruct (Hf d) as (E1 & E2 & Hn & Hp & Hs).
  eapply role_entry_ok_grown; eauto.
Qed.

Lemma analyze_shar_inv (owner_id event_name_norm : string) ru (sh : shar) :
  usage_inv g ru -> usage_inv g (analyze_shar g owner_id event_name_norm ru sh).
Proof.
  intros Hinv. unfold analyze_shar.
  set (k := normalize g (shar_role sh)).
  destruct (ru_lookup k ru) as [d0|] eqn:El.
  - destruct (String.eqb (shar_id sh) owner_id); rewrite ru_alter_twice;
      (apply ru_alter_inv; [| assumption]); intros d; simpl;
      split_and!; auto; set_solver.
  - destruct Hinv as [Hnd Hok].
    assert (Hk : k ∉ ru.*1) by now apply ru_lookup_None.
    assert (Hnd' : forall d, NoDup (ru ++ [(k, d)]).*1).
    { intros d. rewrite fmap_app. apply NoDup_app. split; [assumption |].
      split; [| apply NoDup_singleton].
      intros x Hx [-> | H]%elem_of_cons; [contradiction | inversion H]. }
    destruct (String.eqb (shar_id sh) owner_id);
      rewrite ru_alter_twice, ru_alter_snoc_fresh by assumption;
      (split; [apply Hnd' |]);
      intros kd [Hin | ->%list_elem_of_singleton]%elem_of_app; auto.
    all: split_and!; simpl; [reflexivity | | exists (shar_role sh); auto].
    all: intros H0;
      assert (Hx : event_name_norm ∈ (∅ : gset string)) by (rewrite <- H0; set_solver);
      set_solver.
Qed.

Lemma analyze_role_usage_inv (owner_id event_name_norm : string)
      (shars : list shar) ru :
  usage_inv g ru -> usage_inv g (_analyze_role_usage g owner_id event_name_norm shars ru).
Proof.
  unfold _analyze_role_usage. revert ru.
  induction shars as [|sh shars IH]; intros ru H; simpl; [assumption |].
  apply IH. now apply analyze_shar_inv.
Qed.

Lemma analyze_pending_inv (st : scan_state) :
  usage_inv g (role_usage st) -> usage_inv g (analyze_pending g st).
Proof.
  intros H. unfold analyze_pending.
  destruct (current_indi_id st), (current_event_name_norm st); try assumption.
  destruct (_ && _ && _); [now apply analyze_role_usage_inv | assumption].
Qed.

Lemma scan_line_inv (st : scan_state) (level : Z) (tag val : string) :
  usage_inv g (role_usage st) -> usage_inv g (role_usage (scan_line g st level tag val)).
Proof.
  intros H. pose proof (analyze_pending_inv st H) as Hp. unfold scan_line.
  repeat match goal with
  | |- context [if ?b then _ else _] => destruct b; simpl
  end; assumption.
Qed.

Lemma scan_lines_inv (lines : list string) (st st' : scan_state) :
  scan_lines g st lines = Some st' ->
  usage_inv g (role_usage st) -> usage_inv g (role_usage st').
Proof.
  revert st. induction lines as [|l lines IH]; intros st; simpl.
  - now intros [= <-].
  - destruct (parse_line l) as [| |level tag val]; [apply IH | discriminate |].
    intros H Hinv. eapply IH; [exact H |]. now apply scan_line_inv.
Qed.

End UsageFacts.

(** X4: in the table that [scan_role_usage] returns, no normalized role
    has two entries, and every entry has at least one of its two usage flags
    raised, at least one event, a key that is the normalization of a role
    text of the file, and the labels that the mapping, or the title case,
    gives for that text. *)
Theorem scan_role_usage_entries (g : globals) (lines : list string)
      (ru : list (string * role_data)) :
  scan_role_usage g lines = Some ru ->
  NoDup ru.*1 /\ forall kd, kd ∈ ru -> role_entry_ok g kd.
Proof.
  unfold scan_role_usage.
  destruct (scan_lines g scan_init lines) as [st|] eqn:E; simpl; [| discriminate].
  intros [= <-]. apply analyze_pending_inv.
  eapply scan_lines_inv; [exact E |]. split; [constructor |].
  intros kd H. inversion H.
Qed.

Lemma scan_role_usage_entries_witness :
  scan_role_usage ScenarioA.g ScenarioA.gedcom
  = Some [("BUYER", {| normal := true; principal := true; eng := "Buyer";
                       fra := "Buyer"; events := ∅ ∪ {[ "MARRIAGE" ]} |})]
  /\ role_entry_ok ScenarioA.g
       ("BUYER", {| normal := true; principal := true; eng := "Buyer";
                    fra := "Buyer"; events := ∅ ∪ {[ "MARRIAGE" ]} |}).
Proof.
  assert (H : scan_role_usage ScenarioA.g ScenarioA.gedcom
              = Some [("BUYER", {| normal := true; principal := true;
                                   eng := "Buyer"; fra := "Buyer";
                                   events := ∅ ∪ {[ "MARRIAGE" ]} |})])
    by reflexivity.
  split; [exact H |].
  apply (proj2 (scan_role_usage_entries _ _ _ H)). left.
Defined.

(** ** The table of event types after the Synchronizer *)

(** A dict filled in a loop over a list, under a guard: the binding of a
    key is the value of the last element that passes the guard with this
    key. *)
Lemma fold_insert_lookup {A K V : Type} `{Countable K} (c : A -> bool)
      (kf : A -> K) (vf : A -> V) (l : list A) (m : gmap K V) (k : K) (v : V) :
  foldl (fun m x => if c x then <[kf x := vf x]> m else m) m l !! k = Some v <->
  (exists pre x post, l = pre ++ x :: post /\ c x = true /\ kf x = k /\ vf x = v
                      /\ forall y, y ∈ post -> c y = true -> kf y <> k)
  \/ (m !! k = Some v /\ forall y, y ∈ l -> c y = true -> kf y <> k).
Proof.
  induction l as [|a l IH] using rev_ind.
  - simpl. split.
    + intros Hm. right. split; [assumption |]. intros y Hy. inversion Hy.
    + intros [(pre & x & post & Hl & _) | [Hm _]]; [| assumption].
      now destruct pre.
  - rewrite foldl_app. simpl.
    destruct (c a) eqn:Hc; [destruct (decide (kf a = k)) as [Hk | Hk] |].
    + rewrite <- Hk, lookup_insert_eq. split.
      * intros [= <-]. left. exists l, a, []. split_and!; auto.
        intros y Hy. inversion Hy.
      * intros [(pre & x & post & Hl & Hcx & Hx & Hv & Hpost) | [_ Hall]].
        -- destruct post as [|z post _] using rev_ind.
           ++ apply app_inj_tail in Hl as [_ <-]. now rewrite Hv.
           ++ rewrite app_comm_cons, app_assoc in Hl.
              apply app_inj_tail in Hl as [_ <-].
              exfalso. apply (Hpost a); [| assumption | congruence].
              apply elem_of_app. right. now left.
        -- exfalso. apply (Hall a); [| assumption | congruence].
           apply elem_of_app. right. now left.
    + rewrite lookup_insert_ne by assumption. rewrite IH. split.
      * intros [(pre & x & post & -> & Hcx & Hx & Hv & Hpost) | [Hm Hall]].
        -- left. exists pre, x, (post ++ [a]). split_and!; auto.
           ++ now rewrite <- app_assoc.
           ++ intros y [Hy | ->%list_elem_of_singleton]%elem_of_app; auto.
        -- right. split; [assumption |].
           intros y [Hy | ->%list_elem_of_singleton]%elem_of_app; auto.
      * intros [(pre & x & post & Hl & Hcx & Hx & Hv & Hpost) | [Hm Hall]].
        -- destruct post as [|z post _] using rev_ind.
           ++ apply app_inj_tail in Hl as [_ <-]. contradiction.
           ++ rewrite app_comm_cons, app_assoc in Hl.
              apply app_inj_tail in Hl as [-> <-].
              left. exists pre, x, post. split_and!; auto.
              intros y Hy. apply Hpost. apply elem_of_app. now left.
        -- right. split; [assumption |]. intros y Hy. apply Hall.
           apply elem_of_app. now left.
    + rewrite IH. split.
      * intros [(pre & x & post & -> & Hcx & Hx & Hv & Hpost) | [Hm Hall]].
        -- left. exists pre, x, (post ++ [a]). split_and!; auto.
           ++ now rewrite <- app_assoc.
           ++ intros y [Hy | ->%list_elem_of_singleton]%elem_of_app; [auto |].
              congruence.
        -- right. split; [assumption |].
           intros y [Hy | ->%list_elem_of_singleton]%elem_of_app; [auto |].
           congruence.
      * intros [(pre & x & post & Hl & Hcx & Hx & Hv & Hpost) | [Hm Hall]].
        -- destruct post as [|z post _] using rev_ind.
           ++ apply app_inj_tail in Hl as [_ <-]. congruence.
           ++ rewrite app_comm_cons, app_assoc in Hl.
              apply app_inj_tail in Hl as [-> <-].
              left. exists pre, x, post. split_and!; auto.
              intros y Hy. apply Hpost. apply elem_of_app. now left.
        -- right. split; [assumption |]. intros y Hy. apply Hall.
           apply elem_of_app. now left.
Qed.

Section TableFacts.

Variable g : globals.
Variable ru : list (string * role_data).

Lemma plan_fold_needs (eid : Z) (er : gmap string Z) (p0 : plan)
      (roles : list (string * role_data)) (r : string * role_data) :
  r ∈ roles ->
  (principal r.2 = true ->
   needs_prinrole (foldl (plan_role g eid er) p0 roles) = true)
  /\ (normal r.2 = true ->
      needs_witrole (foldl (plan_role g eid er) p0 roles) = true).
Proof.
  induction roles as [|x roles IH] using rev_ind; [intros H; inversion H |].
  intros Hin. rewrite foldl_app. simpl.
  destruct (plan_role_step g eid er (foldl (plan_role g eid er) p0 roles) x)
    as (new & _ & _ & _ & _ & _ & Hw & Hp).
  rewrite Hw, Hp.
  apply elem_of_app in Hin as [Hin | ->%list_elem_of_singleton].
  - destruct (IH Hin) as [IHp IHw]. split; intros Hr.
    + now rewrite (IHp Hr).
    + now rewrite (IHw Hr).
  - split; intros ->; apply orb_true_r.
Qed.

Lemma sync_record_row (done : list t_rec) (ids : gmap string Z)
      (rc : gmap Z (gmap string role_pair)) (rec : t_rec) :
  exists rec', (sync_record g ru (done, ids, rc) rec).1.1 = done ++ [rec']
               /\ row_synced g ru rec rec'.
Proof.
  unfold sync_record, row_synced, type_key.
  destruct (roles_for_this_event (normalize g (strip (etypename rec))) ru)
    as [|r0 roles] eqn:E.
  { exists rec. simpl. split_and!; auto. intros _ r Hr. inversion Hr. }
  rewrite <- E. assert (Hnil : is_nil (roles_for_this_event
                                 (normalize g (strip (etypename rec))) ru) = false)
    by now rewrite E.
  rewrite Hnil.
  set (p := record_plan g ru (<[etypenum rec := ∅]> rc) rec).
  assert (Hneeds : forall r,
             r ∈ roles_for_this_event (normalize g (strip (etypename rec))) ru ->
             (principal r.2 = true -> needs_prinrole p = true)
             /\ (normal r.2 = true -> needs_witrole p = true)).
  { intros r Hr. unfold p, record_plan. now apply plan_fold_needs. }
  destruct (negb (is_nil (roles_to_create p))
            || needs_prinrole p && negb (prinrole rec)
            || needs_witrole p && negb (witrole rec)) eqn:C.
  - destruct (DRY_RUN g) eqn:D.
    + exists rec. simpl. split_and!; auto. discriminate.
    + eexists. simpl. split; [reflexivity |]. simpl. split_and!; auto.
      * intros ->. apply orb_true_r.
      * intros ->. apply orb_true_r.
      * discriminate.
      * rewrite E. discriminate.
      * intros _ r Hr. destruct (Hneeds r Hr) as [Hp Hw].
        split; intros Hx; [now rewrite (Hp Hx) | now rewrite (Hw Hx)].
  - exists rec. simpl. split_and!; auto.
    intros _ r Hr. destruct (Hneeds r Hr) as [Hp Hw].
    apply orb_false_iff in C as [C Cw]. apply orb_false_iff in C as [_ Cp].
    split; intros Hx.
    + rewrite (Hp Hx) in Cp. simpl in Cp. now apply negb_false_iff in Cp.
    + rewrite (Hw Hx) in Cw. simpl in Cw. now apply negb_false_iff in Cw.
Qed.

Lemma update_rows (t : list t_rec)
      (acc : list t_rec * gmap string Z * gmap Z (gmap string role_pair)) :
  exists t', (foldl (sync_record g ru) acc t).1.1 = acc.1.1 ++ t'
             /\ Forall2 (row_synced g ru) t t'.
Proof.
  revert acc. induction t as [|rec t IH]; intros acc; simpl.
  - exists []. split; [now rewrite app_nil_r | constructor].
  - destruct acc as [[done ids] rc].
    destruct (sync_record_row done ids rc rec) as (rec' & Hrow & Hrec).
    destruct (IH (sync_record g ru (done, ids, rc) rec)) as (t' & Ht & Hall).
    exists (rec' :: t'). split; [| now constructor].
    rewrite Ht, Hrow. simpl. now rewrite <- app_assoc.
Qed.

Lemma update_ids (t : list t_rec)
      (acc : list t_rec * gmap string Z * gmap Z (gmap string role_pair)) :
  (foldl (sync_record g ru) acc t).1.2
  = foldl (fun ids rec => <[type_key g rec := etypenum rec]> ids) acc.1.2 t.
Proof.
  revert acc. induction t as [|rec t IH]; intros acc; simpl; [reflexivity |].
  rewrite IH. destruct acc as [[done ids] rc]. now rewrite sync_record_ids.
Qed.

End TableFacts.

(** X5: the Synchronizer keeps the rows of T.DBF in number and in order,
    with their names and their type numbers; it never clears PRINROLE or
    WITROLE; it leaves a row as it is in the simulation mode and when no
    role of the table is used in the event of the row; outside the
    simulation mode, a row whose event has a role used as principal ends
    with PRINROLE set, and one whose event has a role used normally ends
    with WITROLE set. *)
Theorem update_tmg_structure_rows (g : globals) (ru : list (string * role_data))
      (t : list t_rec) :
  Forall2 (row_synced g ru) t (update_tmg_structure g ru t).1.1.
Proof.
  unfold update_tmg_structure.
  destruct (update_rows g ru t ([], ∅, ∅)) as (t' & -> & H). exact H.
Qed.

Lemma update_codes_mode (g : globals) (b : bool) (ru : list (string * role_data))
      (t : list t_rec)
      (acc acc' : list t_rec * gmap string Z * gmap Z (gmap string role_pair)) :
  acc.1.2 = acc'.1.2 -> acc.2 = acc'.2 ->
  (foldl (sync_record (with_dry_run b g) ru) acc t).1.2
  = (foldl (sync_record g ru) acc' t).1.2
  /\ (foldl (sync_record (with_dry_run b g) ru) acc t).2
     = (foldl (sync_record g ru) acc' t).2.
Proof.
  revert acc acc'. induction t as [|rec t IH]; intros acc acc' H1 H2; simpl;
    [auto |].
  apply IH.
  - destruct acc as [[done ids] rc], acc' as [[done' ids'] rc'].
    cbn [fst snd] in H1, H2. subst. now rewrite !sync_record_ids.
  - destruct acc as [[done ids] rc], acc' as [[done' ids'] rc'].
    cbn [fst snd] in H1, H2. subst. now rewrite !sync_record_codes.
Qed.

Lemma update_dry (g : globals) (ru : list (string * role_data)) (t : list t_rec) :
  update_tmg_structure (with_dry_run true g) ru t
  = (t, (update_tmg_structure g ru t).1.2, (update_tmg_structure g ru t).2).
Proof.
  destruct (update_rows (with_dry_run true g) ru t ([], ∅, ∅)) as (t' & Ht & Hall).
  destruct (update_codes_mode g true ru t ([], ∅, ∅) ([], ∅, ∅) eq_refl eq_refl)
    as [Hids Hcodes].
  unfold update_tmg_structure in *.
  destruct (foldl (sync_record (with_dry_run true g) ru) ([], ∅, ∅) t)
    as [[t1 ids1] rc1].
  simpl in *. subst. f_equal. f_equal.
  clear -Hall. induction Hall as [|rec rec' t t' Hrow _ IH]; [reflexivity |].
  destruct Hrow as (_ & _ & _ & _ & Hdry & _). rewrite (Hdry eq_refl). now f_equal.
Qed.

(** X6: in the simulation mode the Synchronizer returns T.DBF as it
    received it, together with the event ids and the role codes that it
    returns outside the simulation mode: the codes a simulation works with
    are those the real run would allocate. *)
Theorem update_tmg_structure_simulation (g : globals)
      (ru : list (string * role_data)) (t : list t_rec) :
  update_tmg_structure (with_dry_run true g) ru t
  = (t, (update_tmg_structure g ru t).1.2, (update_tmg_structure g ru t).2).
Proof. apply update_dry. Qed.

(** X7: the event id that the Synchronizer returns for a key is the type
    number of the last row of T.DBF whose normalized name is that key: of
    two event types whose names differ only in case or accents, the later
    one hides the earlier one; a key that no row has is not bound. *)
Theorem event_ids_last_row (g : globals) (ru : list (string * role_data))
      (t : list t_rec) (k : string) (eid : Z) :
  (update_tmg_structure g ru t).1.2 !! k = Some eid <->
  exists pre rec post,
    t = pre ++ rec :: post /\ type_key g rec = k /\ etypenum rec = eid
    /\ forall r, r ∈ post -> type_key g r <> k.
Proof.
  unfold update_tmg_structure. rewrite update_ids. simpl.
  rewrite (fold_insert_lookup (fun _ => true) (type_key g) etypenum). split.
  - intros [(pre & rec & post & Hl & _ & Hk & Hv & Hpost) | [H _]];
      [| discriminate].
    exists pre, rec, post. split_and!; auto.
  - intros (pre & rec & post & Hl & Hk & Hv & Hpost). left.
    exists pre, rec, post. split_and!; auto.
Qed.

(** ** The in-memory indexes *)

Lemma load_witness_fold (te : list e_rec) (s : gset wit_key) (k : wit_key) :
  k ∈ foldl load_witness s te <->
  k ∈ s \/ exists r, r ∈ te /\ 0 < GNUM r /\ 0 < EPER r /\ key_of_row r = k.
Proof.
  revert s. induction te as [|r te IH]; intros s; simpl.
  - split; [auto |]. intros [H | (r & H & _)]; [assumption | inversion H].
  - rewrite IH. unfold load_witness.
    destruct (0 <? GNUM r) eqn:Eg; [destruct (0 <? EPER r) eqn:Ee |]; simpl.
    + apply Z.ltb_lt in Eg, Ee. rewrite elem_of_union, elem_of_singleton. split.
      * intros [[H | ->] | (r' & Hin & H)]; [auto | |].
        -- right. exists r. split_and!; auto. left.
        -- right. exists r'. split; [now right | assumption].
      * intros [H | (r' & [-> | Hin]%elem_of_cons & Hg & He & Hk)]; eauto 8.
    + apply Z.ltb_ge in Ee. split.
      * intros [H | (r' & Hin & H)]; [auto |].
        right. exists r'. split; [now right | assumption].
      * intros [H | (r' & [-> | Hin]%elem_of_cons & Hg & He & Hk)];
          [auto | lia | eauto 8].
    + apply Z.ltb_ge in Eg. split.
      * intros [H | (r' & Hin & H)]; [auto |].
        right. exists r'. split; [now right | assumption].
      * intros [H | (r' & [-> | Hin]%elem_of_cons & Hg & He & Hk)];
          [auto | lia | eauto 8].
Qed.

Lemma load_event_step (idx : gmap (Z * Z) (list evt_data)) (r : g_rec)
      (key : Z * Z) :
  default [] (load_event idx r !! key)
  = default [] (idx !! key) ++ indexed_under key r.
Proof.
  unfold load_event, indexed_under, index_add. fold (evt_of r).
  destruct (0 <? per1 r) eqn:E1, (0 <? per2 r) eqn:E2;
    try apply Z.ltb_lt in E1; try apply Z.ltb_lt in E2;
    try apply Z.ltb_ge in E1; try apply Z.ltb_ge in E2.
  - destruct (decide ((per1 r, etype r) = key)) as [K1 | K1],
             (decide ((per2 r, etype r) = key)) as [K2 | K2].
    + rewrite !bool_decide_eq_true_2 by auto. subst key. rewrite K2.
      rewrite !lookup_insert_eq. simpl. rewrite <- ?app_assoc; reflexivity.
    + rewrite bool_decide_eq_true_2, bool_decide_eq_false_2 by tauto.
      subst key. rewrite lookup_insert_ne by assumption.
      rewrite lookup_insert_eq. simpl. rewrite ?app_nil_r; reflexivity.
    + rewrite bool_decide_eq_false_2, bool_decide_eq_true_2 by tauto.
      subst key. rewrite lookup_insert_eq. simpl.
      now rewrite lookup_insert_ne by assumption.
    + rewrite !bool_decide_eq_false_2 by tauto.
      rewrite !lookup_insert_ne by assumption. simpl. rewrite ?app_nil_r; reflexivity.
  - rewrite (bool_decide_eq_false_2 (0 < per2 r /\ _)) by lia.
    rewrite app_nil_r.
    destruct (decide ((per1 r, etype r) = key)) as [K1 | K1].
    + rewrite bool_decide_eq_true_2 by auto.
      subst key. now rewrite lookup_insert_eq.
    + rewrite bool_decide_eq_false_2 by tauto.
      rewrite lookup_insert_ne by assumption. rewrite ?app_nil_r; reflexivity.
  - rewrite (bool_decide_eq_false_2 (0 < per1 r /\ _)) by lia. simpl.
    destruct (decide ((per2 r, etype r) = key)) as [K2 | K2].
    + rewrite bool_decide_eq_true_2 by auto.
      subst key. now rewrite lookup_insert_eq.
    + rewrite bool_decide_eq_false_2 by tauto.
      rewrite lookup_insert_ne by assumption. rewrite ?app_nil_r; reflexivity.
  - rewrite (bool_decide_eq_false_2 (0 < per1 r /\ _)) by lia.
    rewrite (bool_decide_eq_false_2 (0 < per2 r /\ _)) by lia.
    simpl. rewrite ?app_nil_r; reflexivity.
Qed.

Lemma load_event_fold (tg : list g_rec) (idx : gmap (Z * Z) (list evt_data))
      (key : Z * Z) :
  default [] (foldl load_event idx tg !! key)
  = default [] (idx !! key) ++ (tg ≫= indexed_under key).
Proof.
  revert idx. induction tg as [|r tg IH]; intros idx; simpl.
  - now rewrite app_nil_r.
  - rewrite IH, load_event_step. now rewrite <- app_assoc.
Qed.

Lemma load_person_dsid_fixed (tp : list p_rec) (m : gmap string Z) (d : Z) :
  d <> 1 -> (foldl load_person (m, d) tp).2 = d.
Proof.
  revert m. induction tp as [|r tp IH]; intros m Hd; simpl; [reflexivity |].
  destruct (Z.eqb_spec d 1) as [-> | _]; [contradiction |]. simpl.
  now apply IH.
Qed.

Lemma load_person_dsid (tp : list p_rec) (m : gmap string Z) :
  (foldl load_person (m, 1) tp).2
  = default 1 (p_dsid <$> List.find (fun r => 1 <? p_dsid r) tp).
Proof.
  revert m. induction tp as [|r tp IH]; intros m; simpl; [reflexivity |].
  destruct (0 <? p_dsid r) eqn:E0; simpl.
  - destruct (1 <? p_dsid r) eqn:E1; simpl.
    + apply load_person_dsid_fixed. apply Z.ltb_lt in E1. lia.
    + apply Z.ltb_lt in E0. apply Z.ltb_ge in E1.
      replace (p_dsid r) with 1 by lia. apply IH.
  - assert (E1 : (1 <? p_dsid r) = false).
    { apply Z.ltb_ge in E0. apply Z.ltb_ge. lia. }
    rewrite E1. apply IH.
Qed.

Lemma load_person_refs (tp : list p_rec) (m : gmap string Z) (d : Z) :
  (foldl load_person (m, d) tp).1
  = foldl (fun m r => if negb (is_empty (strip (reference r)))
                      then <[strip (reference r) := per_no r]> m else m) m tp.
Proof.
  revert m d. induction tp as [|r tp IH]; intros m d; simpl; [reflexivity |].
  apply IH.
Qed.

(** The invariant of the loop that maps the individuals of the file to
    persons: every binding comes from a REFN line whose value is the
    reference of a person. *)
Lemma map_refn_lines_sound (refn_to_perno : gmap string Z) (P : Z -> Prop)
      (lines : list string) (acc : option string * gmap string Z)
      (m : gmap string Z) :
  (forall ref p, refn_to_perno !! ref = Some p -> P p) ->
  (forall gid p, acc.2 !! gid = Some p -> P p) ->
  map_refn_lines refn_to_perno acc lines = Some m ->
  forall gid p, m !! gid = Some p -> P p.
Proof.
  intros Href. revert acc. induction lines as [|l lines IH]; intros acc Hacc; simpl.
  - intros [= <-]. exact Hacc.
  - destruct (map_refn_line refn_to_perno acc l) as [acc'|] eqn:E; simpl;
      [| discriminate].
    apply IH. clear IH. destruct acc as [gid0 m0]. unfold map_refn_line in E.
    destruct (startswith "0 @I" l).
    + destruct (split_ws l !! 1%nat); simpl in E; [| discriminate].
      injection E as <-. exact Hacc.
    + destruct (startswith "1 REFN" l && truthy gid0).
      * destruct (split_ws l !! 2%nat) as [tok|]; simpl in E; [| discriminate].
        injection E as <-. simpl.
        destruct (refn_to_perno !! strip tok) as [perno|] eqn:Er; [| exact Hacc].
        intros gid p. destruct (decide (gid = default "" gid0)) as [-> | Hne].
        -- rewrite lookup_insert_eq. intros [= <-]. eapply Href, Er.
        -- rewrite lookup_insert_ne by congruence. apply Hacc.
      * injection E as <-. exact Hacc.
Qed.

(** X8: the anti-duplicate set that [load_persons_and_events] builds holds
    exactly the keys of the rows of E.DBF whose event number and person
    number are both positive; a row with a zero or negative number is not
    protected against re-injection. *)
Theorem existing_witnesses_loaded (tp : list p_rec) (tg : list g_rec)
      (te : list e_rec) (lines : list string) (ix : indexes) (k : wit_key) :
  load_persons_and_events tp tg te lines = Some ix ->
  k ∈ existing_witnesses ix <->
  exists r, r ∈ te /\ 0 < GNUM r /\ 0 < EPER r /\ key_of_row r = k.
Proof.
  unfold load_persons_and_events.
  destruct (foldl load_person (∅, 1) tp) as [refn dsid].
  destruct (map_refn_lines refn (None, ∅) lines) as [m|]; simpl; [| discriminate].
  intros [= <-]. simpl. rewrite load_witness_fold. split.
  - intros [H | H]; [now apply elem_of_empty in H | exact H].
  - auto.
Qed.

(** X9: the candidates that [load_persons_and_events] indexes under a
    person and an event type are the events of G.DBF of that type in which
    the person is a participant with a positive number, in the order of the
    table; an event whose two participants are that same person is listed
    twice. *)
Theorem events_index_loaded (tp : list p_rec) (tg : list g_rec)
      (te : list e_rec) (lines : list string) (ix : indexes) (key : Z * Z) :
  load_persons_and_events tp tg te lines = Some ix ->
  default [] (events_index ix !! key) = tg ≫= indexed_under key.
Proof.
  unfold load_persons_and_events.
  destruct (foldl load_person (∅, 1) tp) as [refn dsid].
  destruct (map_refn_lines refn (None, ∅) lines) as [m|]; simpl; [| discriminate].
  intros [= <-]. simpl. now rewrite load_event_fold.
Qed.

(** X10: the data set id that [load_persons_and_events] detects is the id
    of the first row of $.DBF whose id is above 1, and 1 when there is no
    such row: ids of 1 and ids that are not positive are passed over. *)
Theorem dsid_detected (tp : list p_rec) (tg : list g_rec)
      (te : list e_rec) (lines : list string) (ix : indexes) :
  load_persons_and_events tp tg te lines = Some ix ->
  ix_dsid ix = default 1 (p_dsid <$> List.find (fun r => 1 <? p_dsid r) tp).
Proof.
  unfold load_persons_and_events.
  pose proof (load_person_dsid tp ∅) as Hd.
  destruct (foldl load_person (∅, 1) tp) as [refn dsid].
  destruct (map_refn_lines refn (None, ∅) lines) as [m|]; simpl; [| discriminate].
  intros [= <-]. exact Hd.
Qed.

(** X11: every person number to which [load_persons_and_events] maps an
    individual of the file is the number of a row of $.DBF whose reference,
    stripped, is not empty: of the rows with that reference, the last one. *)
Theorem ged_to_perno_loaded (tp : list p_rec) (tg : list g_rec)
      (te : list e_rec) (lines : list string) (ix : indexes)
      (gid : string) (p : Z) :
  load_persons_and_events tp tg te lines = Some ix ->
  ged_to_perno ix !! gid = Some p ->
  exists pre r post,
    tp = pre ++ r :: post /\ per_no r = p
    /\ is_empty (strip (reference r)) = false
    /\ forall y, y ∈ post -> strip (reference y) <> strip (reference r).
Proof.
  unfold load_persons_and_events.
  pose proof (load_person_refs tp ∅ 1) as Hr.
  destruct (foldl load_person (∅, 1) tp) as [refn dsid]. simpl in Hr.
  destruct (map_refn_lines refn (None, ∅) lines) as [m|] eqn:E; simpl;
    [| discriminate].
  intros [= <-]. simpl.
  apply (map_refn_lines_sound refn
           (fun p => exists pre r post,
                tp = pre ++ r :: post /\ per_no r = p
                /\ is_empty (strip (reference r)) = false
                /\ forall y, y ∈ post -> strip (reference y) <> strip (reference r))
           lines (None, ∅) m); [| | exact E].
  - intros ref q Hq. rewrite Hr in Hq.
    apply (fold_insert_lookup
             (fun r => negb (is_empty (strip (reference r))))
             (fun r => strip (reference r)) per_no) in Hq
      as [(pre & r & post & Hl & Hc & Hk & Hv & Hpost) | [Hq _]];
      [| discriminate].
    exists pre, r, post. split_and!; auto.
    + now apply negb_true_iff in Hc.
    + intros y Hy Heq. destruct (is_empty (strip (reference y))) eqn:Ey.
      * rewrite Heq in Ey. apply negb_true_iff in Hc. congruence.
      * apply (Hpost y Hy); [now rewrite Ey | congruence].
  - intros gid' q H. discriminate.
Qed.

Lemma scenario_A_indexes_loaded :
  load_persons_and_events (tbl_persons ScenarioA.db) (tbl_events ScenarioA.db)
    [ScenarioA.row1] ScenarioA.gedcom
  = Some {| ged_to_perno := ged_to_perno ScenarioA.ix;
            ix_dsid := 1;
            events_index := events_index ScenarioA.ix;
            existing_witnesses := ∅ ∪ {[ ScenarioA.key1 ]} |}.
Proof. reflexivity. Qed.

Lemma existing_witnesses_loaded_witness :
  ScenarioA.key1 ∈ (∅ ∪ {[ ScenarioA.key1 ]} : gset wit_key).
Proof.
  apply (existing_witnesses_loaded _ _ _ _
           {| ged_to_perno := ged_to_perno ScenarioA.ix; ix_dsid := 1;
              events_index := events_index ScenarioA.ix;
              existing_witnesses := ∅ ∪ {[ ScenarioA.key1 ]} |}
           ScenarioA.key1 scenario_A_indexes_loaded).
  exists ScenarioA.row1. split; [left |]. split; [reflexivity |].
  split; reflexivity.
Defined.

Lemma events_index_loaded_witness :
  default [] (events_index ScenarioA.ix !! (1, 3))
  = tbl_events ScenarioA.db ≫= indexed_under (1, 3).
Proof.
  exact (events_index_loaded _ _ _ _ _ (1, 3) scenario_A_indexes_loaded).
Defined.

Lemma dsid_detected_witness :
  1 = default 1 (p_dsid <$> List.find (fun r => 1 <? p_dsid r)
                                       (tbl_persons ScenarioA.db)).
Proof.
  exact (dsid_detected _ _ _ _ _ scenario_A_indexes_loaded).
Defined.

Lemma ged_to_perno_loaded_witness :
  exists pre r post,
    tbl_persons ScenarioA.db = pre ++ r :: post /\ per_no r = 2
    /\ is_empty (strip (reference r)) = false
    /\ forall y, y ∈ post -> strip (reference y) <> strip (reference r).
Proof.
  apply (ged_to_perno_loaded _ _ _ _ _ "I2" 2 scenario_A_indexes_loaded).
  reflexivity.
Defined.

(** ** The injection pass as a whole *)

Section StepFacts.

Variable g : globals.

Lemma event_line_eq (pper : Z) (evt_ids : gmap string Z) (ix : indexes)
      (rc : gmap Z (gmap string role_pair)) (cur : evt_ctx) (st : inj_state)
      (lvl : Z) (tag val : string) :
  event_line g pper evt_ids ix rc (cur, st) lvl tag val
  = (next_ctx g evt_ids cur lvl tag val,
     if lvl =? 1 then flush_event g cur pper ix rc st else st).
Proof.
  unfold event_line, next_ctx.
  destruct (lvl =? 1); [reflexivity |].
  destruct (lvl =? 2).
  - destruct (String.eqb tag "DATE"); [reflexivity |].
    destruct (String.eqb tag "TYPE" && _).
    + cbv zeta. destruct (truthy_int _); reflexivity.
    + destruct (String.eqb tag "_SHAR"); reflexivity.
  - destruct ((lvl =? 3) && _); [| reflexivity].
    destruct (String.eqb tag "ROLE"); [reflexivity |].
    destruct (String.eqb tag "NOTE"); reflexivity.
Qed.

Lemma insert_step_eq (eid gnum : Z) (rc : gmap Z (gmap string role_pair))
      (g2p : gmap string Z) (dsid p1 p2 : Z) (st : inj_state) (w : wit) :
  insert_step g eid gnum rc g2p dsid p1 p2 st w
  = match reference_key g rc eid gnum g2p p1 p2 w with
    | None => count_errors 1 st
    | Some key =>
        if bool_decide (key ∈ cache st)
        then {| tw := tw st; cache := cache st; tally := bump Skip 1 (tally st) |}
        else {| tw := if DRY_RUN g then tw st
                      else tw st ++ [reference_row g rc eid gnum g2p dsid p1 p2
                                                   (tw st) w];
                cache := cache st ∪ {[ key ]};
                tally := bump (if key.2 then Principal else Ok) 1 (tally st) |}
    end.
Proof.
  unfold insert_step, reference_key, reference_row, count_errors.
  rewrite insert_single_witness_eq.
  destruct (g2p !! wit_ged w) as [wper|]; [| reflexivity]. simpl.
  destruct (wper =? 0); [reflexivity |]. cbv zeta.
  destruct (bool_decide _); reflexivity.
Qed.

Lemma reference_key_row (eid gnum : Z) (rc : gmap Z (gmap string role_pair))
      (g2p : gmap string Z) (dsid p1 p2 : Z) (tw : list e_rec) (w : wit)
      (key : wit_key) :
  reference_key g rc eid gnum g2p p1 p2 w = Some key ->
  key_of_row (reference_row g rc eid gnum g2p dsid p1 p2 tw w) = key.
Proof.
  unfold reference_key, reference_row, key_of_row.
  destruct (g2p !! wit_ged w) as [wper|]; [| discriminate]. simpl.
  destruct (wper =? 0); [discriminate |]. now intros [= <-].
Qed.

End StepFacts.

(** Two runs of the injection pass side by side: a relation between their
    states that every call of [insert_single_witness] and every count of
    errors keeps is kept by the whole pass, and the two runs fail
    together. *)
Section InjectionRel.

Variables g1 g2 : globals.
Hypothesis Hu : unidecode g1 = unidecode g2.
Hypothesis Hm : EVENT_MAPPING g1 = EVENT_MAPPING g2.

Variable evt_ids : gmap string Z.
Variables ix1 ix2 : indexes.
Hypothesis Hp : ged_to_perno ix1 = ged_to_perno ix2.
Hypothesis Hi : events_index ix1 = events_index ix2.

Variables rc1 rc2 : gmap Z (gmap string role_pair).
Variable R : inj_state -> inj_state -> Prop.

Hypothesis Hstep :
  forall eid gnum p1 p2 w st1 st2,
    gnum <> 0 ->
    (exists pper cands c, events_index ix1 !! (pper, eid) = Some cands
                          /\ c ∈ cands /\ ev_recno c = gnum) ->
    R st1 st2 ->
    R (insert_step g1 eid gnum rc1 (ged_to_perno ix1) (ix_dsid ix1) p1 p2 st1 w)
      (insert_step g2 eid gnum rc2 (ged_to_perno ix2) (ix_dsid ix2) p1 p2 st2 w).

Hypothesis Herr :
  forall n st1 st2, R st1 st2 -> R (count_errors n st1) (count_errors n st2).

Lemma next_ctx_agree (cur : evt_ctx) (lvl : Z) (tag val : string) :
  next_ctx g1 evt_ids cur lvl tag val = next_ctx g2 evt_ids cur lvl tag val.
Proof. unfold next_ctx, normalize. now rewrite Hu, Hm. Qed.

Lemma flush_event_rel (ctx : evt_ctx) (pper : Z) (st1 st2 : inj_state) :
  R st1 st2 ->
  R (flush_event g1 ctx pper ix1 rc1 st1) (flush_event g2 ctx pper ix2 rc2 st2).
Proof.
  intros HR. unfold flush_event. rewrite <- Hi.
  destruct (negb (truthy_int (ctx_eid ctx)) || is_nil (ctx_witnesses ctx));
    [assumption |].
  set (cands := default [] (events_index ix1 !! (pper, default 0 (ctx_eid ctx)))).
  destruct (find_target (gedcom_year (ctx_date ctx)) cands) as [gnum|] eqn:Ef;
    [| apply (Herr _ _ _ HR)].
  simpl. destruct (Z.eqb_spec gnum 0) as [-> | Hne]; simpl;
    [apply (Herr _ _ _ HR) |].
  assert (Hc : exists pper cs c, events_index ix1 !! (pper, default 0 (ctx_eid ctx))
                                 = Some cs /\ c ∈ cs /\ ev_recno c = gnum).
  { unfold find_target in Ef.
    destruct (List.find _ cands) as [c|] eqn:Efind; [| discriminate].
    injection Ef as <-. apply find_some in Efind as [Hin _].
    apply list_elem_of_In in Hin. unfold cands in Hin.
    destruct (events_index ix1 !! (pper, default 0 (ctx_eid ctx))) as [cs|] eqn:El;
      [| inversion Hin].
    exists pper, cs, c. auto. }
  destruct (match List.find _ cands with Some c => _ | None => _ end) as [p1 p2].
  generalize (ctx_witnesses ctx). intros ws. revert st1 st2 HR.
  induction ws as [|w ws IH]; intros st1 st2 HR; simpl; [assumption |].
  apply IH. now apply Hstep.
Qed.

Lemma event_lines_rel (pper : Z) (lines : list string)
      (a1 a2 : evt_ctx * inj_state) :
  acc_rel R a1 a2 ->
  opt_rel (acc_rel R) (event_lines g1 pper evt_ids ix1 rc1 a1 lines)
                  (event_lines g2 pper evt_ids ix2 rc2 a2 lines).
Proof.
  revert a1 a2. induction lines as [|l lines IH]; intros a1 a2 Ha; simpl;
    [assumption |].
  destruct (parse_line l) as [| |lvl tag val]; [now apply IH | exact I |].
  apply IH. destruct a1 as [c1 s1], a2 as [c2 s2], Ha as [Hc HR].
  simpl in Hc, HR. subst c2. rewrite !event_line_eq. split; simpl.
  - apply next_ctx_agree.
  - destruct (lvl =? 1); [now apply flush_event_rel | assumption].
Qed.

Lemma process_events_rel (lines : list string) (pper : Z) (st1 st2 : inj_state) :
  R st1 st2 ->
  opt_rel R (process_events g1 lines pper evt_ids ix1 rc1 st1)
            (process_events g2 lines pper evt_ids ix2 rc2 st2).
Proof.
  intros HR. unfold process_events.
  pose proof (event_lines_rel pper lines (ctx_init, st1) (ctx_init, st2)
                (conj eq_refl HR)) as H.
  destruct (event_lines g1 _ _ _ _ _ _) as [[c1 s1]|],
           (event_lines g2 _ _ _ _ _ _) as [[c2 s2]|]; simpl in *; try tauto.
  destruct H as [Hc Hs]. simpl in Hc, Hs. subst c2. now apply flush_event_rel.
Qed.

Lemma process_block_rel (lines : list string) (st1 st2 : inj_state) :
  R st1 st2 ->
  opt_rel R (process_block g1 lines evt_ids ix1 rc1 st1)
            (process_block g2 lines evt_ids ix2 rc2 st2).
Proof.
  intros HR. unfold process_block. rewrite <- Hp.
  destruct (block_person lines (ged_to_perno ix1)) as [pper|]; simpl; [| exact I].
  destruct (truthy_int pper); [now apply process_events_rel | exact HR].
Qed.

Lemma inject_lines_rel (lines block : list string) (st1 st2 : inj_state) :
  R st1 st2 ->
  opt_rel R (inject_lines g1 evt_ids ix1 rc1 block st1 lines)
            (inject_lines g2 evt_ids ix2 rc2 block st2 lines).
Proof.
  revert block st1 st2. induction lines as [|line lines IH];
    intros block st1 st2 HR; simpl.
  - destruct (is_nil block); [exact HR | now apply process_block_rel].
  - destruct (startswith "0 @I" line || startswith "0 @F" line); [| now apply IH].
    destruct (is_nil block); simpl; [now apply IH |].
    pose proof (process_block_rel block st1 st2 HR) as H.
    destruct (process_block g1 _ _ _ _ _) as [s1|],
             (process_block g2 _ _ _ _ _) as [s2|]; simpl in *; try tauto.
    now apply IH.
Qed.

End InjectionRel.

(** *** One reference presented twice *)

(** X12: a reference that [insert_single_witness] has injected or skipped
    is skipped when it is presented again for the same event with the cache
    that the first call returned, whatever the table has become: the table
    and the cache are then returned as they are. *)
Theorem insert_twice_skips (g : globals) (w : wit) (eid gnum : Z)
      (rc : gmap Z (gmap string role_pair)) (g2p : gmap string Z)
      (cache : gset wit_key) (tw : list e_rec) (dsid p1 p2 : Z)
      (res : outcome) (tw' : list e_rec) (cache' : gset wit_key) :
  insert_single_witness g w eid gnum rc g2p cache tw dsid p1 p2 = (res, tw', cache') ->
  res <> Error ->
  forall (tw2 : list e_rec) (dsid2 : Z),
    insert_single_witness g w eid gnum rc g2p cache' tw2 dsid2 p1 p2
    = (Skip, tw2, cache').
Proof.
  intros H Hres tw2 dsid2.
  apply insert_outcome_cases in H as [(-> & _) | (wper & Hw & Hne & H)];
    [contradiction |].
  rewrite insert_single_witness_eq, Hw.
  destruct (Z.eqb_spec wper 0) as [-> | _]; [contradiction |].
  cbv zeta in H |- *.
  destruct H as [(_ & Hin & _ & ->) | (_ & _ & -> & _)].
  - now rewrite bool_decide_eq_true_2.
  - rewrite bool_decide_eq_true_2; [reflexivity | set_solver].
Qed.

Lemma insert_twice_skips_witness :
  insert_single_witness ScenarioA.g
    {| wit_ged := "I2"; wit_role := "Buyer"; wit_note := "" |} 3 10
    ScenarioA.role_codes (ged_to_perno ScenarioA.ix) (∅ ∪ {[ ScenarioA.key1 ]})
    [ScenarioA.row1] 1 1 0
  = (Skip, [ScenarioA.row1], ∅ ∪ {[ ScenarioA.key1 ]}).
Proof.
  apply (insert_twice_skips ScenarioA.g
           {| wit_ged := "I2"; wit_role := "Buyer"; wit_note := "" |} 3 10
           ScenarioA.role_codes (ged_to_perno ScenarioA.ix) ∅ [] 1 1 0
           Ok [ScenarioA.row1] (∅ ∪ {[ ScenarioA.key1 ]})).
  - reflexivity.
  - discriminate.
Defined.

(** *** The simulation mode *)

Lemma reference_key_agree (g1 g2 : globals) (rc : gmap Z (gmap string role_pair))
      (eid gnum : Z) (g2p : gmap string Z) (p1 p2 : Z) (w : wit) :
  unidecode g1 = unidecode g2 -> ROLES_DB g1 = ROLES_DB g2 ->
  reference_key g1 rc eid gnum g2p p1 p2 w = reference_key g2 rc eid gnum g2p p1 p2 w.
Proof.
  intros Hu Hr. unfold reference_key, select_role, role_info_of, normalize.
  now rewrite Hu, Hr.
Qed.

Lemma inject_lines_dry (g : globals) (evt_ids : gmap string Z) (ix : indexes)
      (rc : gmap Z (gmap string role_pair)) (te : list e_rec)
      (lines block : list string) (st1 st2 : inj_state) :
  tw st1 = te -> cache st1 = cache st2 -> tally st1 = tally st2 ->
  opt_rel (fun s1 s2 => tw s1 = te /\ cache s1 = cache s2 /\ tally s1 = tally s2)
          (inject_lines (with_dry_run true g) evt_ids ix rc block st1 lines)
          (inject_lines g evt_ids ix rc block st2 lines).
Proof.
  intros Ht Hc Hs.
  apply (inject_lines_rel (with_dry_run true g) g eq_refl eq_refl evt_ids ix ix
           eq_refl eq_refl rc rc); [| | auto].
  - intros eid gnum p1 p2 w s1 s2 _ _ (Ht1 & Hc1 & Hs1).
    rewrite !insert_step_eq.
    rewrite (reference_key_agree (with_dry_run true g) g) by reflexivity.
    destruct (reference_key g rc eid gnum (ged_to_perno ix) p1 p2 w) as [key|].
    + rewrite Hc1. destruct (bool_decide (key ∈ cache s2)); simpl;
        rewrite ?Hs1, ?Hc1; auto.
    + unfold count_errors. simpl. rewrite Hs1. auto.
  - intros n s1 s2 (Ht1 & Hc1 & Hs1). unfold count_errors. simpl.
    rewrite Hs1. auto.
Qed.

Lemma inject_witnesses_dry (g : globals) (evt_ids : gmap string Z) (ix : indexes)
      (rc : gmap Z (gmap string role_pair)) (te : list e_rec) (lines : list string) :
  inject_witnesses (with_dry_run true g) evt_ids rc ix te lines
  = (fun st => {| tw := te; cache := cache st; tally := tally st |})
      <$> inject_witnesses g evt_ids rc ix te lines.
Proof.
  unfold inject_witnesses.
  pose proof (inject_lines_dry g evt_ids ix rc te lines []
                {| tw := te; cache := existing_witnesses ix; tally := stats_init |}
                {| tw := te; cache := existing_witnesses ix; tally := stats_init |}
                eq_refl eq_refl eq_refl) as H.
  destruct (inject_lines (with_dry_run true g) _ _ _ _ _ _) as [[t1 c1 s1]|],
           (inject_lines g _ _ _ _ _ _) as [[t2 c2 s2]|]; simpl in *; try tauto.
  destruct H as (-> & -> & ->). reflexivity.
Qed.

Lemma scan_dry (g : globals) (lines : list string) :
  scan_role_usage (with_dry_run true g) lines = scan_role_usage g lines.
Proof. reflexivity. Qed.

(** X13: a run in the simulation mode returns the database as it received
    it, with the tallies that the run outside the simulation mode returns
    on the same inputs, and it fails exactly when that run fails: the
    simulation predicts the counts of the real injection. *)
Theorem run_engine_simulation (g : globals) (lines : list string) (db : database) :
  run_engine (with_dry_run true g) lines db
  = (fun r => (db, r.2)) <$> run_engine g lines db.
Proof.
  unfold run_engine. rewrite scan_dry.
  destruct (scan_role_usage g lines) as [ru|]; simpl; [| reflexivity].
  rewrite update_dry.
  destruct (update_tmg_structure g ru (tbl_types db)) as [[t' ids] rc]. simpl.
  destruct (load_persons_and_events _ _ _ _) as [ix|]; simpl; [| reflexivity].
  rewrite inject_witnesses_dry.
  destruct (inject_witnesses g ids rc ix (tbl_witnesses db) lines) as [st|];
    simpl; [| reflexivity].
  now destruct db.
Qed.

(** *** The rows that a pass adds *)

Lemma take_length (n : Z) (s : string) :
  Z.of_nat (String.length (take n s)) <= Z.max 0 n.
Proof.
  revert n. induction s as [|c s IH]; intros n; simpl; [lia |].
  destruct (Z.leb_spec n 0); simpl; [lia |].
  specialize (IH (n - 1)). lia.
Qed.

Lemma reference_key_Some (g : globals) (rc : gmap Z (gmap string role_pair))
      (eid gnum : Z) (g2p : gmap string Z) (dsid p1 p2 : Z) (tw : list e_rec)
      (w : wit) (key : wit_key) :
  reference_key g rc eid gnum g2p p1 p2 w = Some key ->
  exists wper, g2p !! wit_ged w = Some wper /\ wper <> 0
               /\ EPER (reference_row g rc eid gnum g2p dsid p1 p2 tw w) = wper.
Proof.
  unfold reference_key, reference_row.
  destruct (g2p !! wit_ged w) as [wper|]; [| discriminate].
  destruct (Z.eqb_spec wper 0); [discriminate |]. intros _. exists wper. auto.
Qed.

Lemma bump_injected (b : bool) (s : stats) :
  n_ok (bump (if b then Principal else Ok) 1 s)
  + n_principal (bump (if b then Principal else Ok) 1 s)
  = n_ok s + n_principal s + 1.
Proof. destruct b; simpl; lia. Qed.

Lemma inject_lines_inv (g : globals) (evt_ids : gmap string Z) (ix : indexes)
      (rc : gmap Z (gmap string role_pair)) (te : list e_rec)
      (lines block : list string) (st st' : inj_state) :
  DRY_RUN g = false ->
  inject_lines g evt_ids ix rc block st lines = Some st' ->
  injected_inv ix te st -> injected_inv ix te st'.
Proof.
  intros Hdry Hrun Hinv.
  assert (Hstep : forall eid gnum p1 p2 w (s1 s2 : inj_state),
             gnum <> 0 ->
             (exists pper cands c, events_index ix !! (pper, eid) = Some cands
                                   /\ c ∈ cands /\ ev_recno c = gnum) ->
             injected_inv ix te s1 ->
             injected_inv ix te
               (insert_step g eid gnum rc (ged_to_perno ix) (ix_dsid ix) p1 p2 s1 w)).
  { intros eid gnum p1 p2 w s1 _ Hg Hc (added & Htw & Hcache & Hnd & Hrows & Hn).
    rewrite insert_step_eq.
    destruct (reference_key g rc eid gnum (ged_to_perno ix) p1 p2 w) as [key|] eqn:Ek.
    - case_bool_decide as Hin.
      + exists added. simpl. split_and!; auto.
      + set (r := reference_row g rc eid gnum (ged_to_perno ix) (ix_dsid ix) p1 p2
                                (tw s1) w).
        assert (Hkey : key_of_row r = key) by (eapply reference_key_row; eauto).
        destruct (reference_key_Some g rc eid gnum (ged_to_perno ix) (ix_dsid ix)
                    p1 p2 (tw s1) w key Ek) as (wper & Hw & Hw0 & Heper).
        fold r in Heper.
        exists (added ++ [r]). simpl. rewrite Hdry. split_and!.
        * now rewrite Htw, app_assoc.
        * rewrite Hcache, fmap_app, list_to_set_app_L. simpl. rewrite Hkey.
          now rewrite (right_id_L ∅ (∪)), (assoc_L (∪)).
        * rewrite fmap_app. apply NoDup_app. split; [assumption |].
          split; [| apply NoDup_singleton].
          intros k Hk Hk'. simpl in Hk'. apply list_elem_of_singleton in Hk'.
          subst k. apply Hin. rewrite Hcache, <- Hkey.
          apply elem_of_union. right. now apply elem_of_list_to_set.
        * intros r' [Hr' | ->%list_elem_of_singleton]%elem_of_app; [auto |].
          split.
          -- rewrite Hkey. intros Hk. apply Hin. rewrite Hcache.
             apply elem_of_union. now left.
          -- unfold row_from. rewrite Heper. split_and!; auto.
             ++ exists (wit_ged w). exact Hw.
             ++ destruct Hc as (pper & cands & c & Hl & Hcin & Hrec).
                exists pper, eid, cands, c. auto.
             ++ eexists. reflexivity.
             ++ pose proof (take_length 60000
                              (select_role g rc eid
                                 (is_self_witness (default 0
                                    (ged_to_perno ix !! wit_ged w)) p1 p2)
                                 (wit_role w) (wit_note w)).2) as Hl.
                unfold r, reference_row. simpl. lia.
        * rewrite bump_injected, Hn, length_app. simpl. lia.
    - exists added. unfold count_errors. simpl. split_and!; auto. }
  assert (Herr : forall (n : Z) (s1 s2 : inj_state),
             injected_inv ix te s1 -> injected_inv ix te (count_errors n s1)).
  { intros n s1 _ (added & Htw & Hcache & Hnd & Hrows & Hn).
    exists added. unfold count_errors. simpl. split_and!; auto. }
  pose proof (inject_lines_rel g g eq_refl eq_refl evt_ids ix ix eq_refl eq_refl
                rc rc (fun s1 _ => injected_inv ix te s1) Hstep Herr
                lines block st st Hinv) as H.
  now rewrite Hrun in H.
Qed.

Lemma inject_witnesses_inv (g : globals) (evt_ids : gmap string Z) (ix : indexes)
      (rc : gmap Z (gmap string role_pair)) (te : list e_rec)
      (lines : list string) (st : inj_state) :
  DRY_RUN g = false ->
  inject_witnesses g evt_ids rc ix te lines = Some st ->
  injected_inv ix te st.
Proof.
  intros Hdry Hrun. unfold inject_witnesses in Hrun.
  eapply inject_lines_inv; [exact Hdry | exact Hrun |].
  exists []. simpl. split_and!.
  - now rewrite app_nil_r.
  - now rewrite (right_id_L ∅ (∪)).
  - constructor.
  - intros r Hr. inversion Hr.
  - reflexivity.
Qed.

(** X14: outside the simulation mode, the rows that a pass of
    [inject_witnesses] adds have anti-duplicate keys that are pairwise
    distinct and that were not in the set loaded before the pass; the cache
    at the end is that set together with the keys of the added rows. One
    pass never writes two rows with the same event, person, role code and
    principal flag. *)
Theorem injected_keys_fresh (g : globals) (evt_ids : gmap string Z) (ix : indexes)
      (rc : gmap Z (gmap string role_pair)) (te : list e_rec)
      (lines : list string) (st : inj_state) :
  DRY_RUN g = false ->
  inject_witnesses g evt_ids rc ix te lines = Some st ->
  exists added,
    tw st = te ++ added
    /\ NoDup (key_of_row <$> added)
    /\ (forall r, r ∈ added -> key_of_row r ∉ existing_witnesses ix)
    /\ cache st = existing_witnesses ix ∪ list_to_set (key_of_row <$> added).
Proof.
  intros Hdry Hrun.
  destruct (inject_witnesses_inv g evt_ids ix rc te lines st Hdry Hrun)
    as (added & Htw & Hcache & Hnd & Hrows & _).
  exists added. split_and!; auto. intros r Hr. now apply Hrows.
Qed.

(** X15: outside the simulation mode, the number of rows that a pass of
    [inject_witnesses] adds to E.DBF is the sum of its 'ok' and 'principal'
    tallies: every counted injection is one row, and no row is added that
    is not counted. *)
Theorem tally_counts_rows (g : globals) (evt_ids : gmap string Z) (ix : indexes)
      (rc : gmap Z (gmap string role_pair)) (te : list e_rec)
      (lines : list string) (st : inj_state) :
  DRY_RUN g = false ->
  inject_witnesses g evt_ids rc ix te lines = Some st ->
  Z.of_nat (length (tw st))
  = Z.of_nat (length te) + n_ok (tally st) + n_principal (tally st).
Proof.
  intros Hdry Hrun.
  destruct (inject_witnesses_inv g evt_ids ix rc te lines st Hdry Hrun)
    as (added & Htw & _ & _ & _ & Hn).
  rewrite Htw, length_app. lia.
Qed.

(** X16: every row that a pass of [inject_witnesses] adds carries the data
    set id of the index, a non-zero person number to which an individual of
    the file resolves, the non-zero record number of an event of the
    candidate index, a role written as a formatted code, and a memo of at
    most 60000 characters. *)
Theorem injected_rows_grounded (g : globals) (evt_ids : gmap string Z)
      (ix : indexes) (rc : gmap Z (gmap string role_pair)) (te : list e_rec)
      (lines : list string) (st : inj_state) :
  DRY_RUN g = false ->
  inject_witnesses g evt_ids rc ix te lines = Some st ->
  exists added, tw st = te ++ added /\ forall r, r ∈ added -> row_from ix r.
Proof.
  intros Hdry Hrun.
  destruct (inject_witnesses_inv g evt_ids ix rc te lines st Hdry Hrun)
    as (added & Htw & _ & _ & Hrows & _).
  exists added. split; [assumption |]. intros r Hr. now apply Hrows.
Qed.

(** *** A second pass with the same codes *)

Lemma all_skipped_bump (res : outcome) (s : stats) :
  res <> Error ->
  all_skipped (bump res 1 s) = bump Skip 1 (all_skipped s).
Proof.
  intros Hres. destruct res; try contradiction; unfold all_skipped; simpl;
    f_equal; lia.
Qed.

Lemma all_skipped_errors (n : Z) (s : stats) :
  all_skipped (bump Error n s) = bump Error n (all_skipped s).
Proof. reflexivity. Qed.

Lemma inject_second_pass (g : globals) (evt_ids : gmap string Z)
      (ix ix' : indexes) (rc : gmap Z (gmap string role_pair))
      (te te' : list e_rec) (lines : list string) (st : inj_state) :
  ged_to_perno ix = ged_to_perno ix' ->
  events_index ix = events_index ix' ->
  inject_witnesses g evt_ids rc ix te lines = Some st ->
  cache st ⊆ existing_witnesses ix' ->
  inject_witnesses g evt_ids rc ix' te' lines
  = Some {| tw := te'; cache := existing_witnesses ix';
            tally := all_skipped (tally st) |}.
Proof.
  intros Hp Hi Hrun Hsub. unfold inject_witnesses in *.
  set (R := fun s1 s2 : inj_state =>
              cache s1 ⊆ existing_witnesses ix' ->
              cache s2 = existing_witnesses ix' /\ tw s2 = te'
              /\ tally s2 = all_skipped (tally s1)).
  assert (Hstep : forall eid gnum p1 p2 w (s1 s2 : inj_state),
             gnum <> 0 ->
             (exists pper cands c, events_index ix !! (pper, eid) = Some cands
                                   /\ c ∈ cands /\ ev_recno c = gnum) ->
             R s1 s2 ->
             R (insert_step g eid gnum rc (ged_to_perno ix) (ix_dsid ix) p1 p2 s1 w)
               (insert_step g eid gnum rc (ged_to_perno ix') (ix_dsid ix')
                            p1 p2 s2 w)).
  { intros eid gnum p1 p2 w s1 s2 _ _ HR. rewrite !insert_step_eq, <- Hp.
    destruct (reference_key g rc eid gnum (ged_to_perno ix) p1 p2 w) as [key|].
    - case_bool_decide as Hin.
      + intros Hs. cbn [cache] in Hs. destruct (HR Hs) as (Hc2 & Ht2 & Hs2).
        rewrite bool_decide_eq_true_2 by (rewrite Hc2; now apply Hs).
        cbn [tw cache tally]. split_and!; auto. rewrite Hs2. symmetry.
        now apply (all_skipped_bump Skip).
      + intros Hs. cbn [cache] in Hs.
        assert (Hs1 : cache s1 ⊆ existing_witnesses ix').
        { intros k Hk. apply Hs. apply elem_of_union. now left. }
        assert (Hk : key ∈ existing_witnesses ix').
        { apply Hs. apply elem_of_union. right. now apply elem_of_singleton. }
        destruct (HR Hs1) as (Hc2 & Ht2 & Hs2).
        rewrite bool_decide_eq_true_2 by (now rewrite Hc2).
        cbn [tw cache tally]. split_and!; auto. rewrite Hs2. symmetry.
        apply all_skipped_bump. now destruct key.2.
    - intros Hs. unfold count_errors in *. cbn [cache] in Hs.
      destruct (HR Hs) as (Hc2 & Ht2 & Hs2).
      cbn [tw cache tally]. split_and!; auto. now rewrite Hs2. }
  assert (Herr : forall (n : Z) (s1 s2 : inj_state),
             R s1 s2 -> R (count_errors n s1) (count_errors n s2)).
  { intros n s1 s2 HR Hs. unfold count_errors in *. cbn [cache] in Hs.
    destruct (HR Hs) as (Hc2 & Ht2 & Hs2).
    cbn [tw cache tally]. split_and!; auto. now rewrite Hs2. }
  assert (Hinit : R {| tw := te; cache := existing_witnesses ix;
                       tally := stats_init |}
                    {| tw := te'; cache := existing_witnesses ix';
                       tally := stats_init |}).
  { intros _. cbn [tw cache tally]. auto. }
  pose proof (inject_lines_rel g g eq_refl eq_refl evt_ids ix ix' Hp Hi
                rc rc R Hstep Herr lines [] _ _ Hinit) as H.
  rewrite Hrun in H.
  destruct (inject_lines g evt_ids ix' rc [] _ lines) as [[t2 c2 s2]|];
    cbn [opt_rel] in H; [| contradiction].
  destruct (H Hsub) as (Hc2 & Ht2 & Hs2). cbn [tw cache tally] in *.
  now subst.
Qed.

Lemma cache_reloaded (g : globals) (evt_ids : gmap string Z)
      (ix : indexes) (rc : gmap Z (gmap string role_pair))
      (te : list e_rec) (lines : list string) (st : inj_state) :
  DRY_RUN g = false ->
  (forall gid p, ged_to_perno ix !! gid = Some p -> 0 <= p) ->
  (forall key cands c, events_index ix !! key = Some cands -> c ∈ cands ->
                       0 <= ev_recno c) ->
  existing_witnesses ix = foldl load_witness ∅ te ->
  inject_witnesses g evt_ids rc ix te lines = Some st ->
  cache st ⊆ foldl load_witness ∅ (tw st).
Proof.
  intros Hdry Hpos Hrec Hex Hrun.
  destruct (inject_witnesses_inv g evt_ids ix rc te lines st Hdry Hrun)
    as (added & Htw & Hcache & _ & Hrows & _).
  intros k. rewrite Hcache, Htw, elem_of_union, Hex, !load_witness_fold.
  intros [[Hk | (r & Hr & H)] | Hk].
  - now apply elem_of_empty in Hk.
  - right. exists r. split; [| assumption]. apply elem_of_app. now left.
  - apply elem_of_list_to_set, list_elem_of_fmap in Hk as (r & -> & Hr).
    right. exists r. split; [apply elem_of_app; now right |].
    destruct (Hrows r Hr) as (_ & _ & He & Hg & (gid & Hgid) & Hev & _).
    destruct Hev as (pper & eid & cands & c & Hl & Hc & Hrecno).
    specialize (Hpos gid _ Hgid). specialize (Hrec _ _ _ Hl Hc).
    split_and!; [lia | lia | reflexivity].
Qed.

(** X17: run the injection pass outside the simulation mode, reload the
    anti-duplicate set from the table it leaves, and run the pass again on
    that table with the same event ids and role codes: the second pass adds
    no row, counts as skipped every reference that the first pass injected
    or skipped, and counts the same errors. The person numbers and the
    record numbers of the indexes are taken not to be negative, as a DBF
    table has them. *)
Theorem second_pass_injects_nothing (g : globals) (evt_ids : gmap string Z)
      (ix : indexes) (rc : gmap Z (gmap string role_pair))
      (te : list e_rec) (lines : list string) (st : inj_state) :
  DRY_RUN g = false ->
  (forall gid p, ged_to_perno ix !! gid = Some p -> 0 <= p) ->
  (forall key cands c, events_index ix !! key = Some cands -> c ∈ cands ->
                       0 <= ev_recno c) ->
  existing_witnesses ix = foldl load_witness ∅ te ->
  inject_witnesses g evt_ids rc ix te lines = Some st ->
  let ix' := {| ged_to_perno := ged_to_perno ix; ix_dsid := ix_dsid ix;
                events_index := events_index ix;
                existing_witnesses := foldl load_witness ∅ (tw st) |} in
  inject_witnesses g evt_ids rc ix' (tw st) lines
  = Some {| tw := tw st; cache := existing_witnesses ix';
            tally := all_skipped (tally st) |}.
Proof.
  intros Hdry Hpos Hrec Hex Hrun ix'.
  apply (inject_second_pass g evt_ids ix ix' rc te (tw st) lines st);
    [reflexivity | reflexivity | exact Hrun |].
  now apply (cache_reloaded g evt_ids ix rc te lines st).
Qed.

Lemma scenario_A_index_positive :
  (forall gid p, ged_to_perno ScenarioA.ix !! gid = Some p -> 0 <= p)
  /\ (forall key cands c, events_index ScenarioA.ix !! key = Some cands ->
                          c ∈ cands -> 0 <= ev_recno c).
Proof.
  split.
  - intros gid p H. unfold ScenarioA.ix in H. simpl in H.
    apply lookup_insert_Some in H as [[_ <-] | [_ H]]; [lia |].
    apply lookup_singleton_Some in H as [_ <-]. lia.
  - intros key cands c H Hc. unfold ScenarioA.ix in H. simpl in H.
    apply lookup_singleton_Some in H as [_ <-].
    apply list_elem_of_singleton in Hc. subst c. simpl. lia.
Qed.

Lemma scenario_A_injection :
  inject_witnesses ScenarioA.g ScenarioA.evt_ids ScenarioA.role_codes
    ScenarioA.ix [] ScenarioA.gedcom = Some ScenarioA.final.
Proof. reflexivity. Qed.

Lemma second_pass_injects_nothing_witness :
  inject_witnesses ScenarioA.g ScenarioA.evt_ids ScenarioA.role_codes
    {| ged_to_perno := ged_to_perno ScenarioA.ix; ix_dsid := ix_dsid ScenarioA.ix;
       events_index := events_index ScenarioA.ix;
       existing_witnesses := foldl load_witness ∅ (tw ScenarioA.final) |}
    (tw ScenarioA.final) ScenarioA.gedcom
  = Some {| tw := tw ScenarioA.final;
            cache := foldl load_witness ∅ (tw ScenarioA.final);
            tally := all_skipped (tally ScenarioA.final) |}.
Proof.
  apply (second_pass_injects_nothing ScenarioA.g ScenarioA.evt_ids ScenarioA.ix
           ScenarioA.role_codes [] ScenarioA.gedcom ScenarioA.final).
  - reflexivity.
  - apply scenario_A_index_positive.
  - apply scenario_A_index_positive.
  - reflexivity.
  - apply scenario_A_injection.
Defined.

Lemma injected_keys_fresh_witness :
  exists added,
    tw ScenarioA.final = [] ++ added
    /\ NoDup (key_of_row <$> added)
    /\ (forall r, r ∈ added -> key_of_row r ∉ existing_witnesses ScenarioA.ix)
    /\ cache ScenarioA.final
       = existing_witnesses ScenarioA.ix ∪ list_to_set (key_of_row <$> added).
Proof.
  apply (injected_keys_fresh ScenarioA.g ScenarioA.evt_ids ScenarioA.ix
           ScenarioA.role_codes [] ScenarioA.gedcom ScenarioA.final).
  - reflexivity.
  - apply scenario_A_injection.
Defined.

Lemma tally_counts_rows_witness :
  Z.of_nat (length (tw ScenarioA.final))
  = Z.of_nat (length (@nil e_rec)) + n_ok (tally ScenarioA.final)
    + n_principal (tally ScenarioA.final).
Proof.
  apply (tally_counts_rows ScenarioA.g ScenarioA.evt_ids ScenarioA.ix
           ScenarioA.role_codes [] ScenarioA.gedcom ScenarioA.final).
  - reflexivity.
  - apply scenario_A_injection.
Defined.

Lemma injected_rows_grounded_witness :
  exists added, tw ScenarioA.final = [] ++ added
                /\ forall r, r ∈ added -> row_from ScenarioA.ix r.
Proof.
  apply (injected_rows_grounded ScenarioA.g ScenarioA.evt_ids ScenarioA.ix
           ScenarioA.role_codes [] ScenarioA.gedcom ScenarioA.final).
  - reflexivity.
  - apply scenario_A_injection.
Defined.

(** ** When a run completes *)

Lemma startswith_app (p s : string) : startswith p (p +:+ s) = true.
Proof.
  induction p as [|c p IH]; [now destruct s |].
  rewrite str_app_cons, startswith_cons.
  destruct (ascii_dec c c); [exact IH | congruence].
Qed.

Lemma startswith_split (p s : string) :
  startswith p s = true -> exists r, s = p +:+ r.
Proof.
  revert s. induction p as [|c p IH]; intros s H.
  - exists s. now rewrite str_app_empty_l.
  - destruct s as [|d s]; [discriminate |]. rewrite startswith_cons in H.
    destruct (ascii_dec c d) as [<- |]; [| discriminate].
    destruct (IH s H) as (r & ->). exists r. now rewrite str_app_cons.
Qed.

(** A line that opens an individual has at least two fields. *)
Lemma split_ws_indi (s : string) :
  startswith "0 @I" s = true -> exists a b rest, split_ws s = a :: b :: rest.
Proof.
  intros H. apply startswith_split in H as (r & ->).
  rewrite !str_app_cons, str_app_empty_l. unfold split_ws. simpl.
  destruct (tokens r) as [t ts]. simpl. eauto.
Qed.

Section Completion.

Variable g : globals.

Lemma scan_lines_some (lines : list string) (st : scan_state) :
  (forall l, l ∈ lines -> parse_line l <> Malformed) ->
  is_Some (scan_lines g st lines).
Proof.
  revert st. induction lines as [|l lines IH]; intros st H; simpl; [eauto |].
  assert (Hl : parse_line l <> Malformed) by (apply H; left).
  assert (Hr : forall l', l' ∈ lines -> parse_line l' <> Malformed)
    by (intros l' Hl'; apply H; now right).
  destruct (parse_line l); [now apply IH | contradiction | now apply IH].
Qed.

Lemma scan_lines_none (lines : list string) (st : scan_state) (l : string) :
  l ∈ lines -> parse_line l = Malformed -> scan_lines g st lines = None.
Proof.
  revert st. induction lines as [|x lines IH]; intros st Hin Hl;
    [inversion Hin |].
  simpl. apply elem_of_cons in Hin as [<- | Hin].
  - now rewrite Hl.
  - destruct (parse_line x); [now apply IH | reflexivity | now apply IH].
Qed.

Lemma event_lines_some (pper : Z) (evt_ids : gmap string Z) (ix : indexes)
      (rc : gmap Z (gmap string role_pair)) (lines : list string)
      (acc : evt_ctx * inj_state) :
  (forall l, l ∈ lines -> parse_line l <> Malformed) ->
  is_Some (event_lines g pper evt_ids ix rc acc lines).
Proof.
  revert acc. induction lines as [|l lines IH]; intros acc H; simpl; [eauto |].
  assert (Hl : parse_line l <> Malformed) by (apply H; left).
  assert (Hr : forall l', l' ∈ lines -> parse_line l' <> Malformed)
    by (intros l' Hl'; apply H; now right).
  destruct (parse_line l); [now apply IH | contradiction | now apply IH].
Qed.

Lemma block_person_some (block : list string) (g2p : gmap string Z) :
  block <> [] -> is_Some (block_person block g2p).
Proof.
  destruct block as [|head rest]; [contradiction |]. intros _.
  unfold block_person.
  destruct (startswith "0 @I" head) eqn:E.
  - destruct (split_ws_indi head E) as (a & b & r & ->). simpl. eauto.
  - destruct (startswith "0 @F" head); [| eauto].
    destruct (foldl spouse_line (None, None) (head :: rest)). eauto.
Qed.

Lemma process_block_some (block : list string) (evt_ids : gmap string Z)
      (ix : indexes) (rc : gmap Z (gmap string role_pair)) (st : inj_state) :
  block <> [] ->
  (forall l, l ∈ block -> parse_line l <> Malformed) ->
  is_Some (process_block g block evt_ids ix rc st).
Proof.
  intros Hne H. unfold process_block.
  destruct (block_person_some block (ged_to_perno ix) Hne) as [pper ->]. simpl.
  destruct (truthy_int pper); [| eauto].
  unfold process_events.
  destruct (event_lines_some (default 0 pper) evt_ids ix rc block (ctx_init, st) H)
    as [acc ->].
  simpl. eauto.
Qed.

Lemma inject_lines_some (evt_ids : gmap string Z) (ix : indexes)
      (rc : gmap Z (gmap string role_pair)) (lines block : list string)
      (st : inj_state) :
  (forall l, l ∈ block ++ lines -> parse_line l <> Malformed) ->
  is_Some (inject_lines g evt_ids ix rc block st lines).
Proof.
  revert block st. induction lines as [|line lines IH]; intros block st H; simpl.
  - destruct block as [|b block]; [eauto |]. simpl.
    apply process_block_some; [discriminate |].
    intros l Hl. apply H. now rewrite app_nil_r.
  - destruct (startswith "0 @I" line || startswith "0 @F" line).
    + assert (Hrest : forall l, l ∈ [line] ++ lines -> parse_line l <> Malformed).
      { intros l Hl. apply H. apply elem_of_app. now right. }
      destruct block as [|b block]; simpl; [now apply IH |].
      destruct (process_block_some (b :: block) evt_ids ix rc st) as [st' ->];
        [discriminate | | simpl; now apply IH].
      intros l Hl. apply H. apply elem_of_app. now left.
    + apply IH. intros l Hl. apply H. now rewrite <- app_assoc in Hl.
Qed.

End Completion.

Lemma map_refn_lines_some (refn_to_perno : gmap string Z) (lines : list string)
      (acc : option string * gmap string Z) :
  (forall l, l ∈ lines -> startswith "1 REFN" l = true ->
             is_Some (split_ws l !! 2%nat)) ->
  is_Some (map_refn_lines refn_to_perno acc lines).
Proof.
  revert acc. induction lines as [|l lines IH]; intros acc H; simpl; [eauto |].
  assert (Hr : forall l', l' ∈ lines -> startswith "1 REFN" l' = true ->
                          is_Some (split_ws l' !! 2%nat))
    by (intros l' Hl'; apply H; now right).
  assert (Hstep : is_Some (map_refn_line refn_to_perno acc l)).
  { destruct acc as [gid m]. unfold map_refn_line.
    destruct (startswith "0 @I" l) eqn:E0.
    - destruct (split_ws_indi l E0) as (a & b & r & ->). simpl. eauto.
    - destruct (startswith "1 REFN" l) eqn:E1; simpl; [| eauto].
      destruct (truthy gid); [| eauto].
      destruct (H l) as [tok ->]; [left | assumption |]. simpl. eauto. }
  destruct Hstep as [acc' ->]. simpl. now apply IH.
Qed.

(** X18: a run completes on every file in which no line with two fields
    or more has a first field that is not an integer, and in which every
    line that starts with 1 REFN has a third field. A single line whose
    level is not an integer makes the scan fail, before any table is
    touched, and the run with it. *)
Theorem run_engine_completes (g : globals) (lines : list string) (db : database) :
  ((forall l, l ∈ lines -> parse_line l <> Malformed) ->
   (forall l, l ∈ lines -> startswith "1 REFN" l = true ->
              is_Some (split_ws l !! 2%nat)) ->
   is_Some (run_engine g lines db))
  /\ (forall l, l ∈ lines -> parse_line l = Malformed ->
                scan_role_usage g lines = None /\ run_engine g lines db = None).
Proof.
  split.
  - intros Hlines Hrefn. unfold run_engine, scan_role_usage.
    destruct (scan_lines_some g lines scan_init Hlines) as [st ->]. simpl.
    destruct (update_tmg_structure g _ (tbl_types db)) as [[t' ids] rc].
    unfold load_persons_and_events.
    destruct (foldl load_person (∅, 1) (tbl_persons db)) as [refn dsid].
    destruct (map_refn_lines_some refn lines (None, ∅) Hrefn) as [m ->]. simpl.
    unfold inject_witnesses.
    match goal with
    | |- context [inject_lines g ids ?ix rc [] ?s lines] =>
        destruct (inject_lines_some g ids ix rc lines [] s Hlines) as [st' ->]
    end.
    simpl. eauto.
  - intros l Hin Hl.
    assert (Hs : scan_role_usage g lines = None).
    { unfold scan_role_usage. now rewrite (scan_lines_none g lines scan_init l). }
    split; [exact Hs |]. unfold run_engine. now rewrite Hs.
Qed.

Lemma run_engine_completes_witness :
  is_Some (run_engine ScenarioA.g ScenarioA.gedcom ScenarioA.db).
Proof.
  apply (proj1 (run_engine_completes ScenarioA.g ScenarioA.gedcom ScenarioA.db)).
  - intros l Hl. apply list_elem_of_In in Hl. simpl in Hl.
    repeat (destruct Hl as [<- | Hl]; [vm_compute; discriminate |]).
    destruct Hl.
  - intros l Hl. apply list_elem_of_In in Hl. simpl in Hl.
    repeat (destruct Hl as [<- | Hl];
            [intros Hs; vm_compute in Hs;
             first [discriminate Hs | vm_compute; eauto] |]).
    destruct Hl.
Defined.

(** ** The sign of the role codes *)

Lemma span_all (p : ascii -> bool) (s : string) : all_chars p (span p s).1 = true.
Proof.
  induction s as [|c s IH]; [reflexivity |]. simpl.
  destruct (p c) eqn:E; [| reflexivity].
  destruct (span p s) as [a r]. simpl in *. now rewrite E.
Qed.

Lemma digit_val_nonneg (c : ascii) : is_dec c = true -> 0 <= digit_val c.
Proof.
  unfold is_dec, digit_val. intros [H _]%andb_prop. apply N.leb_le in H. lia.
Qed.

Lemma digits_val_nonneg (s : string) (acc : Z) :
  0 <= acc -> all_chars is_dec s = true -> 0 <= digits_val acc s.
Proof.
  revert acc. induction s as [|c s IH]; intros acc Hacc; simpl; [auto |].
  intros [Hc Hs]%andb_prop. apply IH; [| assumption].
  pose proof (digit_val_nonneg c Hc). lia.
Qed.

Lemma match_full_role_nonneg (s : string) (rid : Z) (block rest : string) :
  match_full_role s = Some (rid, block, rest) -> 0 <= rid.
Proof.
  unfold match_full_role. destruct (startswith "[RL=" s); [| discriminate].
  pose proof (span_all is_dec (drop 4 s)) as Hd.
  destruct (span is_dec (drop 4 s)) as [ds r]. simpl in Hd.
  assert (Hv : 0 <= digits_val 0 ds) by (apply digits_val_nonneg; [lia | exact Hd]).
  destruct ds as [|d ds]; [discriminate |].
  destruct r as [|c r]; [discriminate |].
  destruct (Ascii.eqb_spec c "]") as [-> |].
  - destruct (lazy_block r) as [b rest']. intros H. injection H as <- _ _.
    exact Hv.
  - destruct c as [[] [] [] [] [] [] [] []]; try discriminate. congruence.
Qed.

Lemma finditer_full_role_nonneg (fuel : nat) (s : string) (rid : Z) (block : string) :
  (rid, block) ∈ finditer_full_role_from fuel s -> 0 <= rid.
Proof.
  revert s. induction fuel as [|fuel IH]; intros s; simpl; [intros H; inversion H |].
  destruct (match_full_role s) as [[[rid' block'] rest]|] eqn:E.
  - intros [[= -> ->] | H]%elem_of_cons; [| now apply IH in H].
    eapply match_full_role_nonneg, E.
  - destruct s as [|c s]; [intros H; inversion H | apply IH].
Qed.

Lemma grammar_codes_nonneg (sent : string) (c : Z) :
  c ∈ (grammar_blocks sent).*1 -> 0 <= c.
Proof.
  intros ([rid block] & -> & H)%list_elem_of_fmap. simpl.
  unfold grammar_blocks, finditer_full_role in H.
  eapply finditer_full_role_nonneg, H.
Qed.

Lemma codes_nonneg_set (rc : gmap Z (gmap string role_pair)) (eid : Z)
      (k : string) (v : variant) (c : Z) :
  0 <= c -> codes_nonneg rc -> codes_nonneg (set_code eid k v c rc).
Proof.
  intros Hc Hrc e k' v' c'.
  destruct (decide ((e, k', v') = (eid, k, v))) as [[= -> -> ->] | Hne].
  - rewrite code_of_set_code_eq. now intros [= <-].
  - rewrite code_of_set_code_ne by assumption. apply Hrc.
Qed.

Lemma codes_nonneg_reset (rc : gmap Z (gmap string role_pair)) (eid : Z) :
  codes_nonneg rc -> codes_nonneg (<[eid := ∅]> rc).
Proof.
  intros Hrc e k v c. destruct (decide (e = eid)) as [-> | Hne].
  - unfold code_of. rewrite lookup_insert_eq. simpl. rewrite lookup_empty.
    destruct v; discriminate.
  - rewrite code_of_insert_empty_ne by assumption. apply Hrc.
Qed.

Lemma plan_fold_nonneg (g : globals) (eid : Z) (er : gmap string Z)
      (roles : list (string * role_data)) (p0 : plan) :
  (forall l c, er !! l = Some c -> 0 <= c) ->
  codes_nonneg (plan_codes p0) ->
  codes_nonneg (plan_codes (foldl (plan_role g eid er) p0 roles)).
Proof.
  intros Her. revert p0. induction roles as [|r roles IH]; intros p0 H0; simpl;
    [assumption |].
  apply IH. unfold plan_role, plan_principal, plan_normal.
  destruct (normal r.2), (principal r.2); simpl;
    repeat match goal with
    | |- context [er !! ?l] =>
        let E := fresh "E" in destruct (er !! l) eqn:E; simpl
    end;
    repeat (apply codes_nonneg_set; [eapply Her; eassumption |]); assumption.
Qed.

Lemma alloc_fold_nonneg (eid : Z) (l : list new_role) (a0 : alloc) :
  0 <= current_id a0 -> codes_nonneg (alloc_codes a0) ->
  codes_nonneg (alloc_codes (foldl (alloc_role eid) a0 l)).
Proof.
  revert a0. induction l as [|nr l IH]; intros a0 Hid H0; simpl; [assumption |].
  apply IH; simpl; [lia |]. apply codes_nonneg_set; [lia | assumption].
Qed.

Lemma sync_record_nonneg (g : globals) (ru : list (string * role_data))
      (done : list t_rec) (ids : gmap string Z)
      (rc : gmap Z (gmap string role_pair)) (rec : t_rec) :
  codes_nonneg rc -> codes_nonneg (sync_record g ru (done, ids, rc) rec).2.
Proof.
  intros H. rewrite sync_record_codes.
  destruct (parse_existing_spec g rec) as (_ & Hmax & Her). cbv zeta in Hmax, Her.
  destruct (is_nil _); [now apply codes_nonneg_reset |].
  unfold record_alloc, record_plan. apply alloc_fold_nonneg; simpl.
  - destruct Hmax as [-> | Hmax]; [lia | eapply grammar_codes_nonneg, Hmax].
  - apply plan_fold_nonneg; simpl; [| now apply codes_nonneg_reset].
    intros l c Hl. eapply grammar_codes_nonneg, Her, Hl.
Qed.

Lemma update_nonneg (g : globals) (ru : list (string * role_data)) (t : list t_rec)
      (acc : list t_rec * gmap string Z * gmap Z (gmap string role_pair)) :
  codes_nonneg acc.2 -> codes_nonneg (foldl (sync_record g ru) acc t).2.
Proof.
  revert acc. induction t as [|rec t IH]; intros acc H; simpl; [assumption |].
  apply IH. destruct acc as [[done ids] rc]. now apply sync_record_nonneg.
Qed.

Lemma select_role_nonneg (g : globals) (rc : gmap Z (gmap string role_pair))
      (eid : Z) (is_self : bool) (role note : string) :
  codes_nonneg rc -> 0 <= (select_role g rc eid is_self role note).1.
Proof.
  intros H.
  destruct (truthy_int (code_of rc eid (normalize g role)
              (if is_self then PRINCIPAL else NORMAL))) eqn:E.
  - destruct (code_of rc eid (normalize g role)
                (if is_self then PRINCIPAL else NORMAL)) as [c|] eqn:Ec;
      [| discriminate].
    simpl in E. apply negb_true_iff, Z.eqb_neq in E.
    rewrite (select_role_own g rc eid is_self role note c Ec E). simpl.
    eapply H, Ec.
  - rewrite (select_role_fallback g rc eid is_self role note E). cbv zeta. simpl.
    repeat match goal with
    | |- context [truthy_int ?x] => destruct (truthy_int x) eqn:?
    end; try lia.
    all: match goal with
         | |- 0 <= default 0 ?x => destruct x eqn:Ex; simpl; [eapply H, Ex | lia]
         end.
Qed.

(** X19: no code that the Synchronizer returns is negative, and so is no
    code that the injector selects from them, the fixed code 2 included:
    the role field of an injected row is made of decimal digits, five of
    them or more, and is its own normal form. *)
Theorem role_codes_nonneg (g : globals) (ru : list (string * role_data))
      (t : list t_rec) :
  let rc := (update_tmg_structure g ru t).2 in
  codes_nonneg rc
  /\ forall eid (is_self : bool) role note,
       let c := (select_role g rc eid is_self role note).1 in
       0 <= c
       /\ all_chars is_dec (format_05d c) = true
       /\ (5 <= String.length (format_05d c))%nat
       /\ normalize_role_id (PyStr (format_05d c)) = format_05d c.
Proof.
  cbv zeta.
  assert (H : codes_nonneg (update_tmg_structure g ru t).2).
  { unfold update_tmg_structure. apply update_nonneg. simpl.
    intros e k v c. unfold code_of. rewrite lookup_empty. simpl.
    rewrite lookup_empty. destruct v; discriminate. }
  split; [exact H |]. intros eid is_self role note.
  pose proof (select_role_nonneg g _ eid is_self role note H) as Hc.
  destruct (str_of_int_nonneg _ Hc) as [Hd Hne].
  destruct (zfill_spec 5 _ Hd) as (Hd' & Hlen & _).
  split_and!; auto. now apply normalize_role_id_formatted.
Qed.

(** ** The text of the grammar *)

Lemma prefix_app_long (p x y : string) :
  (String.length p <= String.length x)%nat ->
  startswith p (x +:+ y) = startswith p x.
Proof.
  revert x. induction p as [|c p IH]; intros x Hl.
  - now destruct x, y.
  - destruct x as [|d x]; [simpl in Hl; lia |].
    rewrite str_app_cons, !startswith_cons.
    destruct (ascii_dec c d); [| reflexivity]. apply IH. simpl in Hl. lia.
Qed.

Lemma contains_cons (sub : string) (c : ascii) (s : string) :
  contains sub (String c s) = startswith sub (String c s) || contains sub s.
Proof. reflexivity. Qed.

Lemma split_aux_none (sep s : string) :
  contains sep s = false -> split_on_aux sep 0 s = (s, []).
Proof.
  induction s as [|c s IH]; [reflexivity |].
  rewrite contains_cons. intros [Hp Hc]%orb_false_iff.
  cbn [split_on_aux]. unfold startswith in Hp. rewrite Hp.
  now rewrite (IH Hc).
Qed.

Lemma split_aux_skip (sep x s : string) :
  split_on_aux sep (String.length x) (x +:+ s) = split_on_aux sep 0 s.
Proof.
  induction x as [|c x IH]; [now rewrite str_app_empty_l |].
  rewrite str_app_cons. exact IH.
Qed.

(** The first field of a split, when the separator does not occur before
    its occurrence after [a]. *)
Lemma split_aux_first (sep0 : string) (last : ascii) (a b : string) :
  let sep := sep0 +:+ String last "" in
  contains sep (a +:+ sep0) = false ->
  split_on_aux sep 0 (a +:+ sep +:+ b)
  = (a, let '(t, ts) := split_on_aux sep 0 b in t :: ts).
Proof.
  intros sep. induction a as [|c a IH]; intros Hc.
  - rewrite str_app_empty_l.
    assert (Hsep : exists c0 rest, sep = String c0 rest).
    { unfold sep. destruct sep0; rewrite ?str_app_empty_l, ?str_app_cons; eauto. }
    destruct Hsep as (c0 & rest & Es).
    pose proof (startswith_app sep b) as Hp. rewrite Es in *.
    rewrite str_app_cons in *. cbn [split_on_aux].
    unfold startswith in Hp. rewrite Hp.
    replace (String.length (String c0 rest) - 1)%nat with (String.length rest)
      by (simpl; lia).
    now rewrite split_aux_skip.
  - rewrite !str_app_cons in *. rewrite contains_cons in Hc.
    apply orb_false_iff in Hc as [Hp Hc].
    assert (Hp' : startswith sep (String c (a +:+ sep +:+ b)) = false).
    { rewrite <- Hp. rewrite <- !str_app_cons.
      unfold sep at 2. rewrite (str_app_assoc sep0), <- (str_app_assoc (String c a)).
      apply prefix_app_long. unfold sep.
      rewrite !str_length_app. simpl. lia. }
    cbn [split_on_aux]. unfold startswith in Hp'. rewrite Hp'.
    now rewrite (IH Hc).
Qed.

Lemma entries_text_nonempty (id : Z) (l : list new_role) :
  l <> [] -> is_empty (entries_text id l) = false.
Proof. destruct l; [contradiction | reflexivity]. Qed.

Lemma split_first_tag (a b : string) :
  contains "[:LABELS]" (a +:+ "[:LABELS") = false ->
  split_on_aux "[:LABELS]" 0 (a +:+ "[:LABELS]" +:+ b)
  = (a, let '(t, ts) := split_on_aux "[:LABELS]" 0 b in t :: ts).
Proof. intros Ha. exact (split_aux_first "[:LABELS" "]" a b Ha). Qed.

Lemma rebuild_one_tag (a b ins : string) :
  is_empty ins = false ->
  contains "[:LABELS]" (a +:+ "[:LABELS") = false ->
  contains "[:LABELS]" b = false ->
  rebuild_sentence (a +:+ "[:LABELS]" +:+ b) ins
  = a +:+ ins +:+ CR +:+ "[:LABELS]" +:+ b.
Proof.
  intros Hins Ha Hb. unfold rebuild_sentence, split_on. rewrite Hins.
  rewrite (split_first_tag a b Ha), (split_aux_none _ b Hb).
  reflexivity.
Qed.

Lemma rebuild_two_tags (a b c ins : string) :
  is_empty ins = false ->
  contains "[:LABELS]" (a +:+ "[:LABELS") = false ->
  contains "[:LABELS]" (b +:+ "[:LABELS") = false ->
  rebuild_sentence (a +:+ "[:LABELS]" +:+ b +:+ "[:LABELS]" +:+ c) ins
  = a +:+ ins +:+ CR +:+ "[:LABELS]" +:+ b.
Proof.
  intros Hins Ha Hb. unfold rebuild_sentence, split_on. rewrite Hins.
  rewrite (split_first_tag a _ Ha), (split_first_tag b c Hb).
  destruct (split_on_aux _ 0 c). reflexivity.
Qed.

Lemma sync_record_sentence (g : globals) (ru : list (string * role_data))
      (done : list t_rec) (ids : gmap string Z)
      (rc : gmap Z (gmap string role_pair)) (rec : t_rec) :
  DRY_RUN g = false ->
  let p := record_plan g ru (<[etypenum rec := ∅]> rc) rec in
  roles_to_create p <> [] ->
  exists rec',
    (sync_record g ru (done, ids, rc) rec).1.1 = done ++ [rec']
    /\ tsentence rec'
       = rebuild_sentence (working_sentence rec)
           (entries_text (parse_existing g (working_sentence rec)).2
                         (roles_to_create p))
    /\ is_empty (entries_text (parse_existing g (working_sentence rec)).2
                              (roles_to_create p)) = false.
Proof.
  intros Hdry p Hne. unfold sync_record.
  destruct (is_nil (roles_for_this_event _ ru)) eqn:En.
  { exfalso. apply Hne. unfold p, record_plan.
    destruct (roles_for_this_event _ ru); [reflexivity | discriminate]. }
  fold p. destruct (roles_to_create p) as [|nr l] eqn:El; [contradiction |].
  simpl negb. cbn [orb]. rewrite Hdry. eexists. cbn [fst snd].
  split; [reflexivity |]. cbn [tsentence]. split; [| reflexivity].
  f_equal. unfold record_alloc. rewrite alloc_insertion. simpl insertion_str.
  rewrite str_app_empty_l. now rewrite El.
Qed.

(** X20: when the Synchronizer creates roles for an event type outside the
    simulation mode, the grammar it writes is the text it worked on with the
    new entries and a carriage return put in front of the closing tag of the
    label section, provided that tag occurs once: what stands before and
    after it is kept. When the tag occurs a second time, the second tag and
    everything after it are dropped. *)
Theorem labels_section_rebuilt (g : globals) (ru : list (string * role_data))
      (done : list t_rec) (ids : gmap string Z)
      (rc : gmap Z (gmap string role_pair)) (rec : t_rec) (a b : string) :
  DRY_RUN g = false ->
  let p := record_plan g ru (<[etypenum rec := ∅]> rc) rec in
  let new := entries_text (parse_existing g (working_sentence rec)).2
                          (roles_to_create p) in
  roles_to_create p <> [] ->
  contains "[:LABELS]" (a +:+ "[:LABELS") = false ->
  exists rec',
    (sync_record g ru (done, ids, rc) rec).1.1 = done ++ [rec']
    /\ (working_sentence rec = a +:+ "[:LABELS]" +:+ b ->
        contains "[:LABELS]" b = false ->
        tsentence rec' = a +:+ new +:+ CR +:+ "[:LABELS]" +:+ b)
    /\ (forall c, working_sentence rec
                  = a +:+ "[:LABELS]" +:+ b +:+ "[:LABELS]" +:+ c ->
                  contains "[:LABELS]" (b +:+ "[:LABELS") = false ->
                  tsentence rec' = a +:+ new +:+ CR +:+ "[:LABELS]" +:+ b).
Proof.
  intros Hdry p new Hne Ha.
  destruct (sync_record_sentence g ru done ids rc rec Hdry Hne)
    as (rec' & Hrow & Hs & Hins).
  exists rec'. split; [exact Hrow |]. fold p in Hs, Hins. fold new in Hs, Hins.
  split.
  - intros Hw Hb. rewrite Hs, Hw. now apply rebuild_one_tag.
  - intros c Hw Hb. rewrite Hs, Hw. now apply rebuild_two_tags.
Qed.

(** ** The loading of the mapping *)

Section MappingFacts.

Context {num : Type} (num_truthy : num -> bool) (g : globals).

Implicit Types (kv : string * json num) (l : list (string * json num)).

Lemma event_fold_none l : foldl (event_entry num num_truthy g) None l = None.
Proof. induction l as [|kv l IH]; [reflexivity | exact IH]. Qed.

Lemma role_fold_none l : foldl (role_entry num num_truthy g) None l = None.
Proof. induction l as [|kv l IH]; [reflexivity | exact IH]. Qed.

Lemma event_entry_obj (m : gmap string (json num)) (k : string) items :
  event_entry num num_truthy g (Some m) (k, JObj items)
  = Some (mode_event_entry num num_truthy g m (k, JObj items)).
Proof. reflexivity. Qed.

Lemma event_entry_other (m : gmap string (json num)) (k : string) (v : json num) :
  items_of v = None -> event_entry num num_truthy g (Some m) (k, v) = None.
Proof. intros H. unfold event_entry. simpl. now rewrite H. Qed.

Lemma role_entry_obj (m : gmap string (jrole num)) (k : string) items :
  role_entry num num_truthy g (Some m) (k, JObj items)
  = Some (mode_role_entry num num_truthy g m (k, JObj items)).
Proof. reflexivity. Qed.

Lemma role_entry_other (m : gmap string (jrole num)) (k : string) (v : json num) :
  items_of v = None -> role_entry num num_truthy g (Some m) (k, v) = None.
Proof. intros H. unfold role_entry. simpl. now rewrite H. Qed.

Lemma items_of_cases (v : json num) :
  (exists items, v = JObj items) \/ items_of v = None.
Proof. destruct v; eauto. Qed.

Lemma event_fold_mode l (m E : gmap string (json num)) :
  foldl (event_entry num num_truthy g) (Some m) l = Some E ->
  foldl (mode_event_entry num num_truthy g) m l = E
  /\ forall kv, kv ∈ l -> is_Some (items_of kv.2).
Proof.
  revert m. induction l as [|[k v] l IH]; intros m; cbn [foldl].
  - intros [= <-]. split; [reflexivity |]. intros kv H. inversion H.
  - destruct (items_of_cases v) as [(items & ->) | Hv].
    + rewrite event_entry_obj. intros H. apply IH in H as [H1 H2].
      split; [exact H1 |].
      intros kv [-> | Hin]%elem_of_cons; [simpl; eauto | auto].
    + rewrite (event_entry_other m k v Hv), event_fold_none. discriminate.
Qed.

Lemma role_fold_mode l (m R : gmap string (jrole num)) :
  foldl (role_entry num num_truthy g) (Some m) l = Some R ->
  foldl (mode_role_entry num num_truthy g) m l = R
  /\ forall kv, kv ∈ l -> is_Some (items_of kv.2).
Proof.
  revert m. induction l as [|[k v] l IH]; intros m; cbn [foldl].
  - intros [= <-]. split; [reflexivity |]. intros kv H. inversion H.
  - destruct (items_of_cases v) as [(items & ->) | Hv].
    + rewrite role_entry_obj. intros H. apply IH in H as [H1 H2].
      split; [exact H1 |].
      intros kv [-> | Hin]%elem_of_cons; [simpl; eauto | auto].
    + rewrite (role_entry_other m k v Hv), role_fold_none. discriminate.
Qed.

Lemma event_fold_some l (m : gmap string (json num)) :
  (forall kv, kv ∈ l -> is_Some (items_of kv.2)) ->
  is_Some (foldl (event_entry num num_truthy g) (Some m) l).
Proof.
  revert m. induction l as [|[k v] l IH]; intros m H; cbn [foldl]; [eauto |].
  destruct (H (k, v)) as [items Hi]; [left |]. simpl in Hi.
  destruct (items_of_cases v) as [(items' & ->) | Hv]; [| congruence].
  rewrite event_entry_obj. apply IH. intros kv Hin. apply H. now right.
Qed.

Lemma role_fold_some l (m : gmap string (jrole num)) :
  (forall kv, kv ∈ l -> is_Some (items_of kv.2)) ->
  is_Some (foldl (role_entry num num_truthy g) (Some m) l).
Proof.
  revert m. induction l as [|[k v] l IH]; intros m H; cbn [foldl]; [eauto |].
  destruct (H (k, v)) as [items Hi]; [left |]. simpl in Hi.
  destruct (items_of_cases v) as [(items' & ->) | Hv]; [| congruence].
  rewrite role_entry_obj. apply IH. intros kv Hin. apply H. now right.
Qed.

(** What the loop of [inject_roles_mode] stores for one entry. *)
Lemma mode_role_entry_lookup (m : gmap string (jrole num)) kv
      (key : string) (r : jrole num) :
  mode_role_entry num num_truthy g m kv !! key = Some r ->
  m !! key = Some r
  \/ key = normalize g kv.1
     /\ ((exists s, kv.2 = JStr s /\ r = {| jeng := JStr s; jfra := JStr s |})
         \/ (exists items, kv.2 = JObj items
                           /\ role_value num num_truthy items = Some r)).
Proof.
  destruct kv as [k v]. unfold mode_role_entry. simpl.
  destruct v as [| | |s| |items]; try (now left).
  - destruct (decide (key = normalize g k)) as [-> | Hne].
    + rewrite lookup_insert_eq. intros [= <-]. right. split; [reflexivity |].
      left. eauto.
    + rewrite lookup_insert_ne by congruence. now left.
  - destruct (role_value num num_truthy items) as [r0|] eqn:Er; [| now left].
    destruct (decide (key = normalize g k)) as [-> | Hne].
    + rewrite lookup_insert_eq. intros [= <-]. right. split; [reflexivity |].
      right. eauto.
    + rewrite lookup_insert_ne by congruence. now left.
Qed.

(** Every role in the table comes from the table at the start or from an
    entry of the section. *)
Lemma mode_role_fold_origin l (m : gmap string (jrole num))
      (key : string) (r : jrole num) :
  foldl (mode_role_entry num num_truthy g) m l !! key = Some r ->
  m !! key = Some r
  \/ exists kv, kv ∈ l /\ key = normalize g kv.1
       /\ ((exists s, kv.2 = JStr s /\ r = {| jeng := JStr s; jfra := JStr s |})
           \/ (exists items, kv.2 = JObj items
                             /\ role_value num num_truthy items = Some r)).
Proof.
  revert m. induction l as [|kv l IH]; intros m; cbn [foldl]; [now left |].
  intros H. apply IH in H as [H | (kv' & Hin & Hk & Hv)].
  - apply mode_role_entry_lookup in H as [H | (Hk & Hv)]; [now left |].
    right. exists kv. split; [left | auto].
  - right. exists kv'. split; [now right | auto].
Qed.

Lemma role_value_labels (items : list (string * json num)) (r : jrole num) :
  role_value num num_truthy items = Some r ->
  obj_get "eng" items = Some (jeng r)
  /\ json_truthy num num_truthy (jeng r) = true
  /\ jfra r = default (jeng r) (obj_get "fra" items).
Proof.
  unfold role_value.
  destruct (obj_get "eng" items) as [e|] eqn:Ee; simpl; [| discriminate].
  destruct (json_truthy num num_truthy e) eqn:Et; [| discriminate].
  intros [= <-]. simpl. auto.
Qed.

Lemma role_value_falsy (items : list (string * json num)) :
  json_truthy num num_truthy (default JNull (obj_get "eng" items)) = false ->
  role_value num num_truthy items = None.
Proof. unfold role_value. now intros ->. Qed.

End MappingFacts.

(** X21: when [load_mapping] returns, the loader of [inject_roles_mode]
    returns the same two tables on the same content; [load_mapping] returns
    exactly when the two sections are dicts, or missing, and each of their
    entries is a dict, whereas the loader of [inject_roles_mode] passes over
    an entry of another type and takes a plain string as the name. *)
Theorem mapping_loaders_agree {num : Type} (num_truthy : num -> bool)
      (g : globals) (data : json num) :
  (forall m, load_mapping num num_truthy g data = Some m ->
             mode_load_mapping num num_truthy g data = Some m)
  /\ (forall evs rls,
        section_items "events" data = Some evs ->
        section_items "roles" data = Some rls ->
        is_Some (mode_load_mapping num num_truthy g data)
        /\ (is_Some (load_mapping num num_truthy g data) <->
            forall kv, kv ∈ evs ++ rls -> is_Some (items_of kv.2)))
  /\ (forall k s : string,
        mode_event_entry num num_truthy g ∅ (k, JStr s)
        = {[ normalize g k := JStr s ]}
        /\ event_entry num num_truthy g (Some ∅) (k, JStr s) = None).
Proof.
  split_and!.
  - intros [E R]. unfold load_mapping, mode_load_mapping.
    destruct (section_items "events" data) as [evs|]; simpl; [| discriminate].
    destruct (foldl (event_entry num num_truthy g) (Some ∅) evs) as [E'|] eqn:He;
      simpl; [| discriminate].
    destruct (section_items "roles" data) as [rls|]; simpl; [| discriminate].
    destruct (foldl (role_entry num num_truthy g) (Some ∅) rls) as [R'|] eqn:Hr;
      simpl; [| discriminate].
    intros [= <- <-].
    apply event_fold_mode in He as [-> _]. apply role_fold_mode in Hr as [-> _].
    reflexivity.
  - intros evs rls He Hr. unfold load_mapping, mode_load_mapping.
    rewrite He, Hr. simpl. split; [eauto |]. split.
    + intros H kv [Hin | Hin]%elem_of_app.
      * destruct (foldl (event_entry num num_truthy g) (Some ∅) evs) as [E|] eqn:Hfe;
          simpl in H; [| now destruct H].
        now apply (event_fold_mode num_truthy g) in Hfe as [_ Hfe]; auto.
      * destruct (foldl (event_entry num num_truthy g) (Some ∅) evs) as [E|];
          simpl in H; [| now destruct H].
        destruct (foldl (role_entry num num_truthy g) (Some ∅) rls) as [R|] eqn:Hfr;
          simpl in H; [| now destruct H].
        now apply (role_fold_mode num_truthy g) in Hfr as [_ Hfr]; auto.
    + intros H.
      destruct (event_fold_some num_truthy g evs ∅) as [E ->].
      { intros kv Hin. apply H. apply elem_of_app. now left. }
      destruct (role_fold_some num_truthy g rls ∅) as [R ->].
      { intros kv Hin. apply H. apply elem_of_app. now right. }
      simpl. eauto.
  - intros k s. split; reflexivity.
Qed.

(** X22: a role that the loader of [inject_roles_mode] stores comes from an
    entry of the section 'roles' whose normalised key is its key. From an
    entry that is a dict it has the field 'eng' of the entry, which is true
    in the sense of Python (so neither missing, null nor empty), and as
    French label the field 'fra' when the entry has it, be it empty, and
    the English label when it has not. From an entry that is a plain string
    it has that string under both labels, and no test is made: the last
    entry of the section, when it is a string, is stored whatever the
    string, the empty one included, whereas a last entry that is a dict
    whose 'eng' is not true leaves the table as it was. *)
Theorem loaded_roles_labelled {num : Type} (num_truthy : num -> bool)
      (g : globals) (data : json num)
      (m : gmap string (json num) * gmap string (jrole num)) :
  mode_load_mapping num num_truthy g data = Some m ->
  (forall (key : string) (r : jrole num),
     m.2 !! key = Some r ->
     exists rls k v,
       section_items "roles" data = Some rls
       /\ (k, v) ∈ rls /\ key = normalize g k
       /\ ((exists s, v = JStr s /\ r = {| jeng := JStr s; jfra := JStr s |})
           \/ (exists items,
                 v = JObj items
                 /\ obj_get "eng" items = Some (jeng r)
                 /\ json_truthy num num_truthy (jeng r) = true
                 /\ jfra r = default (jeng r) (obj_get "fra" items))))
  /\ (forall rls (k s : string),
        section_items "roles" data = Some (rls ++ [(k, JStr s)]) ->
        m.2 !! normalize g k = Some {| jeng := JStr s; jfra := JStr s |})
  /\ (forall rls (k : string) items,
        section_items "roles" data = Some (rls ++ [(k, JObj items)]) ->
        json_truthy num num_truthy (default JNull (obj_get "eng" items)) = false ->
        m.2 = foldl (mode_role_entry num num_truthy g) ∅ rls).
Proof.
  unfold mode_load_mapping.
  destruct (section_items "events" data) as [evs|]; simpl; [| discriminate].
  destruct (section_items "roles" data) as [rls|]; simpl; [| discriminate].
  intros [= <-]. simpl. split_and!.
  - intros key r H.
    apply mode_role_fold_origin in H as [H | ([k v] & Hin & Hk & Hv)].
    { rewrite lookup_empty in H. discriminate. }
    exists rls, k, v. split_and!; [reflexivity | exact Hin | exact Hk |].
    destruct Hv as [Hs | (items & Hv & Hr)]; [now left |].
    right. exists items. split; [exact Hv |]. now apply (role_value_labels num_truthy).
  - intros rls' k s [= ->]. rewrite foldl_app. cbn [foldl].
    unfold mode_role_entry. simpl. apply lookup_insert_eq.
  - intros rls' k items [= ->] Hf. rewrite foldl_app. cbn [foldl].
    unfold mode_role_entry. simpl. now rewrite (role_value_falsy num_truthy).
Qed.

(** A section whose last entry is the empty string. *)
Lemma loaded_roles_labelled_witness :
  mode_load_mapping Z MappingFile.nonzero ScenarioA.g MappingFile.data_plain
  = Some (MappingFile.events, MappingFile.roles_plain)
  /\ MappingFile.roles_plain !! "SELLER"
     = Some {| jeng := JStr ""; jfra := JStr "" |}
  /\ exists items : list (string * json Z),
       obj_get "eng" items = Some (JStr "Buyer")
       /\ JStr "" = default (JStr "Buyer") (obj_get "fra" items).
Proof.
  assert (H : mode_load_mapping Z MappingFile.nonzero ScenarioA.g
                MappingFile.data_plain
              = Some (MappingFile.events, MappingFile.roles_plain)) by reflexivity.
  split; [exact H |].
  destruct (loaded_roles_labelled MappingFile.nonzero ScenarioA.g
              MappingFile.data_plain
              (MappingFile.events, MappingFile.roles_plain) H)
    as (Hall & Hstr & _).
  split.
  - exact (Hstr [("Buyer", JObj MappingFile.buyer)] "Seller" "" eq_refl).
  - destruct (Hall "BUYER" {| jeng := JStr "Buyer"; jfra := JStr "" |} eq_refl)
      as (rls & k & v & _ & _ & _ & [(s & _ & Hs) | (items & _ & He & _ & Hf)]).
    + exfalso. injection Hs as H1 H2. rewrite <- H1 in H2. discriminate H2.
    + exists items. auto.
Defined.

Lemma labels_section_rebuilt_witness :
  exists rec',
    (sync_record Reuse.g Reuse.ru ([], ∅, ∅) Reuse.rec).1.1 = [] ++ [rec']
    /\ tsentence rec'
       = ("[LABELS:]" +:+ CR +:+ "[RL=00001][L=ENGLISH]Principal"
            +:+ CR +:+ "[RL=00002][L=ENGLISH]Witness[L=FRENCH]Temoin" +:+ CR)
         +:+ (CR +:+ "[RL=00003][L=ENGLISH]Buyer[L=FRENCH]Acheteur"
                 +:+ CR +:+ "[RL=00004][L=ENGLISH]Principal Buyer"
                 +:+ "[L=FRENCH]Principal Acheteur")
         +:+ CR +:+ "[:LABELS]" +:+ "".
Proof.
  destruct (labels_section_rebuilt Reuse.g Reuse.ru [] ∅ ∅ Reuse.rec
              ("[LABELS:]" +:+ CR +:+ "[RL=00001][L=ENGLISH]Principal"
                 +:+ CR +:+ "[RL=00002][L=ENGLISH]Witness[L=FRENCH]Temoin" +:+ CR)
              "" eq_refl)
    as (rec' & Hrow & H1 & _).
  - intros H. apply (f_equal length) in H. vm_compute in H. discriminate H.
  - reflexivity.
  - exists rec'. split; [exact Hrow |].
    rewrite H1; reflexivity.
Defined.

(** ** Blocks whose owner is not resolved *)

Lemma block_person_unmapped (block : list string) :
  block <> [] -> block_person block ∅ = Some None.
Proof.
  destruct block as [|head rest]; [contradiction |]. intros _.
  unfold block_person.
  destruct (startswith "0 @I" head) eqn:E.
  - destruct (split_ws_indi head E) as (a & b & r & ->). simpl.
    now rewrite lookup_empty.
  - destruct (startswith "0 @F" head); [| reflexivity].
    destruct (foldl spouse_line (None, None) (head :: rest)) as [h w].
    rewrite !lookup_empty.
    rewrite !bool_decide_eq_false_2 by (intros [x Hx]; discriminate).
    now rewrite !andb_false_r.
Qed.

Lemma inject_lines_unmapped (g : globals) (evt_ids : gmap string Z) (ix : indexes)
      (rc : gmap Z (gmap string role_pair)) (lines block : list string)
      (st : inj_state) :
  ged_to_perno ix = ∅ ->
  inject_lines g evt_ids ix rc block st lines = Some st.
Proof.
  intros Hp.
  assert (Hb : forall b, b <> [] -> process_block g b evt_ids ix rc st = Some st).
  { intros b Hb. unfold process_block. rewrite Hp.
    now rewrite (block_person_unmapped b Hb). }
  revert block. induction lines as [|line lines IH]; intros block; simpl.
  - destruct block as [|b block]; [reflexivity |]. now apply Hb.
  - destruct (startswith "0 @I" line || startswith "0 @F" line); [| apply IH].
    destruct block as [|b block]; simpl; [apply IH |].
    rewrite (Hb (b :: block)) by discriminate. simpl. apply IH.
Qed.

(** X23: the block of an individual or of a family whose owner does not
    resolve to a person, or resolves to the person number 0, is passed over:
    its witness references are neither injected nor counted, not even as
    errors. When no individual of the file is mapped at all, the pass
    returns the table and the cache as they were with all four tallies at
    zero, whatever the lines are. *)
Theorem unresolved_owner_skipped (g : globals) (evt_ids : gmap string Z)
      (ix : indexes) (rc : gmap Z (gmap string role_pair)) :
  (forall block pper st,
      block_person block (ged_to_perno ix) = Some pper ->
      truthy_int pper = false ->
      process_block g block evt_ids ix rc st = Some st)
  /\ (ged_to_perno ix = ∅ ->
      forall te lines,
        inject_witnesses g evt_ids rc ix te lines
        = Some {| tw := te; cache := existing_witnesses ix; tally := stats_init |}).
Proof.
  split.
  - intros block pper st Hb Hp. unfold process_block. rewrite Hb. simpl.
    now rewrite Hp.
  - intros Hp te lines. unfold inject_witnesses. now apply inject_lines_unmapped.
Qed.
